(** * Goliac entity loader: rulesets and repositories

    A shallow embedding of [internal/entity/entity_ruleset.go] and
    [internal/entity/repository.go]: the ruleset parameter comparison, the two
    [Validate] methods, the ruleset directory reader and the two-phase
    repository reader with its recursive walk of the teams tree.

    Conventions.
    - A Go [string] is a [string] (a sequence of bytes), [s[0]] on the empty
      string panics.
    - A Go [error] is its message; [fmt.Errorf] with [%s] verbs is string
      concatenation.
    - A Go [map[string]*T] is a [gmap string T]; a [nil] map is [None].
    - Code that can panic lives in the [Exec] monad. *)

From Stdlib Require Import ZArith String Ascii List.
From stdpp Require Import gmap strings list.

Open Scope string_scope.

(** ** Errors, results, panics *)

Definition error := string.
Definition Warning := string.

(** The two outcomes of a Go call returning [(T, error)]. *)
Inductive result (A : Type) : Type :=
| Ok (a : A)
| Err (e : error).
Arguments Ok {A} a.
Arguments Err {A} e.

(** A computation either returns or panics (a run-time error such as an index
    out of range). *)
Inductive Exec (A : Type) : Type :=
| Ret (a : A)
| Panic (msg : string).
Arguments Ret {A} a.
Arguments Panic {A} msg.

Global Instance Exec_ret : MRet Exec := fun A a => Ret a.
Global Instance Exec_bind : MBind Exec := fun A B k m =>
  match m with
  | Ret a => k a
  | Panic msg => Panic msg
  end.

Definition returns {A : Type} (m : Exec A) : Prop := exists a, m = Ret a.

(** [s[0]] *)
Definition byte0 (s : string) : Exec ascii :=
  match s with
  | EmptyString => Panic "runtime error: index out of range [0] with length 0"
  | String c _ => Ret c
  end.

(** ** The functions of Go's [path/filepath] and [strings] the code calls
    (Unix flavour: the separator is the slash, there is no volume name). *)

Module filepath.

Definition Separator : ascii := "/"%char.
Definition is_sep (c : ascii) : bool := Ascii.eqb c Separator.
Definition is_dot (c : ascii) : bool := Ascii.eqb c "."%char.

(** The scan of [Ext]: from the last byte backwards, up to a separator; at the
    first dot the suffix from that dot is returned. [rpath] is the path
    reversed, [seen] the bytes already passed, in path order. *)
Fixpoint ext_scan (rpath seen : list ascii) : list ascii :=
  match rpath with
  | [] => []
  | c :: more =>
      if is_sep c then []
      else if is_dot c then c :: seen
      else ext_scan more (c :: seen)
  end.

Definition Ext (path : string) : string :=
  string_of_list_ascii (ext_scan (rev (list_ascii_of_string path)) []).

(** The elements of a path, split at the separators. *)
Fixpoint elements (l : list ascii) : list (list ascii) :=
  match l with
  | [] => [[]]
  | c :: l' =>
      if is_sep c then [] :: elements l'
      else match elements l' with
           | [] => [[c]]
           | e :: es => (c :: e) :: es
           end
  end.

Definition dot : list ascii := ["."%char].
Definition dotdot : list ascii := ["."%char; "."%char].

(** One element of [Clean]'s pass; [out] is the output so far, last element
    first. An empty element and [.] are dropped, [..] removes the element
    before it when there is one to remove, is dropped at the root and is kept
    otherwise. *)
Definition clean_step (rooted : bool) (out : list (list ascii)) (elem : list ascii)
  : list (list ascii) :=
  if decide (elem = [] \/ elem = dot) then out
  else if decide (elem = dotdot) then
    match out with
    | top :: below => if decide (top = dotdot) then elem :: out else below
    | [] => if rooted then out else elem :: out
    end
  else elem :: out.

Fixpoint join_elements (es : list (list ascii)) : list ascii :=
  match es with
  | [] => []
  | [e] => e
  | e :: es' => e ++ Separator :: join_elements es'
  end.

Definition clean_list (path : list ascii) : list ascii :=
  let rooted := match path with c :: _ => is_sep c | [] => false end in
  let body := join_elements (rev (fold_left (clean_step rooted) (elements path) [])) in
  if rooted then Separator :: body
  else match body with [] => dot | _ => body end.

Definition Clean (path : string) : string :=
  string_of_list_ascii (clean_list (list_ascii_of_string path)).

(** [Join] of two elements: empty elements are ignored, the rest is joined by
    the separator and cleaned; all empty gives the empty string. *)
Definition Join (a b : string) : string :=
  if decide (a = "") then (if decide (b = "") then "" else Clean b)
  else Clean (a ++ "/" ++ b).

Fixpoint drop_seps (l : list ascii) : list ascii :=
  match l with
  | c :: l' => if is_sep c then drop_seps l' else l
  | [] => []
  end.

Fixpoint take_element (l : list ascii) : list ascii :=
  match l with
  | c :: l' => if is_sep c then [] else c :: take_element l'
  | [] => []
  end.

Fixpoint drop_element (l : list ascii) : list ascii :=
  match l with
  | c :: l' => if is_sep c then l else drop_element l'
  | [] => []
  end.

(** [Base]: trailing separators are stripped, the last element is returned;
    the empty path gives [.], a path of separators only gives the separator. *)
Definition Base (path : string) : string :=
  if decide (path = "") then "."
  else
    match rev (take_element (drop_seps (rev (list_ascii_of_string path)))) with
    | [] => "/"
    | e => string_of_list_ascii e
    end.

(** [Dir]: all but the last element, cleaned. *)
Definition Dir (path : string) : string :=
  string_of_list_ascii
    (clean_list (rev (drop_element (rev (list_ascii_of_string path))))).

End filepath.

Module strings.

Fixpoint prefix_of (p l : list ascii) : bool :=
  match p, l with
  | [], _ => true
  | a :: p', b :: l' => Ascii.eqb a b && prefix_of p' l'
  | _ :: _, [] => false
  end.

Definition HasSuffix (s suffix : string) : bool :=
  prefix_of (rev (list_ascii_of_string suffix)) (rev (list_ascii_of_string s)).

End strings.

(** [filename[:len(filename)-len(filepath.Ext(filename))]] *)
Definition trimExt (filename : string) : string :=
  substring 0 (String.length filename - String.length (filepath.Ext filename)) filename.

(** ** Rulesets: [entity_ruleset.go] *)

(** The header every entity embeds ([Entity], inlined in the YAML document).
    Its declaration is in a file that is not among the sources; the three
    fields are those the two [Validate] methods and the test of [parseEntity]
    read. *)
Record Entity := {
  ApiVersion : string;
  Kind : string;
  Name : string;
}.

(** [RequiredApprovingReviewCount] is a Go [int]; it is only ever compared. *)
Record RuleSetParameters := {
  (* PullRequestParameters *)
  DismissStaleReviewsOnPush : bool;
  RequireCodeOwnerReview : bool;
  RequiredApprovingReviewCount : Z;
  RequiredReviewThreadResolution : bool;
  RequireLastPushApproval : bool;
  (* RequiredStatusChecksParameters *)
  RequiredStatusChecks : list string;
  StrictRequiredStatusChecksPolicy : bool;
}.

Definition mem (s : string) (l : list string) : bool := existsb (String.eqb s) l.

(** Modelled from the spec: [StringArrayEquivalent], the helper of package
    [entity] that [CompareRulesetParameters] calls; its file is not among the
    sources. Section 4.4: the two name lists are "equivalent as sets", and the
    helper reports "not just equality but also, conceptually, the symmetric
    difference": the names of the first list missing from the second, and the
    names of the second missing from the first. The lists are equivalent when
    both differences are empty, so a name written twice counts once. *)
Definition StringArrayEquivalent (a1 a2 : list string)
  : bool * list string * list string :=
  let a1_not_a2 := List.filter (fun s => negb (mem s a2)) a1 in
  let a2_not_a1 := List.filter (fun s => negb (mem s a1)) a2 in
  (match a1_not_a2, a2_not_a1 with [], [] => true | _, _ => false end,
   a1_not_a2, a2_not_a1).

Definition CompareRulesetParameters (ruletype : string)
  (left right : RuleSetParameters) : bool :=
  if ruletype =? "required_signatures" then true
  else if ruletype =? "pull_request" then
    if negb (Bool.eqb left.(DismissStaleReviewsOnPush) right.(DismissStaleReviewsOnPush))
    then false
    else if negb (Bool.eqb left.(RequireCodeOwnerReview) right.(RequireCodeOwnerReview))
    then false
    else if negb (left.(RequiredApprovingReviewCount) =? right.(RequiredApprovingReviewCount))%Z
    then false
    else if negb (Bool.eqb left.(RequiredReviewThreadResolution) right.(RequiredReviewThreadResolution))
    then false
    else if negb (Bool.eqb left.(RequireLastPushApproval) right.(RequireLastPushApproval))
    then false
    else true
  else if ruletype =? "required_status_checks" then
    let '(res, _, _) :=
      StringArrayEquivalent left.(RequiredStatusChecks) right.(RequiredStatusChecks) in
    if negb res then false
    else if negb (Bool.eqb left.(StrictRequiredStatusChecksPolicy)
                      right.(StrictRequiredStatusChecksPolicy))
    then false
    else true
  else false.

Record BypassApp := {
  AppName : string;
  Mode : string; (* always, pull_request *)
}.

Record OnBranches := {
  Include : list string; (* ~DEFAULT_BRANCH, ~ALL, branch_name, ... *)
  Exclude : list string;
}.

Record Rule := {
  Ruletype : string;
  Parameters : RuleSetParameters;
}.

Record RuleSetDefinition := {
  Enforcement : string; (* disabled, active, evaluate *)
  BypassApps : list BypassApp;
  On : OnBranches;
  Rules : list Rule;
}.

Record RuleSet := {
  RuleSet_Entity : Entity;
  Spec : RuleSetDefinition;
}.

Module RuleSetValidate.

Definition bad_ruletype (rule : Rule) : bool :=
  negb (rule.(Ruletype) =? "required_signatures")
  && negb (rule.(Ruletype) =? "pull_request")
  && negb (rule.(Ruletype) =? "required_status_checks").

Definition bad_enforcement (enforcement : string) : bool :=
  negb (enforcement =? "disable")
  && negb (enforcement =? "active")
  && negb (enforcement =? "evaluate").

Definition bad_mode (ba : BypassApp) : bool :=
  negb (ba.(Mode) =? "always") && negb (ba.(Mode) =? "pull_request").

Definition tilde : ascii := "~"%char.

(** [for _, on := range r.Spec.On.Include]: the first byte of each entry is
    read before anything else is known about the entry. *)
Fixpoint check_include (filename : string) (include : list string)
  : Exec (option error) :=
  match include with
  | [] => Ret None
  | on :: rest =>
      c ← byte0 on;
      if Ascii.eqb c tilde && (negb (on =? "~DEFAULT_BRANCH") && negb (on =? "~ALL"))
      then Ret (Some ("invalid include: " ++ on ++ " in ruleset filename " ++ filename))
      else check_include filename rest
  end.

(** [func (r *RuleSet) Validate(filename string) error]; [None] is [nil]. *)
Definition Validate (r : RuleSet) (filename : string) : Exec (option error) :=
  let e := r.(RuleSet_Entity) in
  if negb (e.(ApiVersion) =? "v1") then
    Ret (Some ("invalid apiVersion: " ++ e.(ApiVersion)
               ++ " for ruleset filename " ++ filename))
  else if negb (e.(Kind) =? "Ruleset") then
    Ret (Some ("invalid kind: " ++ e.(Kind) ++ " for ruleset filename " ++ filename))
  else if e.(Name) =? "" then
    Ret (Some ("metadata.name is empty for ruleset filename " ++ filename))
  else
    let filename := filepath.Base filename in
    if negb (e.(Name) =? trimExt filename) then
      Ret (Some ("invalid metadata.name: " ++ e.(Name)
                 ++ " for ruleset filename " ++ filename))
    else
      match List.find bad_ruletype r.(Spec).(Rules) with
      | Some rule =>
          Ret (Some ("invalid rulettype: " ++ rule.(Ruletype)
                     ++ " for ruleset filename " ++ filename))
      | None =>
          if bad_enforcement r.(Spec).(Enforcement) then
            Ret (Some ("invalid enforcement: " ++ r.(Spec).(Enforcement)
                       ++ " for ruleset filename " ++ filename))
          else
            match List.find bad_mode r.(Spec).(BypassApps) with
            | Some ba =>
                Ret (Some ("invalid mode: " ++ ba.(Mode) ++ " for bypassapp "
                           ++ ba.(AppName) ++ " in ruleset filename " ++ filename))
            | None => check_include filename r.(Spec).(On).(Include)
            end
      end.

End RuleSetValidate.

(** ** The file system as the readers observe it

    The readers use three operations of the file system: [utils.Exists],
    [fs.ReadDir] and, through [NewRuleSet] and [NewRepository],
    [utils.ReadFile] followed by [yaml.Unmarshal]. A directory entry carries
    what these operations return on its path: a file the outcome of reading and
    decoding it into a document of type [D], a directory the outcome of listing
    it, so [fs.ReadDir(filepath.Join(dir, e.Name()))] is the listing of the
    entry [e] of [dir]. *)

#[warnings="-register-all"]
Inductive Entry (D : Type) : Type :=
| File (name : string) (content : result D)
| Directory (name : string) (listing : result (list (Entry D))).
Arguments File {D} name content.
Arguments Directory {D} name listing.

Definition EntryName {D} (e : Entry D) : string :=
  match e with
  | File name _ => name
  | Directory name _ => name
  end.

Definition IsDir {D} (e : Entry D) : bool :=
  match e with
  | File _ _ => false
  | Directory _ _ => true
  end.

(** What is at a path the caller names: the status check fails, nothing is
    there, or something is there with the outcome of listing it. *)
Inductive Stat (D : Type) : Type :=
| StatFails (err : error)
| NotExist
| Present (listing : result (list (Entry D))).
Arguments StatFails {D} err.
Arguments NotExist {D}.
Arguments Present {D} listing.

Definition Filesystem (D : Type) : Type := string -> Stat D.

Module utils.

(** Modelled from the spec: [utils.Exists] ("exists(path) -> bool", with the
    error the callers test), whose file is not among the sources. *)
Definition Exists {D} (fs : Filesystem D) (path : string) : bool * option error :=
  match fs path with
  | StatFails err => (false, Some err)
  | NotExist => (false, None)
  | Present _ => (true, None)
  end.

End utils.

Definition ReadDir {D} (fs : Filesystem D) (path : string) : result (list (Entry D)) :=
  match fs path with
  | StatFails err => Err err
  | NotExist => Err ("open " ++ path ++ ": file does not exist")
  | Present listing => listing
  end.

(** [append(s, x)] *)
Definition append {A : Type} (s : list A) (x : A) : list A := (s ++ [x])%list.

(** [for _, x := range l { body }] over a state [S], in [Exec]. *)
Fixpoint range {A S : Type} (body : A -> S -> Exec S) (l : list A) (s : S) : Exec S :=
  match l with
  | [] => Ret s
  | x :: l' => s' ← body x s; range body l' s'
  end.

(** [NewRuleSet]: [file] is what reading and decoding [filename] yields. *)
Definition NewRuleSet (file : result RuleSet) (filename : string) : result RuleSet :=
  match file with
  | Err err => Err err
  | Ok ruleset => Ok ruleset
  end.

(** One iteration of the loop of [ReadRuleSetDirectory]. *)
Definition ReadRuleSetDirectory_entry (dirname : string) (e : Entry RuleSet)
  (st : gmap string RuleSet * list error) : Exec (gmap string RuleSet * list error) :=
  let '(rulesets, errors) := st in
  match e with
  | Directory _ _ => Ret (rulesets, errors)
  | File name file =>
      c ← byte0 name;
      (* skipping files starting with '.' *)
      if Ascii.eqb c "."%char then Ret (rulesets, errors)
      else
        match NewRuleSet file (filepath.Join dirname name) with
        | Err err => Ret (rulesets, append errors err)
        | Ok ruleset =>
            v ← RuleSetValidate.Validate ruleset (filepath.Join dirname name);
            match v with
            | Some err => Ret (rulesets, append errors err)
            | None => Ret (<[ruleset.(RuleSet_Entity).(Name) := ruleset]> rulesets, errors)
            end
        end
  end.

Definition ReadRuleSetDirectory (fs : Filesystem RuleSet) (dirname : string)
  : Exec (gmap string RuleSet * list error * list Warning) :=
  let errors : list error := [] in
  let warning : list Warning := [] in
  let rulesets : gmap string RuleSet := ∅ in
  match utils.Exists fs dirname with
  | (_, Some err) => Ret (rulesets, append errors err, warning)
  | (false, None) => Ret (rulesets, errors, warning)
  | (true, None) =>
      match ReadDir fs dirname with
      | Err err => Ret (rulesets, append errors err, warning)
      | Ok entries =>
          '(rulesets, errors) ←
            range (ReadRuleSetDirectory_entry dirname) entries (rulesets, errors);
          Ret (rulesets, errors, warning)
      end
  end.

(** ** Repositories: [repository.go] *)

Record RepositoryRuleSet := {
  Definition_ : RuleSetDefinition; (* inlined *)
  RuleSetName : string;
}.

Record RepositorySpec := {
  Writers : list string;
  Readers : list string;
  ExternalUserReaders : list string;
  ExternalUserWriters : list string;
  IsPublic : bool;
  AllowAutoMerge : bool;
  DeleteBranchOnMerge : bool;
  AllowUpdateBranch : bool;
  Rulesets : list RepositoryRuleSet;
}.

Record Repository := {
  Repository_Entity : Entity;
  Repository_Spec : RepositorySpec;
  Archived : bool;          (* implicit: will be set by Goliac *)
  Owner : option string;    (* implicit. team name owning the repo (if any) *)
  RenameTo : string;
  DirectoryPath : string;   (* used to know where to rename the repository *)
}.

(** What a YAML document can give a [Repository]: [Owner] and [DirectoryPath]
    are tagged [yaml:"-"] and stay at their zero values when decoding. *)
Record RepositoryDocument := {
  doc_Entity : Entity;
  doc_spec : RepositorySpec;
  doc_archived : bool;
  doc_renameTo : string;
}.

Definition Unmarshal (doc : RepositoryDocument) : Repository :=
  {| Repository_Entity := doc.(doc_Entity);
     Repository_Spec := doc.(doc_spec);
     Archived := doc.(doc_archived);
     Owner := None;
     RenameTo := doc.(doc_renameTo);
     DirectoryPath := "" |}.

Definition set_DirectoryPath (r : Repository) (p : string) : Repository :=
  {| Repository_Entity := r.(Repository_Entity);
     Repository_Spec := r.(Repository_Spec);
     Archived := r.(Archived);
     Owner := r.(Owner);
     RenameTo := r.(RenameTo);
     DirectoryPath := p |}.

Definition set_Archived (r : Repository) (b : bool) : Repository :=
  {| Repository_Entity := r.(Repository_Entity);
     Repository_Spec := r.(Repository_Spec);
     Archived := b;
     Owner := r.(Owner);
     RenameTo := r.(RenameTo);
     DirectoryPath := r.(DirectoryPath) |}.

Definition set_Owner (r : Repository) (o : option string) : Repository :=
  {| Repository_Entity := r.(Repository_Entity);
     Repository_Spec := r.(Repository_Spec);
     Archived := r.(Archived);
     Owner := o;
     RenameTo := r.(RenameTo);
     DirectoryPath := r.(DirectoryPath) |}.

(** [r.Name] of a repository (the embedded header's field). *)
Definition RepoName (r : Repository) : string := r.(Repository_Entity).(Name).

(** [NewRepository]: [file] is what reading and decoding [filename] yields. *)
Definition NewRepository (file : result RepositoryDocument) (filename : string)
  : result Repository :=
  match file with
  | Err err => Err err
  | Ok doc => Ok (set_DirectoryPath (Unmarshal doc) (filepath.Dir filename))
  end.

Definition ReposState : Type := gmap string Repository * list error * list Warning.

Section Repositories.

(** [Team] and [User] are declared in files that are not among the sources;
    the readers only test the keys of the two tables. [GithubAnsiString] is
    [utils.GithubAnsiString], the name transform of the platform. *)
Context {Team User : Type}.
Variable GithubAnsiString : string -> string.
Variable teams : gmap string Team.
Variable externalUsers : gmap string User.

Definition missing {V : Type} (table : gmap string V) (name : string) : bool :=
  match table !! name with
  | Some _ => false
  | None => true
  end.

(** The loop over [r.Spec.Rulesets], with the names seen so far. *)
Fixpoint Validate_rulesets (rulesets : list RepositoryRuleSet)
  (rulesetname : gmap string bool) : option error :=
  match rulesets with
  | [] => None
  | ruleset :: rest =>
      if ruleset.(RuleSetName) =? "" then
        Some "invalid ruleset: each ruleset must have a name"
      else if RuleSetValidate.bad_enforcement ruleset.(Definition_).(Enforcement) then
        Some ("invalid ruleset " ++ ruleset.(RuleSetName)
              ++ " enforcement: it must be 'disable','active' or 'evaluate'")
      else
        match rulesetname !! ruleset.(RuleSetName) with
        | Some _ =>
            Some ("invalid ruleset: each ruleset must have a uniq name, found 2 times "
                  ++ ruleset.(RuleSetName))
        | None => Validate_rulesets rest (<[ruleset.(RuleSetName) := true]> rulesetname)
        end
  end.

(** [func (r *Repository) Validate(filename, teams, externalUsers) error] *)
Definition Validate (r : Repository) (filename : string) : option error :=
  let e := r.(Repository_Entity) in
  if negb (e.(ApiVersion) =? "v1") then
    Some ("invalid apiVersion: " ++ e.(ApiVersion)
          ++ " (check repository filename " ++ filename ++ ")")
  else if negb (e.(Kind) =? "Repository") then
    Some ("invalid kind: " ++ e.(Kind) ++ " (check repository filename " ++ filename ++ ")")
  else if e.(Name) =? "" then
    Some ("name is empty (check repository filename " ++ filename ++ ")")
  else
    let filename := filepath.Base filename in
    if negb (e.(Name) =? trimExt filename) then
      Some ("invalid name: " ++ e.(Name) ++ " for repository filename " ++ filename)
    else
      match List.find (missing teams) r.(Repository_Spec).(Writers) with
      | Some writer =>
          Some ("invalid writer: " ++ writer
                ++ " doesn't exist (check repository filename " ++ filename ++ ")")
      | None =>
      match List.find (missing teams) r.(Repository_Spec).(Readers) with
      | Some reader =>
          Some ("invalid reader: " ++ reader
                ++ " doesn't exist (check repository filename " ++ filename ++ ")")
      | None =>
      match List.find (missing externalUsers) r.(Repository_Spec).(ExternalUserReaders) with
      | Some externalUserReader =>
          Some ("invalid externalUserReader: " ++ externalUserReader
                ++ " doesn't exist in repository filename " ++ filename)
      | None =>
      match List.find (missing externalUsers) r.(Repository_Spec).(ExternalUserWriters) with
      | Some externalUserWriter =>
          Some ("invalid externalUserWriter: " ++ externalUserWriter
                ++ " doesn't exist in repository filename " ++ filename)
      | None =>
      match Validate_rulesets r.(Repository_Spec).(Rulesets) ∅ with
      | Some err => Some err
      | None =>
          if negb (GithubAnsiString e.(Name) =? e.(Name)) then
            Some ("invalid name: " ++ e.(Name) ++ " will be changed to "
                  ++ GithubAnsiString e.(Name)
                  ++ " (check repository filename " ++ filename ++ ")")
          else None
      end end end end end.

(** The message of a repository found a second time. *)
Definition defined_twice (name here existing : string) : error :=
  "Repository " ++ name ++ " defined in 2 places (check " ++ here
  ++ " and " ++ existing ++ ")".

(** One iteration of the loop of [recursiveReadRepositories] in the directory
    [teamDirPath], on the entry [sube]. For a directory that is not hidden the
    iteration calls [recursiveReadRepositories] on the directory's path with
    the directory's own name as [teamName]: the call lists the directory and
    runs the loop on its entries, with error and warning lists of its own
    that the caller appends to its lists. *)
Fixpoint recursiveReadRepositories_entry (archivedDirPath teamDirPath teamName : string)
  (sube : Entry RepositoryDocument) (st : ReposState) {struct sube} : Exec ReposState :=
  let '(repos, errors, warnings) := st in
  match sube with
  | Directory name listing =>
      c ← byte0 name;
      if negb (Ascii.eqb c "."%char) then
        '(repos, suberrs, subwarns) ←
          match listing with
          | Err err => Ret (repos, append [] err, [])
          | Ok subentries =>
              range (recursiveReadRepositories_entry archivedDirPath
                       (filepath.Join teamDirPath name) name)
                    subentries (repos, [], [])
          end;
        Ret (repos, (errors ++ suberrs)%list, (warnings ++ subwarns)%list)
      else Ret (repos, errors, warnings)
  | File name file =>
      if (filepath.Ext name =? ".yaml") && negb (name =? "team.yaml") then
        match NewRepository file (filepath.Join teamDirPath name) with
        | Err err => Ret (repos, append errors err, warnings)
        | Ok repo =>
            match Validate repo (filepath.Join teamDirPath name) with
            | Some err => Ret (repos, append errors err, warnings)
            | None =>
                (* check if the repository doesn't already exists *)
                match repos !! RepoName repo with
                | Some found =>
                    let existing :=
                      match found.(Owner) with
                      | Some owner => filepath.Join owner (RepoName repo)
                      | None => filepath.Join archivedDirPath (RepoName repo)
                      end in
                    Ret (repos,
                         append errors
                           (defined_twice (RepoName repo)
                              (filepath.Join teamDirPath name) existing),
                         warnings)
                | None =>
                    let repo := set_Owner repo (Some teamName) in
                    let repo := set_Archived repo false in
                    Ret (<[RepoName repo := repo]> repos, errors, warnings)
                end
            end
        end
      else Ret (repos, errors, warnings)
  end.

(** [recursiveReadRepositories]: [listing] is what [fs.ReadDir(teamDirPath)]
    returns; the map [repos] is shared with the caller and returned updated. *)
Definition recursiveReadRepositories (archivedDirPath teamDirPath teamName : string)
  (listing : result (list (Entry RepositoryDocument)))
  (repos : gmap string Repository) : Exec ReposState :=
  match listing with
  | Err err => Ret (repos, append [] err, [])
  | Ok subentries =>
      range (recursiveReadRepositories_entry archivedDirPath teamDirPath teamName)
            subentries (repos, [], [])
  end.

(** One iteration of the loop over the archive directory. *)
Definition ReadRepositories_archived (archivedDirname : string)
  (entry : Entry RepositoryDocument) (st : ReposState) : Exec ReposState :=
  let '(repos, errors, warning) := st in
  match entry with
  | Directory _ _ => Ret (repos, errors, warning)
  | File name file =>
      c ← byte0 name;
      (* skipping files starting with '.' *)
      if Ascii.eqb c "."%char then Ret (repos, errors, warning)
      else if negb (strings.HasSuffix name ".yaml") then
        Ret (repos, errors,
             append warning ("file " ++ name ++ " doesn't have a .yaml extension"))
      else
        match NewRepository file (filepath.Join archivedDirname name) with
        | Err err => Ret (repos, append errors err, warning)
        | Ok repo =>
            match Validate repo (filepath.Join archivedDirname name) with
            | Some err => Ret (repos, append errors err, warning)
            | None =>
                let repo := set_Archived repo true in
                Ret (<[RepoName repo := repo]> repos, errors, warning)
            end
        end
  end.

(** One iteration of the loop over the entries of the teams directory. *)
Definition ReadRepositories_team (archivedDirname teamDirname : string)
  (team : Entry RepositoryDocument) (st : ReposState) : Exec ReposState :=
  let '(repos, errors, warning) := st in
  match team with
  | Directory name listing =>
      '(repos, suberrs, subwarns) ←
        recursiveReadRepositories archivedDirname
          (filepath.Join teamDirname name) name listing repos;
      Ret (repos, (errors ++ suberrs)%list, (warning ++ subwarns)%list)
  | File _ _ => Ret (repos, errors, warning)
  end.

(** The archive phase of [ReadRepositories]; [inl] is an early return of the
    function, [inr] the state the second phase starts from. *)
Definition ReadRepositories_phase1 (fs : Filesystem RepositoryDocument)
  (archivedDirname : string)
  : Exec ((option (gmap string Repository) * list error * list Warning) + ReposState) :=
  let errors : list error := [] in
  let warning : list Warning := [] in
  let repos : gmap string Repository := ∅ in
  match utils.Exists fs archivedDirname with
  | (_, Some err) => Ret (inl (Some repos, append errors err, warning))
  | (false, None) => Ret (inr (repos, errors, warning))
  | (true, None) =>
      match ReadDir fs archivedDirname with
      | Err err => Ret (inl (None, append errors err, warning))
      | Ok entries =>
          st ← range (ReadRepositories_archived archivedDirname) entries
                 (repos, errors, warning);
          Ret (inr st)
      end
  end.

(** [ReadRepositories]; the returned map is [None] where the code returns
    [nil]. *)
Definition ReadRepositories (fs : Filesystem RepositoryDocument)
  (archivedDirname teamDirname : string)
  : Exec (option (gmap string Repository) * list error * list Warning) :=
  (* archived dir *)
  p1 ← ReadRepositories_phase1 fs archivedDirname;
  match p1 with
  | inl early => Ret early
  | inr (repos, errors, warning) =>
      (* regular teams dir *)
      match utils.Exists fs teamDirname with
      | (_, Some err) => Ret (Some repos, append errors err, warning)
      | (false, None) => Ret (Some repos, errors, warning)
      | (true, None) =>
          (* Parse all the repositories in the teamDirname directory *)
          match ReadDir fs teamDirname with
          | Err err => Ret (None, append errors err, warning)
          | Ok entries =>
              '(repos, errors, warning) ←
                range (ReadRepositories_team archivedDirname teamDirname) entries
                      (repos, errors, warning);
              Ret (Some repos, errors, warning)
          end
      end
  end.

End Repositories.

(** * Properties *)

(** ** Parameter comparison *)

(** Equality as unordered sets, in the words of the specification. *)
Definition same_set (l r : list string) : Prop := forall x, In x l <-> In x r.

Definition set_RequiredStatusChecks (p : RuleSetParameters) (checks : list string)
  : RuleSetParameters :=
  {| DismissStaleReviewsOnPush := p.(DismissStaleReviewsOnPush);
     RequireCodeOwnerReview := p.(RequireCodeOwnerReview);
     RequiredApprovingReviewCount := p.(RequiredApprovingReviewCount);
     RequiredReviewThreadResolution := p.(RequiredReviewThreadResolution);
     RequireLastPushApproval := p.(RequireLastPushApproval);
     RequiredStatusChecks := checks;
     StrictRequiredStatusChecksPolicy := p.(StrictRequiredStatusChecksPolicy) |}.

Definition set_StrictRequiredStatusChecksPolicy (p : RuleSetParameters) (b : bool)
  : RuleSetParameters :=
  {| DismissStaleReviewsOnPush := p.(DismissStaleReviewsOnPush);
     RequireCodeOwnerReview := p.(RequireCodeOwnerReview);
     RequiredApprovingReviewCount := p.(RequiredApprovingReviewCount);
     RequiredReviewThreadResolution := p.(RequiredReviewThreadResolution);
     RequireLastPushApproval := p.(RequireLastPushApproval);
     RequiredStatusChecks := p.(RequiredStatusChecks);
     StrictRequiredStatusChecksPolicy := b |}.

(** The five pull-request review fields of a parameters value. *)
Definition pull_request_fields (p : RuleSetParameters) : bool * bool * Z * bool * bool :=
  (p.(DismissStaleReviewsOnPush), p.(RequireCodeOwnerReview),
   p.(RequiredApprovingReviewCount), p.(RequiredReviewThreadResolution),
   p.(RequireLastPushApproval)).

(** [changed_one p q]: [q] is [p] with exactly one of the five pull-request
    review fields changed to another value. *)
Inductive changed_one (p : RuleSetParameters) : RuleSetParameters -> Prop :=
| changed_DismissStaleReviewsOnPush q :
    q.(DismissStaleReviewsOnPush) <> p.(DismissStaleReviewsOnPush) ->
    q.(RequireCodeOwnerReview) = p.(RequireCodeOwnerReview) ->
    q.(RequiredApprovingReviewCount) = p.(RequiredApprovingReviewCount) ->
    q.(RequiredReviewThreadResolution) = p.(RequiredReviewThreadResolution) ->
    q.(RequireLastPushApproval) = p.(RequireLastPushApproval) ->
    changed_one p q
| changed_RequireCodeOwnerReview q :
    q.(DismissStaleReviewsOnPush) = p.(DismissStaleReviewsOnPush) ->
    q.(RequireCodeOwnerReview) <> p.(RequireCodeOwnerReview) ->
    q.(RequiredApprovingReviewCount) = p.(RequiredApprovingReviewCount) ->
    q.(RequiredReviewThreadResolution) = p.(RequiredReviewThreadResolution) ->
    q.(RequireLastPushApproval) = p.(RequireLastPushApproval) ->
    changed_one p q
| changed_RequiredApprovingReviewCount q :
    q.(DismissStaleReviewsOnPush) = p.(DismissStaleReviewsOnPush) ->
    q.(RequireCodeOwnerReview) = p.(RequireCodeOwnerReview) ->
    q.(RequiredApprovingReviewCount) <> p.(RequiredApprovingReviewCount) ->
    q.(RequiredReviewThreadResolution) = p.(RequiredReviewThreadResolution) ->
    q.(RequireLastPushApproval) = p.(RequireLastPushApproval) ->
    changed_one p q
| changed_RequiredReviewThreadResolution q :
    q.(DismissStaleReviewsOnPush) = p.(DismissStaleReviewsOnPush) ->
    q.(RequireCodeOwnerReview) = p.(RequireCodeOwnerReview) ->
    q.(RequiredApprovingReviewCount) = p.(RequiredApprovingReviewCount) ->
    q.(RequiredReviewThreadResolution) <> p.(RequiredReviewThreadResolution) ->
    q.(RequireLastPushApproval) = p.(RequireLastPushApproval) ->
    changed_one p q
| changed_RequireLastPushApproval q :
    q.(DismissStaleReviewsOnPush) = p.(DismissStaleReviewsOnPush) ->
    q.(RequireCodeOwnerReview) = p.(RequireCodeOwnerReview) ->
    q.(RequiredApprovingReviewCount) = p.(RequiredApprovingReviewCount) ->
    q.(RequiredReviewThreadResolution) = p.(RequiredReviewThreadResolution) ->
    q.(RequireLastPushApproval) <> p.(RequireLastPushApproval) ->
    changed_one p q.

Lemma mem_In (s : string) (l : list string) : mem s l = true <-> In s l.
Proof.
  unfold mem. rewrite existsb_exists. split.
  - intros (x & Hx & Heq). apply String.eqb_eq in Heq. now subst.
  - intros H. exists s. split; [exact H | apply String.eqb_refl].
Qed.

Lemma filter_missing_nil (a b : list string) :
  List.filter (fun s => negb (mem s b)) a = [] <-> (forall x, In x a -> In x b).
Proof.
  induction a as [|y a IH]; simpl.
  - split; [intros _ x [] | reflexivity].
  - destruct (mem y b) eqn:Hy; simpl.
    + rewrite IH. apply mem_In in Hy. split.
      * intros H x [<- | Hx]; [exact Hy | now apply H].
      * intros H x Hx. apply H. now right.
    + split; [discriminate |].
      intros H. assert (Hin : In y b) by (apply H; now left).
      apply mem_In in Hin. congruence.
Qed.

Lemma StringArrayEquivalent_same_set (a1 a2 : list string) :
  (StringArrayEquivalent a1 a2).1.1 = true <-> same_set a1 a2.
Proof.
  unfold StringArrayEquivalent, same_set. simpl.
  pose proof (filter_missing_nil a1 a2) as H12.
  pose proof (filter_missing_nil a2 a1) as H21.
  destruct (List.filter _ a1) as [|u us]; destruct (List.filter _ a2) as [|v vs].
  - split; [intros _ x | reflexivity].
    split; [apply H12 | apply H21]; reflexivity.
  - split; [discriminate |]. intros H.
    assert (Hnil : v :: vs = []) by (apply H21; intros x; apply H). discriminate.
  - split; [discriminate |]. intros H.
    assert (Hnil : u :: us = []) by (apply H12; intros x; apply H). discriminate.
  - split; [discriminate |]. intros H.
    assert (Hnil : u :: us = []) by (apply H12; intros x; apply H). discriminate.
Qed.

Lemma Compare_required_status_checks (left right : RuleSetParameters) :
  CompareRulesetParameters "required_status_checks" left right
  = (StringArrayEquivalent left.(RequiredStatusChecks) right.(RequiredStatusChecks)).1.1
    && Bool.eqb left.(StrictRequiredStatusChecksPolicy)
                right.(StrictRequiredStatusChecksPolicy).
Proof.
  unfold CompareRulesetParameters.
  remember (StringArrayEquivalent _ _) as r eqn:Hr. clear Hr.
  destruct r as [[res d1] d2]. simpl.
  destruct res; simpl; [| reflexivity].
  now destruct (Bool.eqb _ _).
Qed.

Lemma Compare_pull_request (left right : RuleSetParameters) :
  CompareRulesetParameters "pull_request" left right = true
  <-> pull_request_fields left = pull_request_fields right.
Proof.
  unfold CompareRulesetParameters, pull_request_fields. simpl.
  destruct left as [a1 b1 n1 c1 d1 l1 s1], right as [a2 b2 n2 c2 d2 l2 s2]. simpl.
  destruct (Bool.eqb a1 a2) eqn:Ha; simpl;
    [apply Bool.eqb_prop in Ha | split; [discriminate | intros [= -> _ _ _ _];
      now rewrite Bool.eqb_reflx in Ha]].
  destruct (Bool.eqb b1 b2) eqn:Hb; simpl;
    [apply Bool.eqb_prop in Hb | split; [discriminate | intros [= _ -> _ _ _];
      now rewrite Bool.eqb_reflx in Hb]].
  destruct (Z.eqb n1 n2) eqn:Hn; simpl;
    [apply Z.eqb_eq in Hn | split; [discriminate | intros [= _ _ -> _ _];
      now rewrite Z.eqb_refl in Hn]].
  destruct (Bool.eqb c1 c2) eqn:Hc; simpl;
    [apply Bool.eqb_prop in Hc | split; [discriminate | intros [= _ _ _ -> _];
      now rewrite Bool.eqb_reflx in Hc]].
  destruct (Bool.eqb d1 d2) eqn:Hd; simpl;
    [apply Bool.eqb_prop in Hd | split; [discriminate | intros [= _ _ _ _ ->];
      now rewrite Bool.eqb_reflx in Hd]].
  subst. split; reflexivity.
Qed.

(** C3. With rule type [required_status_checks] the comparison is true exactly
    when the two lists of check names are equal as unordered sets and the
    strict-policy flags are equal; the checks a, b and b, a compare equivalent
    under equal flags, and flipping the strict-policy flag alone gives false. *)
Theorem required_status_checks_as_sets :
  (forall left right : RuleSetParameters,
      CompareRulesetParameters "required_status_checks" left right = true
      <-> same_set left.(RequiredStatusChecks) right.(RequiredStatusChecks)
          /\ left.(StrictRequiredStatusChecksPolicy)
             = right.(StrictRequiredStatusChecksPolicy))
  /\ (forall p : RuleSetParameters,
        CompareRulesetParameters "required_status_checks"
          (set_RequiredStatusChecks p ["a"; "b"])
          (set_RequiredStatusChecks p ["b"; "a"]) = true)
  /\ (forall p : RuleSetParameters,
        CompareRulesetParameters "required_status_checks" p
          (set_StrictRequiredStatusChecksPolicy p
             (negb p.(StrictRequiredStatusChecksPolicy))) = false).
Proof.
  split; [| split].
  - intros left right. rewrite Compare_required_status_checks, andb_true_iff.
    rewrite StringArrayEquivalent_same_set.
    split; intros [Hs Hb]; split; try exact Hs.
    + now apply Bool.eqb_prop.
    + rewrite Hb. apply Bool.eqb_reflx.
  - intros p. rewrite Compare_required_status_checks. simpl.
    apply Bool.eqb_reflx.
  - intros p. rewrite Compare_required_status_checks. simpl.
    destruct (StrictRequiredStatusChecksPolicy p); simpl; apply andb_false_r.
Qed.

(** C4. With rule type [pull_request] the comparison of a parameters value
    with itself is true, and changing exactly one of the five pull-request
    review fields gives a pair that compares false. *)
Theorem pull_request_reflexive_and_sensitive :
  (forall p : RuleSetParameters, CompareRulesetParameters "pull_request" p p = true)
  /\ (forall p q : RuleSetParameters,
        changed_one p q -> CompareRulesetParameters "pull_request" p q = false).
Proof.
  split.
  - intros p. now apply Compare_pull_request.
  - intros p q H. apply not_true_is_false. rewrite Compare_pull_request.
    unfold pull_request_fields. intros [= H1 H2 H3 H4 H5].
    destruct H; congruence.
Qed.

(** C8. Whatever the two parameters values, the comparison is false for a rule
    type other than the three known ones. *)
Theorem unknown_ruletype_not_equivalent (ruletype : string)
  (left right : RuleSetParameters) :
  ruletype <> "required_signatures" ->
  ruletype <> "pull_request" ->
  ruletype <> "required_status_checks" ->
  CompareRulesetParameters ruletype left right = false.
Proof.
  intros H1 H2 H3. unfold CompareRulesetParameters.
  apply String.eqb_neq in H1, H2, H3. now rewrite H1, H2, H3.
Qed.

(** ** Ruleset validation *)

(** A ruleset that every check before the enforcement check accepts. *)
Definition ruleset_with_enforcement (enforcement : string) : RuleSet :=
  {| RuleSet_Entity := {| ApiVersion := "v1"; Kind := "Ruleset"; Name := "default" |};
     Spec := {| Enforcement := enforcement;
                BypassApps := [];
                On := {| Include := ["~DEFAULT_BRANCH"]; Exclude := [] |};
                Rules := [] |} |}.

(** The checks of [Validate] that come before the loop over the include
    entries, stated on the fields. *)
Definition passes_checks_before_include (r : RuleSet) (filename : string) : Prop :=
  r.(RuleSet_Entity).(ApiVersion) = "v1"
  /\ r.(RuleSet_Entity).(Kind) = "Ruleset"
  /\ r.(RuleSet_Entity).(Name) <> ""
  /\ r.(RuleSet_Entity).(Name) = trimExt (filepath.Base filename)
  /\ Forall (fun rule => rule.(Ruletype) = "required_signatures"
                         \/ rule.(Ruletype) = "pull_request"
                         \/ rule.(Ruletype) = "required_status_checks")
            r.(Spec).(Rules)
  /\ (r.(Spec).(Enforcement) = "disable" \/ r.(Spec).(Enforcement) = "active"
      \/ r.(Spec).(Enforcement) = "evaluate")
  /\ Forall (fun ba => ba.(Mode) = "always" \/ ba.(Mode) = "pull_request")
            r.(Spec).(BypassApps).

(** An include entry the sentinel check lets through: not empty, and one of
    the two sentinels when it starts with the marker. *)
Definition include_accepted (on : string) : Prop :=
  match on with
  | EmptyString => False
  | String c _ =>
      c = RuleSetValidate.tilde -> on = "~DEFAULT_BRANCH" \/ on = "~ALL"
  end.

Lemma find_none_Forall {A : Type} (bad : A -> bool) (P : A -> Prop) (l : list A) :
  (forall x, P x -> bad x = false) -> Forall P l -> List.find bad l = None.
Proof.
  intros HP H. induction H as [|x l Hx _ IH]; simpl; [reflexivity |].
  now rewrite (HP x Hx).
Qed.

Lemma eqb_neq_false (a b : string) : a <> b -> negb (a =? b) = true.
Proof. intros H. apply String.eqb_neq in H. now rewrite H. Qed.

Lemma known_ruletype (rule : Rule) :
  rule.(Ruletype) = "required_signatures" \/ rule.(Ruletype) = "pull_request"
  \/ rule.(Ruletype) = "required_status_checks" ->
  RuleSetValidate.bad_ruletype rule = false.
Proof.
  unfold RuleSetValidate.bad_ruletype. intros [-> | [-> | ->]]; reflexivity.
Qed.

Lemma known_mode (ba : BypassApp) :
  ba.(Mode) = "always" \/ ba.(Mode) = "pull_request" ->
  RuleSetValidate.bad_mode ba = false.
Proof. unfold RuleSetValidate.bad_mode. intros [-> | ->]; reflexivity. Qed.

Lemma Validate_reaches_include (r : RuleSet) (filename : string) :
  passes_checks_before_include r filename ->
  RuleSetValidate.Validate r filename
  = RuleSetValidate.check_include (filepath.Base filename) r.(Spec).(On).(Include).
Proof.
  intros (Hv & Hk & Hn & Hf & Hr & He & Hb).
  unfold RuleSetValidate.Validate.
  rewrite Hv, Hk. simpl negb. cbv iota.
  apply String.eqb_neq in Hn. rewrite Hn.
  rewrite <- Hf, String.eqb_refl. simpl negb. cbv iota.
  rewrite (find_none_Forall RuleSetValidate.bad_ruletype _ _ known_ruletype Hr).
  replace (RuleSetValidate.bad_enforcement _) with false
    by (destruct He as [-> | [-> | ->]]; reflexivity).
  now rewrite (find_none_Forall RuleSetValidate.bad_mode _ _ known_mode Hb).
Qed.

Lemma check_include_returns (filename : string) (include : list string) :
  Forall (fun on => on <> "") include ->
  returns (RuleSetValidate.check_include filename include).
Proof.
  intros H. induction H as [|on rest Hon _ IH]; simpl.
  - now exists None.
  - destruct on as [|c on']; [congruence |]. simpl.
    destruct (_ && _); [eexists; reflexivity | exact IH].
Qed.

Lemma check_include_panics (filename : string) (before after : list string) :
  Forall include_accepted before ->
  exists msg,
    RuleSetValidate.check_include filename (before ++ "" :: after)%list = Panic msg.
Proof.
  intros H. induction H as [|on rest Hon _ IH]; simpl.
  - eexists; reflexivity.
  - destruct on as [|c on']; [destruct Hon |].
    cbn [app RuleSetValidate.check_include byte0 mbind Exec_bind].
    destruct (Ascii.eqb c RuleSetValidate.tilde) eqn:Hc; [| exact IH].
    apply Ascii.eqb_eq in Hc. destruct (Hon Hc) as [Heq | Heq]; rewrite Heq; exact IH.
Qed.

Lemma Validate_returns (r : RuleSet) (filename : string) :
  Forall (fun on => on <> "") r.(Spec).(On).(Include) ->
  returns (RuleSetValidate.Validate r filename).
Proof.
  intros H. unfold RuleSetValidate.Validate.
  repeat match goal with
         | |- returns (Ret _) => eexists; reflexivity
         | |- returns (if ?b then _ else _) => destruct b
         | |- returns (match ?o with Some _ => _ | None => _ end) => destruct o
         end.
  now apply check_include_returns.
Qed.

(** C6. The enforcement check of [Validate] accepts [disable], [active] and
    [evaluate]; the value [disabled] of the field's documentation is refused,
    with the message naming the value and the file. *)
Theorem enforcement_disabled_is_refused :
  RuleSetValidate.Validate (ruleset_with_enforcement "disabled") "rulesets/default.yaml"
  = Ret (Some "invalid enforcement: disabled for ruleset filename default.yaml")
  /\ RuleSetValidate.Validate (ruleset_with_enforcement "disable") "rulesets/default.yaml"
     = Ret None
  /\ RuleSetValidate.Validate (ruleset_with_enforcement "active") "rulesets/default.yaml"
     = Ret None
  /\ RuleSetValidate.Validate (ruleset_with_enforcement "evaluate") "rulesets/default.yaml"
     = Ret None.
Proof. repeat split; vm_compute; reflexivity. Qed.

(** C9. [Validate] returns whenever no include entry is empty. Without that
    precondition it need not: on a ruleset that passes every earlier check and
    whose include list holds the empty string after entries the sentinel check
    accepts, reading the first byte of the empty entry panics. *)
Theorem Validate_total_only_on_nonempty_includes :
  (forall (r : RuleSet) (filename : string),
      Forall (fun on => on <> "") r.(Spec).(On).(Include) ->
      returns (RuleSetValidate.Validate r filename))
  /\ (forall (r : RuleSet) (filename : string) (before after : list string),
        passes_checks_before_include r filename ->
        r.(Spec).(On).(Include) = (before ++ "" :: after)%list ->
        Forall include_accepted before ->
        exists msg, RuleSetValidate.Validate r filename = Panic msg).
Proof.
  split.
  - exact Validate_returns.
  - intros r filename before after Hp Hi Hb.
    rewrite (Validate_reaches_include _ _ Hp), Hi.
    now apply check_include_panics.
Qed.

(** ** The ruleset directory reader *)

Lemma range_all_skipped {A S : Type} (body : A -> S -> Exec S) (l : list A) (s : S) :
  Forall (fun x => body x s = Ret s) l -> range body l s = Ret s.
Proof.
  intros H. induction H as [|x l Hx _ IH]; simpl; [reflexivity |].
  rewrite Hx. exact IH.
Qed.

(** C7. [ReadRuleSetDirectory] returns an empty map, no error and no warning
    when the directory does not exist, and when it exists and its listing
    holds no file. *)
Theorem ReadRuleSetDirectory_nothing_to_read :
  (forall (fs : Filesystem RuleSet) (dirname : string),
      fs dirname = NotExist ->
      ReadRuleSetDirectory fs dirname = Ret (∅, [], []))
  /\ (forall (fs : Filesystem RuleSet) (dirname : string)
             (entries : list (Entry RuleSet)),
        fs dirname = Present (Ok entries) ->
        Forall (fun e => IsDir e = true) entries ->
        ReadRuleSetDirectory fs dirname = Ret (∅, [], [])).
Proof.
  split.
  - intros fs dirname H. unfold ReadRuleSetDirectory, utils.Exists. now rewrite H.
  - intros fs dirname entries H Hd.
    unfold ReadRuleSetDirectory, utils.Exists, ReadDir. rewrite H.
    rewrite range_all_skipped; [reflexivity |].
    eapply Forall_impl; [exact Hd |].
    intros [name file | name listing]; simpl; [discriminate | reflexivity].
Qed.

(** ** Facts about paths *)

Example Ext_yaml : filepath.Ext "teams/a/repo.v2.yaml" = ".yaml".
Proof. reflexivity. Qed.
Example Ext_dotfile : filepath.Ext ".hidden.yaml" = ".yaml".
Proof. reflexivity. Qed.
Example Ext_none : filepath.Ext "a.b/file" = "".
Proof. reflexivity. Qed.
Example Join_plain : filepath.Join "teams" "core" = "teams/core".
Proof. reflexivity. Qed.
Example Join_cleans : filepath.Join "teams//a/../b/" "./x.yaml" = "teams/b/x.yaml".
Proof. reflexivity. Qed.
Example Join_empty_left : filepath.Join "" "x" = "x".
Proof. reflexivity. Qed.
Example Clean_dotdot : filepath.Clean "../../a/../.." = "../../..".
Proof. reflexivity. Qed.
Example Clean_rooted : filepath.Clean "/../a//b/./" = "/a/b".
Proof. reflexivity. Qed.
Example Base_file : filepath.Base "teams/core/repo.yaml" = "repo.yaml".
Proof. reflexivity. Qed.
Example Dir_file : filepath.Dir "teams/core/repo.yaml" = "teams/core".
Proof. reflexivity. Qed.
Example Dir_bare : filepath.Dir "repo.yaml" = ".".
Proof. reflexivity. Qed.
Example trimExt_file : trimExt "repo.yaml" = "repo".
Proof. reflexivity. Qed.

Lemma string_of_list_ascii_app (a b : list ascii) :
  string_of_list_ascii (a ++ b)%list = string_of_list_ascii a ++ string_of_list_ascii b.
Proof. induction a as [|c a IH]; simpl; [reflexivity | now rewrite IH]. Qed.

Lemma list_ascii_of_string_app (a b : string) :
  list_ascii_of_string (a ++ b) = (list_ascii_of_string a ++ list_ascii_of_string b)%list.
Proof. induction a as [|c a IH]; simpl; [reflexivity | now rewrite IH]. Qed.

Lemma length_append (a b : string) :
  String.length (a ++ b) = String.length a + String.length b.
Proof. induction a as [|c a IH]; simpl; [reflexivity | now rewrite IH]. Qed.

Lemma substring_prefix (a b : string) :
  substring 0 (String.length (a ++ b) - String.length b) (a ++ b) = a.
Proof.
  rewrite length_append.
  replace (String.length a + String.length b - String.length b) with (String.length a) by lia.
  induction a as [|c a IH]; simpl; [now destruct b | now rewrite IH].
Qed.

Lemma ext_scan_suffix (rpath seen : list ascii) :
  exists stem, (rev rpath ++ seen)%list = (stem ++ filepath.ext_scan rpath seen)%list.
Proof.
  revert seen. induction rpath as [|c more IH]; intros seen; simpl.
  - exists seen. now rewrite app_nil_r.
  - rewrite <- app_assoc. simpl.
    destruct (filepath.is_sep c).
    + eexists. now rewrite app_nil_r.
    + destruct (filepath.is_dot c); [now exists (rev more) | apply IH].
Qed.

(** A file name is its stem followed by its extension. *)
Lemma trimExt_Ext (filename : string) :
  trimExt filename ++ filepath.Ext filename = filename.
Proof.
  unfold trimExt, filepath.Ext.
  destruct (ext_scan_suffix (rev (list_ascii_of_string filename)) []) as [stem Hstem].
  rewrite rev_involutive, app_nil_r in Hstem.
  apply (f_equal string_of_list_ascii) in Hstem.
  rewrite string_of_list_ascii_of_string, string_of_list_ascii_app in Hstem.
  remember (string_of_list_ascii (filepath.ext_scan _ _)) as ext eqn:Hext. clear Hext.
  subst filename. now rewrite substring_prefix.
Qed.

(** A plain name: one path element that is neither empty nor [.] nor [..]. *)
Definition plain_name (name : string) : Prop :=
  name <> "" /\ name <> "." /\ name <> ".."
  /\ Forall (fun c => filepath.is_sep c = false) (list_ascii_of_string name).

Lemma elements_nonempty (l : list ascii) : filepath.elements l <> [].
Proof.
  destruct l as [|c l]; simpl; [discriminate |].
  destruct (filepath.is_sep c); [discriminate |].
  destruct (filepath.elements l); discriminate.
Qed.

Lemma elements_app_sep (a b : list ascii) :
  filepath.elements (a ++ filepath.Separator :: b)%list
  = (filepath.elements a ++ filepath.elements b)%list.
Proof.
  induction a as [|c a IH]; simpl.
  - reflexivity.
  - destruct (filepath.is_sep c); [now rewrite IH |].
    rewrite IH. pose proof (elements_nonempty a).
    destruct (filepath.elements a); [congruence | reflexivity].
Qed.

Lemma elements_plain (l : list ascii) :
  Forall (fun c => filepath.is_sep c = false) l -> filepath.elements l = [l].
Proof.
  intros H. induction H as [|c l Hc _ IH]; simpl; [reflexivity |].
  now rewrite Hc, IH.
Qed.

Lemma join_elements_last (es : list (list ascii)) (e : list ascii) :
  exists before,
    rev (filepath.join_elements (es ++ [e])%list) = (rev e ++ before)%list
    /\ (before = [] \/ exists b, before = filepath.Separator :: b).
Proof.
  induction es as [|x es IH].
  - exists []. split; [simpl; now rewrite app_nil_r | now left].
  - destruct IH as (before & Heq & Hb).
    exists (before ++ filepath.Separator :: rev x)%list. split.
    + change ((x :: es) ++ [e])%list with (x :: (es ++ [e]))%list.
      destruct (es ++ [e])%list as [|y l] eqn:Hnil; [now destruct es |].
      change (filepath.join_elements (x :: y :: l))
        with (x ++ filepath.Separator :: filepath.join_elements (y :: l))%list.
      rewrite rev_app_distr. cbn [rev]. rewrite Heq. now rewrite <- !app_assoc.
    + right. destruct Hb as [-> | (b & ->)]; simpl; eauto.
Qed.

Definition plain_element (e : list ascii) : Prop :=
  e <> [] /\ e <> filepath.dot /\ e <> filepath.dotdot
  /\ Forall (fun c => filepath.is_sep c = false) e.

Lemma clean_step_plain rooted out e :
  plain_element e -> filepath.clean_step rooted out e = e :: out.
Proof.
  intros (H1 & H2 & H3 & _). unfold filepath.clean_step.
  destruct (decide (e = [] \/ e = filepath.dot)) as [[|]|]; try congruence.
  destruct (decide (e = filepath.dotdot)); congruence.
Qed.

Lemma clean_list_last (path : list ascii) (es : list (list ascii)) (e : list ascii) :
  filepath.elements path = (es ++ [e])%list -> plain_element e ->
  exists before,
    rev (filepath.clean_list path) = (rev e ++ before)%list
    /\ (before = [] \/ exists b, before = filepath.Separator :: b).
Proof.
  intros He Hp. unfold filepath.clean_list. rewrite He, fold_left_app. cbn [fold_left].
  rewrite (clean_step_plain _ _ _ Hp). cbn [rev].
  destruct (join_elements_last
              (rev (fold_left (filepath.clean_step
                                 match path with [] => false | c :: _ => filepath.is_sep c end)
                              es [])) e) as (before & Heq & Hb).
  destruct (match path with [] => false | c :: _ => filepath.is_sep c end).
  - exists (before ++ [filepath.Separator])%list. split.
    + cbn [rev]. rewrite Heq. now rewrite <- app_assoc.
    + right. destruct Hb as [-> | (b & ->)]; simpl; eauto.
  - exists before. split; [| exact Hb].
    destruct (filepath.join_elements _) eqn:Hj; [| exact Heq].
    destruct Hp as (Hne & _). simpl in Heq. symmetry in Heq.
    apply app_eq_nil in Heq as [Hr _].
    apply (f_equal (@rev ascii)) in Hr. rewrite rev_involutive in Hr. now simpl in Hr.
Qed.

Lemma rev_plain_head (e : list ascii) :
  plain_element e ->
  exists c rest, rev e = c :: rest
                 /\ Forall (fun c => filepath.is_sep c = false) (c :: rest).
Proof.
  intros (Hne & _ & _ & Hs).
  destruct (rev e) as [|c rest] eqn:Hr.
  - apply (f_equal (@rev ascii)) in Hr. rewrite rev_involutive in Hr. now simpl in Hr.
  - exists c, rest. split; [reflexivity |]. rewrite <- Hr. now apply Forall_rev.
Qed.

Lemma take_element_app (e before : list ascii) :
  Forall (fun c => filepath.is_sep c = false) e ->
  before = [] \/ (exists b, before = filepath.Separator :: b) ->
  filepath.take_element (e ++ before)%list = e.
Proof.
  intros H Hb. induction H as [|c e Hc _ IH]; simpl.
  - destruct Hb as [-> | (b & ->)]; reflexivity.
  - now rewrite Hc, IH.
Qed.

Lemma Base_of_last (path e : list ascii) (before : list ascii) :
  plain_element e ->
  rev path = (rev e ++ before)%list ->
  before = [] \/ (exists b, before = filepath.Separator :: b) ->
  filepath.Base (string_of_list_ascii path) = string_of_list_ascii e.
Proof.
  intros Hp Hrev Hb. unfold filepath.Base.
  destruct (rev_plain_head e Hp) as (c & rest & Hr & Hs).
  destruct (decide (string_of_list_ascii path = "")) as [Hnil | _].
  { apply (f_equal list_ascii_of_string) in Hnil.
    rewrite list_ascii_of_string_of_list_ascii in Hnil. simpl in Hnil. subst path.
    rewrite Hr in Hrev. discriminate. }
  rewrite list_ascii_of_string_of_list_ascii, Hrev, Hr.
  assert (Hc : filepath.is_sep c = false) by now inversion Hs.
  cbn [app filepath.drop_seps]. rewrite Hc.
  change (c :: (rest ++ before))%list with ((c :: rest) ++ before)%list.
  rewrite (take_element_app _ _ Hs Hb), <- Hr, rev_involutive.
  destruct Hp as (Hne & _). now destruct e.
Qed.

Lemma plain_name_element (name : string) :
  plain_name name -> plain_element (list_ascii_of_string name).
Proof.
  intros (H1 & H2 & H3 & H4). repeat split; [| | | exact H4];
    intros H; apply (f_equal string_of_list_ascii) in H;
    rewrite string_of_list_ascii_of_string in H; simpl in H; congruence.
Qed.

Lemma Base_Clean_last (path es : list ascii) (name : string) :
  plain_name name ->
  filepath.elements path
  = (filepath.elements es ++ [list_ascii_of_string name])%list
    \/ filepath.elements path = [list_ascii_of_string name] ->
  filepath.Base (string_of_list_ascii (filepath.clean_list path)) = name.
Proof.
  intros Hp He. apply plain_name_element in Hp.
  assert (exists xs, filepath.elements path = (xs ++ [list_ascii_of_string name])%list)
    as (xs & Hxs) by (destruct He; [eauto | now exists []]).
  destruct (clean_list_last _ _ _ Hxs Hp) as (before & Hrev & Hb).
  rewrite (Base_of_last _ _ _ Hp Hrev Hb). apply string_of_list_ascii_of_string.
Qed.

(** The base name of a directory path joined with a plain name is the name. *)
Lemma Base_Join (dir name : string) :
  plain_name name -> filepath.Base (filepath.Join dir name) = name.
Proof.
  intros Hp. pose proof Hp as (Hne & _ & _ & Hs). unfold filepath.Join, filepath.Clean.
  destruct (decide (dir = "")) as [_ | _].
  - destruct (decide (name = "")); [congruence |].
    apply (Base_Clean_last _ []); [exact Hp |]. right. now apply elements_plain.
  - apply (Base_Clean_last _ (list_ascii_of_string dir)); [exact Hp |]. left.
    rewrite list_ascii_of_string_app.
    change (list_ascii_of_string ("/" ++ name))
      with (filepath.Separator :: list_ascii_of_string name).
    now rewrite elements_app_sep, (elements_plain _ Hs).
Qed.

Lemma Ext_yaml_plain (name : string) :
  filepath.Ext name = ".yaml" ->
  Forall (fun c => filepath.is_sep c = false) (list_ascii_of_string name) ->
  plain_name name.
Proof.
  intros He Hs. repeat split; [| | | exact Hs]; intros ->; discriminate.
Qed.

(** ** The repository reader *)

(** Induction on a directory entry: a directory's property may use the
    property of each entry of its listing. *)
Fixpoint Entry_induction {D : Type} (P : Entry D -> Prop)
  (Hfile : forall name content, P (File name content))
  (Hunlisted : forall name err, P (Directory name (Err err)))
  (Hlisted : forall name entries, Forall P entries -> P (Directory name (Ok entries)))
  (e : Entry D) {struct e} : P e :=
  match e with
  | File name content => Hfile name content
  | Directory name (Err err) => Hunlisted name err
  | Directory name (Ok entries) =>
      Hlisted name entries
        ((fix all (l : list (Entry D)) : Forall P l :=
            match l with
            | [] => @List.Forall_nil _ P
            | x :: l' =>
                @List.Forall_cons _ P x l'
                  (Entry_induction P Hfile Hunlisted Hlisted x) (all l')
            end) entries)
  end.

Definition hidden (name : string) : bool :=
  match name with
  | String c _ => Ascii.eqb c "."%char
  | EmptyString => false
  end.

(** [visits dirPath dirName sube p d fname doc]: the iteration of the walk on
    the entry [sube] of the directory of path [dirPath] and name [dirName]
    comes to the file [fname], holding the document [doc], in the directory of
    path [p] and name [d]. Hidden directories and directories that cannot be
    listed are not entered. *)
Inductive visits : string -> string -> Entry RepositoryDocument ->
                   string -> string -> string -> RepositoryDocument -> Prop :=
| visits_file dirPath dirName fname doc :
    visits dirPath dirName (File fname (Ok doc)) dirPath dirName fname doc
| visits_directory dirPath dirName name subentries sube p d fname doc :
    name <> "" ->
    hidden name = false ->
    In sube subentries ->
    visits (filepath.Join dirPath name) name sube p d fname doc ->
    visits dirPath dirName (Directory name (Ok subentries)) p d fname doc.

(** [in_team_tree teamDirname entries T p d fname doc]: the file [fname] with
    document [doc] sits in the directory of path [p] and name [d], somewhere
    under the top-level team directory [T] of the teams directory listed as
    [entries]. *)
Definition in_team_tree (teamDirname : string) (entries : list (Entry RepositoryDocument))
  (T p d fname : string) (doc : RepositoryDocument) : Prop :=
  exists tentries sube,
    In (Directory T (Ok tentries)) entries
    /\ In sube tentries
    /\ visits (filepath.Join teamDirname T) T sube p d fname doc.

(** The archive directory lists the file [fname] with document [doc], and the
    archive loop does not skip it. *)
Definition in_archive (entries : list (Entry RepositoryDocument))
  (fname : string) (doc : RepositoryDocument) : Prop :=
  In (File fname (Ok doc)) entries
  /\ fname <> "" /\ hidden fname = false
  /\ strings.HasSuffix fname ".yaml" = true.

(** The repository the walk inserts for the document [doc] of the file [fname]
    of the directory of path [p] and name [d]. *)
Definition loaded (doc : RepositoryDocument) (p fname d : string) : Repository :=
  set_Archived
    (set_Owner
       (set_DirectoryPath (Unmarshal doc) (filepath.Dir (filepath.Join p fname)))
       (Some d))
    false.

(** The repository the archive loop inserts. *)
Definition loaded_archived (doc : RepositoryDocument) (p fname : string) : Repository :=
  set_Archived
    (set_DirectoryPath (Unmarshal doc) (filepath.Dir (filepath.Join p fname)))
    true.

Definition doc_name (doc : RepositoryDocument) : string := doc.(doc_Entity).(Name).

Section RepositoryProperties.

Context {Team User : Type}.
Variable GithubAnsiString : string -> string.
Variable teams : gmap string Team.
Variable externalUsers : gmap string User.

(** The document [doc] of the file [fname] of the directory [p] passes
    [Validate], called as the readers call it. *)
Definition valid_document (p fname : string) (doc : RepositoryDocument) : Prop :=
  Validate GithubAnsiString teams externalUsers
    (set_DirectoryPath (Unmarshal doc) (filepath.Dir (filepath.Join p fname)))
    (filepath.Join p fname) = None.

(** A valid repository file of the teams tree. *)
Definition repository_file (p fname : string) (doc : RepositoryDocument) : Prop :=
  filepath.Ext fname = ".yaml" /\ fname <> "team.yaml" /\ valid_document p fname doc.

(** What a stretch of the walk does to the shared state, [V] telling which
    files the stretch comes to: the two lists only grow, the entries of the map
    stay, every new entry is the repository loaded from a valid file the
    stretch came to, every such file has its name in the map afterwards, and a
    file whose name was held by an entry without owner has its error. *)
Definition walk_spec (archivedDirPath : string)
  (V : string -> string -> string -> RepositoryDocument -> Prop)
  (st st' : ReposState) : Prop :=
  let '(repos, errors, warnings) := st in
  let '(repos', errors', warnings') := st' in
  exists new_errors new_warnings,
    errors' = (errors ++ new_errors)%list
    /\ warnings' = (warnings ++ new_warnings)%list
    /\ (forall k r, repos !! k = Some r -> repos' !! k = Some r)
    /\ (forall k r, repos' !! k = Some r ->
          repos !! k = Some r
          \/ exists p d fname doc,
               V p d fname doc /\ repository_file p fname doc
               /\ k = doc_name doc /\ r = loaded doc p fname d)
    /\ (forall p d fname doc,
          V p d fname doc -> repository_file p fname doc ->
          is_Some (repos' !! doc_name doc)
          /\ forall found,
               repos !! doc_name doc = Some found -> found.(Owner) = None ->
               In (defined_twice (doc_name doc) (filepath.Join p fname)
                     (filepath.Join archivedDirPath (doc_name doc)))
                  new_errors).

Lemma walk_spec_skip a (V : string -> string -> string -> RepositoryDocument -> Prop)
  repos errors warnings new_errors new_warnings :
  (forall p d fname doc, V p d fname doc -> repository_file p fname doc -> False) ->
  walk_spec a V (repos, errors, warnings)
    (repos, (errors ++ new_errors)%list, (warnings ++ new_warnings)%list).
Proof.
  intros HV. exists new_errors, new_warnings.
  split; [reflexivity |]. split; [reflexivity |].
  split; [auto |]. split; [auto |].
  intros p d fname doc Hv Hg. destruct (HV _ _ _ _ Hv Hg).
Qed.

Lemma walk_spec_trans a V1 V2 st1 st2 st3 :
  walk_spec a V1 st1 st2 -> walk_spec a V2 st2 st3 ->
  walk_spec a (fun p d fname doc => V1 p d fname doc \/ V2 p d fname doc) st1 st3.
Proof.
  destruct st1 as [[m1 e1] w1], st2 as [[m2 e2] w2], st3 as [[m3 e3] w3].
  intros (ne1 & nw1 & -> & -> & Hk1 & Hn1 & Hf1) (ne2 & nw2 & -> & -> & Hk2 & Hn2 & Hf2).
  exists (ne1 ++ ne2)%list, (nw1 ++ nw2)%list.
  split; [now rewrite app_assoc |]. split; [now rewrite app_assoc |].
  split; [auto |]. split.
  - intros k r Hr. destruct (Hn2 k r Hr) as [H2 | (p & d & fname & doc & Hv & Hrest)].
    + destruct (Hn1 k r H2) as [H1 | (p & d & fname & doc & Hv & Hrest)].
      * now left.
      * right. exists p, d, fname, doc. split; [now left | exact Hrest].
    + right. exists p, d, fname, doc. split; [now right | exact Hrest].
  - intros p d fname doc [Hv | Hv] Hg.
    + destruct (Hf1 p d fname doc Hv Hg) as [[r Hr] Herr]. split.
      * exists r. now apply Hk2.
      * intros found Hfound Ho. apply in_or_app. left. now apply (Herr found).
    + destruct (Hf2 p d fname doc Hv Hg) as [Hs Herr]. split; [exact Hs |].
      intros found Hfound Ho. apply in_or_app. right.
      apply (Herr found); [now apply Hk1 | exact Ho].
Qed.

Lemma walk_spec_iff a V V' st st' :
  (forall p d fname doc, V p d fname doc <-> V' p d fname doc) ->
  walk_spec a V st st' -> walk_spec a V' st st'.
Proof.
  destruct st as [[m e] w], st' as [[m' e'] w'].
  intros HV (ne & nw & -> & -> & Hk & Hn & Hf).
  exists ne, nw. split; [reflexivity |]. split; [reflexivity |].
  split; [exact Hk |]. split.
  - intros k r Hr. destruct (Hn k r Hr) as [H | (p & d & fname & doc & Hv & Hrest)].
    + now left.
    + right. exists p, d, fname, doc. split; [now apply HV | exact Hrest].
  - intros p d fname doc Hv Hg. apply (Hf p d fname doc); [now apply HV | exact Hg].
Qed.

(** A call with lists of its own, appended by the caller to its lists. *)
Lemma walk_spec_frame a V repos repos' suberrs subwarns errors warnings :
  walk_spec a V (repos, [], []) (repos', suberrs, subwarns) ->
  walk_spec a V (repos, errors, warnings)
    (repos', (errors ++ suberrs)%list, (warnings ++ subwarns)%list).
Proof.
  intros (ne & nw & -> & -> & Hrest). now exists ne, nw.
Qed.

Lemma range_walk_spec {A : Type} a (body : A -> ReposState -> Exec ReposState)
  (VA : A -> string -> string -> string -> RepositoryDocument -> Prop) (l : list A) :
  Forall (fun x => forall st st', body x st = Ret st' -> walk_spec a (VA x) st st') l ->
  forall st st',
    range body l st = Ret st' ->
    walk_spec a (fun p d fname doc => exists x, In x l /\ VA x p d fname doc) st st'.
Proof.
  intros H. induction H as [|x l Hx _ IH]; intros st st' Hrun.
  - simpl in Hrun. injection Hrun as <-. destruct st as [[m e] w].
    rewrite <- (app_nil_r e) at 2. rewrite <- (app_nil_r w) at 2.
    apply walk_spec_skip. intros p d fname doc (x & [] & _).
  - simpl in Hrun. destruct (body x st) as [st1 | msg] eqn:Hb; [| discriminate].
    simpl in Hrun.
    eapply walk_spec_iff; [| exact (walk_spec_trans _ _ _ _ _ _ (Hx _ _ Hb) (IH _ _ Hrun))].
    intros p d fname doc. simpl. split.
    + intros [Hv | (y & Hy & Hv)]; [exists x | exists y]; auto.
    + intros (y & [<- | Hy] & Hv); [left | right; exists y]; auto.
Qed.

Lemma walk_spec_same a (V : string -> string -> string -> RepositoryDocument -> Prop) st :
  (forall p d fname doc, V p d fname doc -> repository_file p fname doc -> False) ->
  walk_spec a V st st.
Proof.
  intros HV. destruct st as [[m e] w].
  rewrite <- (app_nil_r e) at 2. rewrite <- (app_nil_r w) at 2.
  now apply walk_spec_skip.
Qed.

(** The iteration on a directory is the hidden-name test and the recursive
    call of [recursiveReadRepositories], with the directory's own name as the
    team name. *)
Lemma recursiveReadRepositories_entry_directory a dirPath dirName name listing
  repos errors warnings :
  recursiveReadRepositories_entry GithubAnsiString teams externalUsers
    a dirPath dirName (Directory name listing) (repos, errors, warnings)
  = (c ← byte0 name;
     if negb (Ascii.eqb c "."%char) then
       '(repos', suberrs, subwarns) ←
         recursiveReadRepositories GithubAnsiString teams externalUsers
           a (filepath.Join dirPath name) name listing repos;
       Ret (repos', (errors ++ suberrs)%list, (warnings ++ subwarns)%list)
     else Ret (repos, errors, warnings)).
Proof. reflexivity. Qed.

Lemma walk_file_spec a dirPath dirName name content st st' :
  recursiveReadRepositories_entry GithubAnsiString teams externalUsers
    a dirPath dirName (File name content) st = Ret st' ->
  walk_spec a (visits dirPath dirName (File name content)) st st'.
Proof.
  destruct st as [[repos errors] warnings].
  cbn [recursiveReadRepositories_entry]. intros H.
  destruct ((filepath.Ext name =? ".yaml") && negb (name =? "team.yaml")) eqn:Hc.
  2: { injection H as <-. apply walk_spec_same.
       intros p d fname doc Hv (Hext & Hteam & _). inversion Hv; subst.
       apply String.eqb_eq in Hext. apply String.eqb_neq in Hteam.
       now rewrite Hext, Hteam in Hc. }
  apply andb_true_iff in Hc. destruct Hc as [Hext Hteam].
  apply String.eqb_eq in Hext. apply negb_true_iff, String.eqb_neq in Hteam.
  destruct content as [doc | err]; cbn [NewRepository] in H.
  2: { injection H as <-. rewrite <- (app_nil_r warnings) at 2.
       apply walk_spec_skip. intros p d fname doc Hv _. inversion Hv. }
  destruct (Validate _ _ _ _ _) as [err |] eqn:Hval.
  { injection H as <-. rewrite <- (app_nil_r warnings) at 2.
    apply walk_spec_skip. intros p d fname doc' Hv (_ & _ & Hvalid).
    inversion Hv; subst. unfold valid_document in Hvalid. congruence. }
  change (RepoName (set_DirectoryPath (Unmarshal doc) _)) with (doc_name doc) in H.
  destruct (repos !! doc_name doc) as [found |] eqn:Hlook.
  - injection H as <-.
    eexists [_], []. split; [reflexivity |]. split; [now rewrite app_nil_r |].
    split; [auto |]. split; [auto |].
    intros p d fname doc' Hv _. inversion Hv; subst. split; [now exists found |].
    intros found' Hfound' Ho. left.
    assert (found' = found) as -> by congruence. now rewrite Ho.
  - assert (st' = (<[doc_name doc := loaded doc dirPath name dirName]> repos,
                   errors, warnings)) as -> by (injection H as <-; reflexivity).
    exists [], []. split; [now rewrite app_nil_r |]. split; [now rewrite app_nil_r |].
    split; [| split].
    + intros k r Hr. rewrite lookup_insert_ne; [exact Hr | congruence].
    + intros k r Hr. destruct (decide (doc_name doc = k)) as [<- | Hne].
      * rewrite lookup_insert_eq in Hr. injection Hr as <-. right.
        exists dirPath, dirName, name, doc.
        split; [constructor |]. split; [| split; reflexivity].
        split; [exact Hext |]. split; [exact Hteam | exact Hval].
      * rewrite lookup_insert_ne in Hr by exact Hne. now left.
    + intros p d fname doc' Hv _. inversion Hv; subst. split.
      * rewrite lookup_insert_eq. now eexists.
      * intros found Hfound. congruence.
Qed.

Lemma walk_entry_spec a (sube : Entry RepositoryDocument) :
  forall dirPath dirName st st',
    recursiveReadRepositories_entry GithubAnsiString teams externalUsers
      a dirPath dirName sube st = Ret st' ->
    walk_spec a (visits dirPath dirName sube) st st'.
Proof.
  induction sube as [name content | name err | name entries IH] using Entry_induction;
    intros dirPath dirName st st' H.
  - now apply walk_file_spec.
  - destruct st as [[repos errors] warnings].
    rewrite recursiveReadRepositories_entry_directory in H.
    destruct name as [|c rest]; [discriminate |]. cbn [byte0 mbind Exec_bind] in H.
    destruct (negb (Ascii.eqb c "."%char)).
    + cbn [recursiveReadRepositories mbind Exec_bind] in H. injection H as <-.
      apply walk_spec_skip. intros p d fname doc Hv _. inversion Hv.
    + injection H as <-. apply walk_spec_same.
      intros p d fname doc Hv _. inversion Hv.
  - destruct st as [[repos errors] warnings].
    rewrite recursiveReadRepositories_entry_directory in H.
    destruct name as [|c rest]; [discriminate |]. cbn [byte0 mbind Exec_bind] in H.
    destruct (Ascii.eqb c "."%char) eqn:Hdot; cbn [negb] in H.
    + injection H as <-. apply walk_spec_same.
      intros p d fname doc Hv _. inversion Hv; subst. simpl in *. congruence.
    + cbn [recursiveReadRepositories] in H.
      destruct (range _ entries _) as [[[repos' suberrs] subwarns] | msg] eqn:Hrun;
        [| discriminate].
      cbn [mbind Exec_bind] in H. injection H as <-.
      apply walk_spec_frame.
      eapply walk_spec_iff;
        [| eapply (range_walk_spec a _ (visits _ (String c rest)) entries);
           [| exact Hrun]].
      * intros p d fname doc. split.
        -- intros (x & Hx & Hv).
           apply (visits_directory _ _ _ _ x); [discriminate | exact Hdot | exact Hx | exact Hv].
        -- intros Hv. inversion Hv; subst. eauto.
      * eapply Forall_impl; [exact IH |]. intros x Hx st st'. apply Hx.
Qed.

(** The files a call of [recursiveReadRepositories] comes to. *)
Definition visits_listing (dirPath dirName : string)
  (listing : result (list (Entry RepositoryDocument)))
  (p d fname : string) (doc : RepositoryDocument) : Prop :=
  match listing with
  | Err _ => False
  | Ok subentries => exists sube, In sube subentries /\ visits dirPath dirName sube p d fname doc
  end.

Lemma recursiveReadRepositories_spec a dirPath dirName listing repos st' :
  recursiveReadRepositories GithubAnsiString teams externalUsers
    a dirPath dirName listing repos = Ret st' ->
  walk_spec a (visits_listing dirPath dirName listing) (repos, [], []) st'.
Proof.
  destruct listing as [subentries | err]; cbn [recursiveReadRepositories]; intros H.
  - eapply (range_walk_spec a _ (visits dirPath dirName) subentries); [| exact H].
    apply Forall_forall. intros x _ st st1. apply walk_entry_spec.
  - injection H as <-. apply (walk_spec_skip a _ repos [] [] [err] []).
    intros p d fname doc [].
Qed.

(** The files the iteration of the teams loop on the entry [team] comes to. *)
Definition visits_team (teamDirname : string) (team : Entry RepositoryDocument)
  (p d fname : string) (doc : RepositoryDocument) : Prop :=
  match team with
  | File _ _ => False
  | Directory T listing => visits_listing (filepath.Join teamDirname T) T listing p d fname doc
  end.

Lemma ReadRepositories_team_spec a t team st st' :
  ReadRepositories_team GithubAnsiString teams externalUsers a t team st = Ret st' ->
  walk_spec a (visits_team t team) st st'.
Proof.
  destruct st as [[repos errors] warnings].
  destruct team as [name content | T listing]; cbn [ReadRepositories_team]; intros H.
  - injection H as <-. apply walk_spec_same. intros p d fname doc [].
  - destruct (recursiveReadRepositories _ _ _ _ _ _ _ _)
      as [[[repos' suberrs] subwarns] | msg] eqn:Hrun; [| discriminate].
    cbn [mbind Exec_bind] in H. injection H as <-.
    apply walk_spec_frame. now apply recursiveReadRepositories_spec.
Qed.

Lemma teams_loop_spec a t entries st st' :
  range (ReadRepositories_team GithubAnsiString teams externalUsers a t) entries st
  = Ret st' ->
  walk_spec a (fun p d fname doc => exists T, in_team_tree t entries T p d fname doc)
    st st'.
Proof.
  intros H.
  eapply walk_spec_iff;
    [| eapply (range_walk_spec a _ (visits_team t) entries); [| exact H]].
  - intros p d fname doc. split.
    + intros (x & Hx & Hv). destruct x as [name content | T [tentries | err]];
        simpl in Hv; try destruct Hv as (sube & Hs & Hv); try contradiction.
      exists T, tentries, sube. auto.
    + intros (T & tentries & sube & Hd & Hs & Hv).
      exists (Directory T (Ok tentries)). split; [exact Hd |]. simpl. eauto.
  - apply Forall_forall. intros x _ st1 st2. apply ReadRepositories_team_spec.
Qed.

(** One iteration of the archive loop either leaves the map alone or inserts
    the repository of the valid file it is on, marked archived. *)
Lemma ReadRepositories_archived_step a entry repos errors warning repos' errors' warning' :
  ReadRepositories_archived GithubAnsiString teams externalUsers a entry
    (repos, errors, warning) = Ret (repos', errors', warning') ->
  (repos' = repos
   /\ forall fname doc, in_archive [entry] fname doc -> valid_document a fname doc -> False)
  \/ exists fname doc,
       in_archive [entry] fname doc /\ valid_document a fname doc
       /\ repos' = <[doc_name doc := loaded_archived doc a fname]> repos.
Proof.
  destruct entry as [name content | name listing]; cbn [ReadRepositories_archived]; intros H.
  2: { left. split; [congruence |]. intros fname doc ([Hin | []] & _). discriminate. }
  destruct name as [|c rest]; [discriminate |]. cbn [byte0 mbind Exec_bind] in H.
  destruct (Ascii.eqb c "."%char) eqn:Hdot.
  { left. split; [congruence |].
    intros fname doc ([Hin | []] & _ & Hh & _) _. injection Hin as <- _.
    simpl in Hh. congruence. }
  destruct (strings.HasSuffix (String c rest) ".yaml") eqn:Hsuf; cbn [negb] in H.
  2: { left. split; [congruence |].
       intros fname doc ([Hin | []] & _ & _ & Hs) _. injection Hin as <- _. congruence. }
  destruct content as [doc | err]; cbn [NewRepository] in H.
  2: { left. split; [congruence |]. intros fname doc ([Hin | []] & _). discriminate. }
  destruct (Validate _ _ _ _ _) as [err |] eqn:Hval.
  { left. split; [congruence |].
    intros fname doc' ([Hin | []] & _) Hvalid. injection Hin as <- <-.
    unfold valid_document in Hvalid. congruence. }
  right. exists (String c rest), doc. split; [| split].
  - split; [now left |]. split; [discriminate |]. split; [exact Hdot | exact Hsuf].
  - exact Hval.
  - injection H as <- _ _. reflexivity.
Qed.

Lemma in_archive_cons entry entries fname doc :
  in_archive (entry :: entries) fname doc
  <-> in_archive [entry] fname doc \/ in_archive entries fname doc.
Proof.
  unfold in_archive. simpl. tauto.
Qed.

Lemma archive_loop_spec a entries :
  forall repos errors warning repos' errors' warning',
    range (ReadRepositories_archived GithubAnsiString teams externalUsers a) entries
      (repos, errors, warning) = Ret (repos', errors', warning') ->
    (forall k, is_Some (repos !! k) -> is_Some (repos' !! k))
    /\ (forall k r, repos' !! k = Some r ->
          repos !! k = Some r
          \/ exists fname doc,
               in_archive entries fname doc /\ valid_document a fname doc
               /\ k = doc_name doc /\ r = loaded_archived doc a fname)
    /\ (forall fname doc,
          in_archive entries fname doc -> valid_document a fname doc ->
          is_Some (repos' !! doc_name doc)).
Proof.
  induction entries as [|entry entries IH]; intros repos errors warning repos' errors' warning' H.
  - simpl in H. injection H as <- _ _. split; [auto |]. split; [auto |].
    intros fname doc ([] & _).
  - cbn [range] in H.
    destruct (ReadRepositories_archived _ _ _ _ _ _) as [[[repos1 errors1] warning1] | msg]
      eqn:Hstep; [| discriminate].
    cbn [mbind Exec_bind] in H.
    destruct (IH _ _ _ _ _ _ H) as (Hdom & Hnew & Hall).
    apply ReadRepositories_archived_step in Hstep.
    destruct Hstep as [[-> Hnone] | (fname0 & doc0 & Hin0 & Hval0 & ->)].
    + split; [exact Hdom |]. split.
      * intros k r Hr. destruct (Hnew k r Hr) as [Hold | (fname & doc & Hin & Hrest)];
          [now left | right].
        exists fname, doc. split; [apply in_archive_cons; now right | exact Hrest].
      * intros fname doc Hin Hval. apply in_archive_cons in Hin.
        destruct Hin as [Hin | Hin]; [destruct (Hnone _ _ Hin Hval) | now apply (Hall fname)].
    + split; [| split].
      * intros k Hk. apply Hdom. destruct (decide (doc_name doc0 = k)) as [<- | Hne].
        -- rewrite lookup_insert_eq. now eexists.
        -- now rewrite lookup_insert_ne.
      * intros k r Hr. destruct (Hnew k r Hr) as [Hold | (fname & doc & Hin & Hrest)].
        -- destruct (decide (doc_name doc0 = k)) as [<- | Hne].
           ++ rewrite lookup_insert_eq in Hold. injection Hold as <-. right.
              exists fname0, doc0. split; [apply in_archive_cons; now left | auto].
           ++ rewrite lookup_insert_ne in Hold by exact Hne. now left.
        -- right. exists fname, doc. split; [apply in_archive_cons; now right | exact Hrest].
      * intros fname doc Hin Hval. apply in_archive_cons in Hin.
        destruct Hin as [Hin | Hin]; [| now apply (Hall fname)].
        apply Hdom.
        assert (fname = fname0 /\ doc = doc0) as [-> ->].
        { destruct Hin as ([Hin | []] & _), Hin0 as ([Hin0 | []] & _). split; congruence. }
        rewrite lookup_insert_eq. now eexists.
Qed.

Lemma Validate_name (r : Repository) (filename : string) :
  Validate GithubAnsiString teams externalUsers r filename = None ->
  RepoName r = trimExt (filepath.Base filename).
Proof.
  unfold Validate. intros H.
  destruct (negb (_ =? "v1")); [discriminate |].
  destruct (negb (_ =? "Repository")); [discriminate |].
  destruct (_ =? ""); [discriminate |].
  destruct (negb (_ =? trimExt _)) eqn:Hn; [discriminate |].
  now apply negb_false_iff, String.eqb_eq in Hn.
Qed.

(** What the archive phase leaves in the map when the function goes on. *)
Lemma ReadRepositories_phase1_spec fs a repos errors warning :
  ReadRepositories_phase1 GithubAnsiString teams externalUsers fs a
  = Ret (inr (repos, errors, warning)) ->
  (forall k r, repos !! k = Some r ->
     exists entries fname doc,
       fs a = Present (Ok entries) /\ in_archive entries fname doc
       /\ valid_document a fname doc
       /\ k = doc_name doc /\ r = loaded_archived doc a fname)
  /\ (forall entries fname doc,
        fs a = Present (Ok entries) -> in_archive entries fname doc ->
        valid_document a fname doc -> is_Some (repos !! doc_name doc)).
Proof.
  unfold ReadRepositories_phase1, utils.Exists, ReadDir.
  destruct (fs a) as [err | | [entries | err]]; intros H; try discriminate.
  - injection H as <- _ _. split.
    + intros k r Hr. now rewrite lookup_empty in Hr.
    + discriminate.
  - destruct (range _ entries _) as [[[repos1 errors1] warning1] | msg] eqn:Hrun;
      [| discriminate].
    cbn [mbind Exec_bind] in H. injection H as -> -> ->.
    destruct (archive_loop_spec _ _ _ _ _ _ _ _ Hrun) as (_ & Hnew & Hall).
    split.
    + intros k r Hr. destruct (Hnew k r Hr) as [Hold | (fname & doc & Hrest)].
      * now rewrite lookup_empty in Hold.
      * exists entries, fname, doc. auto.
    + intros entries' fname doc [= <-]. apply Hall.
Qed.

(** The ways [ReadRepositories] returns a map. *)
Lemma ReadRepositories_run fs a t repos errors warning :
  ReadRepositories GithubAnsiString teams externalUsers fs a t
  = Ret (Some repos, errors, warning) ->
  (repos = ∅ /\ exists err, fs a = StatFails err)
  \/ exists repos1 errors1 warning1,
       ReadRepositories_phase1 GithubAnsiString teams externalUsers fs a
       = Ret (inr (repos1, errors1, warning1))
       /\ ((repos = repos1 /\ forall entries, fs t <> Present (Ok entries))
           \/ exists entries,
                fs t = Present (Ok entries)
                /\ range (ReadRepositories_team GithubAnsiString teams externalUsers a t)
                     entries (repos1, errors1, warning1)
                   = Ret (repos, errors, warning)).
Proof.
  unfold ReadRepositories.
  destruct (ReadRepositories_phase1 _ _ _ fs a) as [[early | [[repos1 errors1] warning1]] | msg]
    eqn:Hp1; cbn [mbind Exec_bind]; intros H; [| | discriminate].
  - left. injection H as ->.
    unfold ReadRepositories_phase1, utils.Exists, ReadDir in Hp1.
    destruct (fs a) as [err | | [entries | err]]; try discriminate.
    + injection Hp1 as <- _ _. eauto.
    + destruct (range _ entries _); discriminate.
  - right. exists repos1, errors1, warning1. split; [reflexivity |].
    unfold utils.Exists, ReadDir in H.
    destruct (fs t) as [err | | [entries | err]]; try discriminate.
    + injection H as <- _ _. left. split; [reflexivity | discriminate].
    + injection H as <- _ _. left. split; [reflexivity | discriminate].
    + right. exists entries. split; [reflexivity |].
      destruct (range _ entries _) as [[[repos2 errors2] warning2] | msg]; [| discriminate].
      cbn [mbind Exec_bind] in H. now injection H as -> -> ->.
Qed.

Lemma repository_file_name p fname doc :
  repository_file p fname doc ->
  Forall (fun c => filepath.is_sep c = false) (list_ascii_of_string fname) ->
  fname = doc_name doc ++ ".yaml".
Proof.
  intros (Hext & _ & Hvalid) Hplain.
  apply Validate_name in Hvalid.
  rewrite (Base_Join _ _ (Ext_yaml_plain _ Hext Hplain)) in Hvalid.
  change (RepoName _) with (doc_name doc) in Hvalid.
  rewrite Hvalid, <- Hext. symmetry. apply trimExt_Ext.
Qed.

(** A file placed directly in the top-level team directory [T] is in the tree
    with [T] as the name of its directory. *)
Lemma in_team_tree_direct t entries T tentries fname doc :
  In (Directory T (Ok tentries)) entries ->
  In (File fname (Ok doc)) tentries ->
  in_team_tree t entries T (filepath.Join t T) T fname doc.
Proof.
  intros Hd Hf. exists tentries, (File fname (Ok doc)).
  split; [exact Hd |]. split; [exact Hf | constructor].
Qed.

(** C10. When listing a directory fails after the directory was found to
    exist, [ReadRepositories] returns a nil map with the error: for the archive
    directory, and for the teams directory, where the repositories the archive
    phase has put in the map are dropped with it. When a status check fails,
    the map built so far is returned instead. *)
Theorem failed_listing_returns_nil_map :
  (forall fs a t err,
      fs a = Present (Err err) ->
      ReadRepositories GithubAnsiString teams externalUsers fs a t
      = Ret (None, [err], []))
  /\ (forall fs a t repos errors warning err,
        ReadRepositories_phase1 GithubAnsiString teams externalUsers fs a
        = Ret (inr (repos, errors, warning)) ->
        fs t = Present (Err err) ->
        ReadRepositories GithubAnsiString teams externalUsers fs a t
        = Ret (None, (errors ++ [err])%list, warning))
  /\ (forall fs a t err,
        fs a = StatFails err ->
        ReadRepositories GithubAnsiString teams externalUsers fs a t
        = Ret (Some ∅, [err], []))
  /\ (forall fs a t repos errors warning err,
        ReadRepositories_phase1 GithubAnsiString teams externalUsers fs a
        = Ret (inr (repos, errors, warning)) ->
        fs t = StatFails err ->
        ReadRepositories GithubAnsiString teams externalUsers fs a t
        = Ret (Some repos, (errors ++ [err])%list, warning)).
Proof.
  repeat split.
  - intros fs a t err H.
    unfold ReadRepositories, ReadRepositories_phase1, utils.Exists, ReadDir.
    now rewrite H.
  - intros fs a t repos errors warning err Hp1 H.
    unfold ReadRepositories. rewrite Hp1. cbn [mbind Exec_bind].
    unfold utils.Exists, ReadDir. now rewrite H.
  - intros fs a t err H.
    unfold ReadRepositories, ReadRepositories_phase1, utils.Exists, ReadDir.
    now rewrite H.
  - intros fs a t repos errors warning err Hp1 H.
    unfold ReadRepositories. rewrite Hp1. cbn [mbind Exec_bind].
    unfold utils.Exists. now rewrite H.
Qed.

End RepositoryProperties.

(** ** Concrete trees *)

Definition repository_document (name : string) : RepositoryDocument :=
  {| doc_Entity := {| ApiVersion := "v1"; Kind := "Repository"; Name := name |};
     doc_spec := {| Writers := []; Readers := [];
                    ExternalUserReaders := []; ExternalUserWriters := [];
                    IsPublic := false; AllowAutoMerge := false;
                    DeleteBranchOnMerge := false; AllowUpdateBranch := false;
                    Rulesets := [] |};
     doc_archived := false;
     doc_renameTo := "" |}.

(** A file system that shows [archived] and [teams] at the paths [archived]
    and [teams] and nothing elsewhere. *)
Definition two_directories {D : Type} (archived teams : Stat D) : Filesystem D :=
  fun path =>
    if path =? "archived" then archived
    else if path =? "teams" then teams
    else NotExist.

(** No name is changed by the transform; the trees below only hold names of
    lower-case letters. *)
Definition unchanged (name : string) : string := name.

Definition no_teams : gmap string unit := ∅.
Definition no_users : gmap string unit := ∅.

(** [teams/T/sub/repo.yaml] *)
Definition nested_tree : Filesystem RepositoryDocument :=
  two_directories NotExist
    (Present (Ok [Directory "T"
                    (Ok [Directory "sub"
                           (Ok [File "repo.yaml" (Ok (repository_document "repo"))])])])).

(** [archived/top.yaml] and [teams/T/top.yaml] *)
Definition twice_tree : Filesystem RepositoryDocument :=
  two_directories
    (Present (Ok [File "top.yaml" (Ok (repository_document "top"))]))
    (Present (Ok [Directory "T" (Ok [File "top.yaml" (Ok (repository_document "top"))])])).

(** [archived/old.yaml], and a teams directory that cannot be listed. *)
Definition unlistable_teams_tree : Filesystem RepositoryDocument :=
  two_directories
    (Present (Ok [File "old.yaml" (Ok (repository_document "old"))]))
    (Present (Err "open teams: permission denied")).

(** One hidden file that does not decode, as each of the three loops meets
    it: [teams/core/.draft.yaml], [archived/.draft.yaml] and
    [rulesets/.draft.yaml]. *)
Definition hidden_in_team {D : Type} : Filesystem D :=
  two_directories NotExist
    (Present (Ok [Directory "core"
                    (Ok [File ".draft.yaml" (Err "yaml: did not find expected key")])])).

Definition hidden_in_archive {D : Type} : Filesystem D :=
  two_directories
    (Present (Ok [File ".draft.yaml" (Err "yaml: did not find expected key")]))
    NotExist.

Definition hidden_in_rulesets : Filesystem RuleSet :=
  fun path =>
    if path =? "rulesets"
    then Present (Ok [File ".draft.yaml" (Err "yaml: did not find expected key")])
    else NotExist.

(** C5. The ruleset reader and the archive loop skip a file whose name starts
    with a dot; the walk of the teams tree does not: it reads and decodes
    [teams/core/.draft.yaml] and reports the decoding error. *)
Theorem hidden_file_read_by_the_teams_walk :
  ReadRuleSetDirectory hidden_in_rulesets "rulesets" = Ret (∅, [], [])
  /\ ReadRepositories unchanged no_teams no_users hidden_in_archive "archived" "teams"
     = Ret (Some ∅, [], [])
  /\ ReadRepositories unchanged no_teams no_users hidden_in_team "archived" "teams"
     = Ret (Some ∅, ["yaml: did not find expected key"], []).
Proof. repeat split; vm_compute; reflexivity. Qed.

(** ** The properties on concrete inputs *)

Definition nested_repository : Repository :=
  loaded (repository_document "repo") "teams/T/sub" "repo.yaml" "sub".
Definition nested_map : gmap string Repository := {[ "repo" := nested_repository ]}.
Definition archived_top : Repository :=
  loaded_archived (repository_document "top") "archived" "top.yaml".
Definition twice_map : gmap string Repository := {[ "top" := archived_top ]}.

(** Against C1 as stated: the valid file [teams/T/sub/repo.yaml], found under
    the top-level team directory [T], is loaded with owner [sub], not [T]. *)
Lemma nested_repository_not_owned_by_top_level_team :
  ReadRepositories unchanged no_teams no_users nested_tree "archived" "teams"
  = Ret (Some nested_map, [], [])
  /\ nested_repository.(Owner)
     <> Some "T".
Proof. split; [vm_compute; reflexivity | discriminate]. Qed.


(** [Validate] uses the name transform on the repository's name only. *)
Lemma Validate_any_transform (san1 san2 : string -> string) {Team User : Type}
  (teams : gmap string Team) (users : gmap string User) (r : Repository) (filename : string) :
  san1 (RepoName r) = san2 (RepoName r) ->
  Validate san1 teams users r filename = Validate san2 teams users r filename.
Proof.
  intros H. unfold Validate. unfold RepoName in H. now rewrite H.
Qed.

Ltac run_reader :=
  unfold ReadRepositories, ReadRepositories_phase1, utils.Exists, ReadDir;
  cbn [nested_tree twice_tree two_directories String.eqb Ascii.eqb Bool.eqb
       mbind Exec_bind range ReadRepositories_team ReadRepositories_archived
       recursiveReadRepositories recursiveReadRepositories_entry
       byte0 negb NewRepository].

(** The two runs above do not depend on the transform chosen, as long as it
    leaves the one name of the tree unchanged. *)
Lemma nested_tree_any_transform (san : string -> string) :
  san "repo" = "repo" ->
  ReadRepositories san no_teams no_users nested_tree "archived" "teams"
  = Ret (Some nested_map, [], []).
Proof.
  intros H.
  transitivity (ReadRepositories unchanged no_teams no_users nested_tree "archived" "teams");
    [| vm_compute; reflexivity].
  run_reader. now rewrite !(Validate_any_transform san unchanged) by exact H.
Qed.

(** The same for the tree with the name defined twice. *)
Lemma twice_tree_any_transform (san : string -> string) :
  san "top" = "top" ->
  ReadRepositories san no_teams no_users twice_tree "archived" "teams"
  = Ret (Some twice_map,
         ["Repository top defined in 2 places (check teams/T/top.yaml and archived/top)"],
         []).
Proof.
  intros H.
  transitivity (ReadRepositories unchanged no_teams no_users twice_tree "archived" "teams");
    [| vm_compute; reflexivity].
  run_reader. now rewrite !(Validate_any_transform san unchanged) by exact H.
Qed.

Definition review_parameters (count : Z) : RuleSetParameters :=
  {| DismissStaleReviewsOnPush := true;
     RequireCodeOwnerReview := false;
     RequiredApprovingReviewCount := count;
     RequiredReviewThreadResolution := false;
     RequireLastPushApproval := false;
     RequiredStatusChecks := ["build"];
     StrictRequiredStatusChecksPolicy := true |}.

(** Changing the review count from 1 to 2. *)
Lemma pull_request_reflexive_and_sensitive_witness :
  CompareRulesetParameters "pull_request" (review_parameters 1) (review_parameters 2)
  = false.
Proof.
  apply (proj2 pull_request_reflexive_and_sensitive).
  apply changed_RequiredApprovingReviewCount; simpl; [reflexivity | reflexivity | lia
                                                      | reflexivity | reflexivity].
Defined.

(** The rule type [deletion] is not one of the three. *)
Lemma unknown_ruletype_not_equivalent_witness :
  CompareRulesetParameters "deletion" (review_parameters 1) (review_parameters 1) = false.
Proof.
  apply unknown_ruletype_not_equivalent; discriminate.
Defined.

Definition ruleset_with_include (include : list string) : RuleSet :=
  {| RuleSet_Entity := {| ApiVersion := "v1"; Kind := "Ruleset"; Name := "default" |};
     Spec := {| Enforcement := "active";
                BypassApps := [{| AppName := "ci"; Mode := "always" |}];
                On := {| Include := include; Exclude := [] |};
                Rules := [{| Ruletype := "pull_request";
                             Parameters := review_parameters 1 |}] |} |}.

(** [Validate] on the include lists [main, ~ALL] and [main, (empty), ~ALL]. *)
Lemma Validate_total_only_on_nonempty_includes_witness :
  returns (RuleSetValidate.Validate (ruleset_with_include ["main"; "~ALL"])
             "rulesets/default.yaml")
  /\ exists msg,
       RuleSetValidate.Validate (ruleset_with_include ["main"; ""; "~ALL"])
         "rulesets/default.yaml" = Panic msg.
Proof.
  split.
  - apply (proj1 Validate_total_only_on_nonempty_includes).
    repeat constructor; discriminate.
  - apply (proj2 Validate_total_only_on_nonempty_includes _ _ ["main"] ["~ALL"]).
    + unfold passes_checks_before_include.
      split; [reflexivity |]. split; [reflexivity |]. split; [discriminate |].
      split; [vm_compute; reflexivity |].
      split; [constructor; [right; now left | constructor] |].
      split; [right; now left |].
      constructor; [now left | constructor].
    + reflexivity.
    + constructor; [discriminate | constructor].
Defined.

Definition empty_rulesets_directory : Filesystem RuleSet :=
  fun path => if path =? "rulesets" then Present (Ok []) else NotExist.

(** A missing directory and an empty one. *)
Lemma ReadRuleSetDirectory_nothing_to_read_witness :
  ReadRuleSetDirectory empty_rulesets_directory "missing" = Ret (∅, [], [])
  /\ ReadRuleSetDirectory empty_rulesets_directory "rulesets" = Ret (∅, [], []).
Proof.
  split.
  - apply (proj1 ReadRuleSetDirectory_nothing_to_read). reflexivity.
  - apply (proj2 ReadRuleSetDirectory_nothing_to_read _ _ []); [reflexivity | constructor].
Defined.

Definition archived_old : Repository :=
  loaded_archived (repository_document "old") "archived" "old.yaml".

(** The archive phase loads [old]; the listing of [teams] fails, and the map
    returned is nil. *)
Lemma failed_listing_returns_nil_map_witness :
  ReadRepositories_phase1 unchanged no_teams no_users unlistable_teams_tree "archived"
  = Ret (inr ({[ "old" := archived_old ]}, [], []))
  /\ ReadRepositories unchanged no_teams no_users unlistable_teams_tree "archived" "teams"
     = Ret (None, ["open teams: permission denied"], []).
Proof.
  split.
  - vm_compute. reflexivity.
  - apply (proj1 (proj2 (failed_listing_returns_nil_map unchanged no_teams no_users))
             unlistable_teams_tree "archived" "teams" {[ "old" := archived_old ]} [] []).
    + vm_compute. reflexivity.
    + reflexivity.
Defined.

(** * Further properties of the code *)

(** ** Comparison and validation of rulesets *)

(** X1. With rule type [pull_request] the comparison is true exactly when the two
    values agree on each of the five review fields; the check names and the
    strict-policy flag play no part. *)
Theorem pull_request_compares_the_review_fields (left right : RuleSetParameters) :
  CompareRulesetParameters "pull_request" left right = true
  <-> left.(DismissStaleReviewsOnPush) = right.(DismissStaleReviewsOnPush)
      /\ left.(RequireCodeOwnerReview) = right.(RequireCodeOwnerReview)
      /\ left.(RequiredApprovingReviewCount) = right.(RequiredApprovingReviewCount)
      /\ left.(RequiredReviewThreadResolution) = right.(RequiredReviewThreadResolution)
      /\ left.(RequireLastPushApproval) = right.(RequireLastPushApproval).
Proof.
  rewrite Compare_pull_request. unfold pull_request_fields. split.
  - intros [= -> -> -> -> ->]. repeat split.
  - intros (-> & -> & -> & -> & ->). reflexivity.
Qed.

Lemma find_none_all {A : Type} (bad : A -> bool) (l : list A) :
  List.find bad l = None <-> Forall (fun x => bad x = false) l.
Proof.
  induction l as [|x l IH]; simpl.
  - split; [constructor | reflexivity].
  - destruct (bad x) eqn:Hx.
    + split; [discriminate | intros H; inversion H; congruence].
    + rewrite IH. split; [now constructor | intros H; now inversion H].
Qed.

Lemma negb_eqb_false (a b : string) : negb (a =? b) = false <-> a = b.
Proof. rewrite negb_false_iff. apply String.eqb_eq. Qed.

Lemma bad_ruletype_false (rule : Rule) :
  RuleSetValidate.bad_ruletype rule = false
  <-> rule.(Ruletype) = "required_signatures" \/ rule.(Ruletype) = "pull_request"
      \/ rule.(Ruletype) = "required_status_checks".
Proof.
  unfold RuleSetValidate.bad_ruletype.
  rewrite !andb_false_iff, !negb_eqb_false. tauto.
Qed.

Lemma bad_enforcement_false (enforcement : string) :
  RuleSetValidate.bad_enforcement enforcement = false
  <-> enforcement = "disable" \/ enforcement = "active" \/ enforcement = "evaluate".
Proof.
  unfold RuleSetValidate.bad_enforcement.
  rewrite !andb_false_iff, !negb_eqb_false. tauto.
Qed.

Lemma bad_mode_false (ba : BypassApp) :
  RuleSetValidate.bad_mode ba = false
  <-> ba.(Mode) = "always" \/ ba.(Mode) = "pull_request".
Proof.
  unfold RuleSetValidate.bad_mode. rewrite !andb_false_iff, !negb_eqb_false. tauto.
Qed.

(** When [Validate] gets as far as the include entries, the checks before
    them have passed. *)
Lemma Validate_at_include (r : RuleSet) (filename : string) :
  (forall err, RuleSetValidate.Validate r filename <> Ret (Some err)) ->
  passes_checks_before_include r filename.
Proof.
  unfold RuleSetValidate.Validate, passes_checks_before_include. intros H.
  destruct (negb (_ =? "v1")) eqn:Hv; [exfalso; eapply H; reflexivity |].
  destruct (negb (_ =? "Ruleset")) eqn:Hk; [exfalso; eapply H; reflexivity |].
  destruct (_ =? "") eqn:Hn; [exfalso; eapply H; reflexivity |].
  destruct (negb (_ =? trimExt _)) eqn:Hf; [exfalso; eapply H; reflexivity |].
  destruct (List.find RuleSetValidate.bad_ruletype _) eqn:Hr; [exfalso; eapply H; reflexivity |].
  destruct (RuleSetValidate.bad_enforcement _) eqn:He; [exfalso; eapply H; reflexivity |].
  destruct (List.find RuleSetValidate.bad_mode _) eqn:Hb; [exfalso; eapply H; reflexivity |].
  apply negb_eqb_false in Hv, Hk, Hf. apply String.eqb_neq in Hn.
  apply find_none_all in Hr, Hb. apply bad_enforcement_false in He.
  repeat split; try assumption.
  - eapply Forall_impl; [exact Hr |]. intros x. apply bad_ruletype_false.
  - eapply Forall_impl; [exact Hb |]. intros x. apply bad_mode_false.
Qed.

Lemma check_include_accepts (filename : string) (include : list string) :
  RuleSetValidate.check_include filename include = Ret None
  <-> Forall include_accepted include.
Proof.
  induction include as [|on rest IH].
  - split; [constructor | reflexivity].
  - destruct on as [|c on'].
    + split; [discriminate | intros H; inversion H; contradiction].
    + cbn [RuleSetValidate.check_include byte0 mbind Exec_bind].
      destruct (Ascii.eqb c RuleSetValidate.tilde) eqn:Hc.
      * apply Ascii.eqb_eq in Hc.
        destruct (negb (String c on' =? "~DEFAULT_BRANCH")) eqn:Hd;
          destruct (negb (String c on' =? "~ALL")) eqn:Ha; cbn [andb].
        -- split; [discriminate |]. intros H. inversion H as [|? ? Hon _]; subst.
           exfalso. apply negb_true_iff, String.eqb_neq in Hd, Ha.
           destruct (Hon eq_refl); contradiction.
        -- rewrite IH. apply negb_eqb_false in Ha.
           split; [intros H; constructor; [intros _; now right | exact H]
                  | intros H; now inversion H].
        -- rewrite IH. apply negb_eqb_false in Hd.
           split; [intros H; constructor; [intros _; now left | exact H]
                  | intros H; now inversion H].
        -- rewrite IH. apply negb_eqb_false in Hd.
           split; [intros H; constructor; [intros _; now left | exact H]
                  | intros H; now inversion H].
      * cbn [andb]. rewrite IH. apply Ascii.eqb_neq in Hc.
        split; [intros H; constructor; [intros Heq; contradiction | exact H]
               | intros H; now inversion H].
Qed.

Lemma check_include_panic (filename : string) (include : list string) (msg : string) :
  RuleSetValidate.check_include filename include = Panic msg ->
  exists before after,
    include = (before ++ "" :: after)%list /\ Forall include_accepted before.
Proof.
  induction include as [|on rest IH]; [discriminate |].
  destruct on as [|c on'].
  - intros _. exists [], rest. split; [reflexivity | constructor].
  - cbn [RuleSetValidate.check_include byte0 mbind Exec_bind].
    destruct (_ && _) eqn:Hrej; [discriminate |].
    intros H. destruct (IH H) as (before & after & -> & Hb).
    exists (String c on' :: before), after. split; [reflexivity |].
    constructor; [| exact Hb].
    intros ->. rewrite Ascii.eqb_refl in Hrej. cbn [andb] in Hrej.
    apply andb_false_iff in Hrej. rewrite !negb_eqb_false in Hrej. exact Hrej.
Qed.

(** X2. [Validate] of a ruleset returns no error exactly when the header is the
    expected one, the name is the file's name without its extension, every
    rule type, the enforcement and every bypass mode are known values, and
    every include entry is non-empty and, if it starts with the marker, one of
    the two sentinels. *)
Theorem ruleset_accepted_iff (r : RuleSet) (filename : string) :
  RuleSetValidate.Validate r filename = Ret None
  <-> passes_checks_before_include r filename
      /\ Forall include_accepted r.(Spec).(On).(Include).
Proof.
  split.
  - intros H. assert (Hp : passes_checks_before_include r filename).
    { apply Validate_at_include. intros err. rewrite H. discriminate. }
    split; [exact Hp |].
    rewrite (Validate_reaches_include _ _ Hp) in H. now apply check_include_accepts in H.
  - intros [Hp Hi]. rewrite (Validate_reaches_include _ _ Hp).
    now apply check_include_accepts.
Qed.

(** X3. [Validate] of a ruleset panics exactly when every check before the include
    entries passes and an empty include entry comes after entries the sentinel
    check accepts; a ruleset that fails an earlier check gets its error even
    if an include entry is empty. *)
Theorem ruleset_panic_iff (r : RuleSet) (filename : string) :
  (exists msg, RuleSetValidate.Validate r filename = Panic msg)
  <-> passes_checks_before_include r filename
      /\ exists before after,
           r.(Spec).(On).(Include) = (before ++ "" :: after)%list
           /\ Forall include_accepted before.
Proof.
  split.
  - intros [msg H]. assert (Hp : passes_checks_before_include r filename).
    { apply Validate_at_include. intros err. rewrite H. discriminate. }
    split; [exact Hp |].
    rewrite (Validate_reaches_include _ _ Hp) in H. now apply check_include_panic in H.
  - intros (Hp & before & after & Hi & Hb).
    rewrite (Validate_reaches_include _ _ Hp), Hi. now apply check_include_panics.
Qed.

(** ** Validation of repositories *)

Section RepositoryValidation.

Context {Team User : Type}.
Variable GithubAnsiString : string -> string.
Variable teams : gmap string Team.
Variable externalUsers : gmap string User.

(** An embedded ruleset the loop over [r.Spec.Rulesets] lets through, its name
    apart from the others'. *)
Definition embedded_ruleset_ok (ruleset : RepositoryRuleSet) : Prop :=
  ruleset.(RuleSetName) <> ""
  /\ (ruleset.(Definition_).(Enforcement) = "disable"
      \/ ruleset.(Definition_).(Enforcement) = "active"
      \/ ruleset.(Definition_).(Enforcement) = "evaluate").

(** What [Validate] asks of a repository read from [filename], stated on the
    fields and the two tables. *)
Definition repository_valid (r : Repository) (filename : string) : Prop :=
  r.(Repository_Entity).(ApiVersion) = "v1"
  /\ r.(Repository_Entity).(Kind) = "Repository"
  /\ RepoName r <> ""
  /\ RepoName r = trimExt (filepath.Base filename)
  /\ Forall (fun writer => is_Some (teams !! writer)) r.(Repository_Spec).(Writers)
  /\ Forall (fun reader => is_Some (teams !! reader)) r.(Repository_Spec).(Readers)
  /\ Forall (fun user => is_Some (externalUsers !! user))
            r.(Repository_Spec).(ExternalUserReaders)
  /\ Forall (fun user => is_Some (externalUsers !! user))
            r.(Repository_Spec).(ExternalUserWriters)
  /\ Forall embedded_ruleset_ok r.(Repository_Spec).(Rulesets)
  /\ NoDup (map RuleSetName r.(Repository_Spec).(Rulesets))
  /\ GithubAnsiString (RepoName r) = RepoName r.

Lemma missing_false {V : Type} (table : gmap string V) (name : string) :
  missing table name = false <-> is_Some (table !! name).
Proof.
  unfold missing. destruct (table !! name) as [v |].
  - split; [eauto | reflexivity].
  - split; [discriminate | intros [v Hv]; discriminate].
Qed.

Lemma find_missing_none {V : Type} (table : gmap string V) (names : list string) :
  List.find (missing table) names = None
  <-> Forall (fun name => is_Some (table !! name)) names.
Proof.
  rewrite find_none_all. split; intros H; (eapply Forall_impl; [exact H |]);
    intros name; apply missing_false.
Qed.

Lemma Validate_rulesets_none (rulesets : list RepositoryRuleSet) :
  forall rulesetname : gmap string bool,
    Validate_rulesets rulesets rulesetname = None
    <-> Forall embedded_ruleset_ok rulesets
        /\ NoDup (map RuleSetName rulesets)
        /\ Forall (fun ruleset => rulesetname !! ruleset.(RuleSetName) = None) rulesets.
Proof.
  induction rulesets as [|ruleset rest IH]; intros rulesetname.
  - simpl. split; [intros _; repeat split; constructor | reflexivity].
  - cbn [Validate_rulesets map].
    destruct (RuleSetName ruleset =? "") eqn:Hn.
    { apply String.eqb_eq in Hn. split; [discriminate |].
      intros (Hok & _). inversion Hok as [|? ? [Hne _] _]; contradiction. }
    apply String.eqb_neq in Hn.
    destruct (RuleSetValidate.bad_enforcement _) eqn:He.
    { split; [discriminate |]. intros (Hok & _).
      inversion Hok as [|? ? [_ Henf] _]; subst.
      apply bad_enforcement_false in Henf. congruence. }
    apply bad_enforcement_false in He.
    destruct (rulesetname !! RuleSetName ruleset) as [b |] eqn:Hseen.
    { split; [discriminate |]. intros (_ & _ & Hfree).
      inversion Hfree; congruence. }
    rewrite IH, NoDup_cons, !Forall_cons. split.
    + intros (Hok & Hnd & Hfree). repeat split; try assumption.
      * intros Hin. apply list_elem_of_fmap in Hin as (other & Heq & Hin).
        rewrite Forall_forall in Hfree. specialize (Hfree other Hin).
        apply lookup_insert_None in Hfree. destruct Hfree as [_ Hne]. congruence.
      * eapply Forall_impl; [exact Hfree |]. intros other Ho.
        now apply lookup_insert_None in Ho.
    + intros ((_ & Hok) & (Hnotin & Hnd) & (_ & Hfree)). repeat split; try assumption.
      rewrite Forall_forall in Hfree. apply Forall_forall. intros other Hin.
      apply lookup_insert_None. split; [now apply Hfree |].
      intros Heq. apply Hnotin. apply list_elem_of_fmap. exists other. auto.
Qed.

(** X4. [Validate] of a repository returns no error exactly when the header is the
    expected one, the name is the file's name without its extension, every
    writer and reader is a key of the teams table, every external reader and
    writer a key of the external users table, every embedded ruleset has a
    name and a known enforcement, no two embedded rulesets share a name, and
    the name transform leaves the repository's name unchanged. *)
Theorem repository_accepted_iff (r : Repository) (filename : string) :
  Validate GithubAnsiString teams externalUsers r filename = None
  <-> repository_valid r filename.
Proof.
  unfold Validate, repository_valid, RepoName.
  destruct (negb (_ =? "v1")) eqn:Hv.
  { split; [discriminate |]. intros (H & _). apply negb_true_iff, String.eqb_neq in Hv.
    contradiction. }
  destruct (negb (_ =? "Repository")) eqn:Hk.
  { split; [discriminate |]. intros (_ & H & _).
    apply negb_true_iff, String.eqb_neq in Hk. contradiction. }
  destruct (_ =? "") eqn:Hn.
  { split; [discriminate |]. intros (_ & _ & H & _). apply String.eqb_eq in Hn.
    contradiction. }
  destruct (negb (_ =? trimExt _)) eqn:Hf.
  { split; [discriminate |]. intros (_ & _ & _ & H & _).
    apply negb_true_iff, String.eqb_neq in Hf. contradiction. }
  apply negb_eqb_false in Hv, Hk, Hf. apply String.eqb_neq in Hn.
  destruct (List.find (missing teams) (Writers _)) eqn:Hw.
  { split; [discriminate |]. intros (_ & _ & _ & _ & H & _).
    apply find_missing_none in H. congruence. }
  destruct (List.find (missing teams) (Readers _)) eqn:Hr.
  { split; [discriminate |]. intros (_ & _ & _ & _ & _ & H & _).
    apply find_missing_none in H. congruence. }
  destruct (List.find (missing externalUsers) (ExternalUserReaders _)) eqn:Her.
  { split; [discriminate |]. intros (_ & _ & _ & _ & _ & _ & H & _).
    apply find_missing_none in H. congruence. }
  destruct (List.find (missing externalUsers) (ExternalUserWriters _)) eqn:Hew.
  { split; [discriminate |]. intros (_ & _ & _ & _ & _ & _ & _ & H & _).
    apply find_missing_none in H. congruence. }
  apply find_missing_none in Hw, Hr, Her, Hew.
  destruct (Validate_rulesets _ ∅) eqn:Hrs.
  { split; [discriminate |]. intros (_ & _ & _ & _ & _ & _ & _ & _ & Hok & Hnd & _).
    assert (Validate_rulesets (Rulesets (Repository_Spec r)) ∅ = None) as Hnone.
    { apply Validate_rulesets_none. repeat split; try assumption.
      apply Forall_forall. intros x _. apply lookup_empty. }
    congruence. }
  apply Validate_rulesets_none in Hrs. destruct Hrs as (Hok & Hnd & _).
  destruct (negb (GithubAnsiString _ =? _)) eqn:Hg.
  { split; [discriminate |]. intros (_ & _ & _ & _ & _ & _ & _ & _ & _ & _ & H).
    apply negb_true_iff, String.eqb_neq in Hg. contradiction. }
  apply negb_eqb_false in Hg. split; [| reflexivity].
  intros _. repeat split; assumption.
Qed.

End RepositoryValidation.

(** ** The ruleset directory reader, file by file *)

Definition RuleSetName_of (r : RuleSet) : string := r.(RuleSet_Entity).(Name).

(** The file [name] of [dirname] decodes to [r] and [r] passes [Validate]. *)
Definition ruleset_file_accepted (dirname name : string) (r : RuleSet) : Prop :=
  name <> "" /\ hidden name = false
  /\ RuleSetValidate.Validate r (filepath.Join dirname name) = Ret None.

(** The file [name] of [dirname] gives the error [err]: reading or decoding it
    fails with [err], or its ruleset fails [Validate] with [err]. *)
Definition ruleset_file_refused (dirname name : string) (content : result RuleSet)
  (err : error) : Prop :=
  name <> "" /\ hidden name = false
  /\ (content = Err err
      \/ exists r, content = Ok r
                   /\ RuleSetValidate.Validate r (filepath.Join dirname name)
                      = Ret (Some err)).

(** The three outcomes of one iteration of the loop. *)
Inductive ruleset_step (dirname : string) :
  Entry RuleSet -> gmap string RuleSet -> list error ->
  gmap string RuleSet -> list error -> Prop :=
| ruleset_step_skip x rulesets errors :
    IsDir x = true \/ hidden (EntryName x) = true ->
    ruleset_step dirname x rulesets errors rulesets errors
| ruleset_step_refuse name content err rulesets errors :
    ruleset_file_refused dirname name content err ->
    ruleset_step dirname (File name content) rulesets errors
      rulesets (errors ++ [err])%list
| ruleset_step_accept name r rulesets errors :
    ruleset_file_accepted dirname name r ->
    ruleset_step dirname (File name (Ok r)) rulesets errors
      (<[RuleSetName_of r := r]> rulesets) errors.

Lemma ReadRuleSetDirectory_entry_step dirname x rulesets errors rulesets' errors' :
  ReadRuleSetDirectory_entry dirname x (rulesets, errors) = Ret (rulesets', errors') ->
  ruleset_step dirname x rulesets errors rulesets' errors'.
Proof.
  destruct x as [name content | name listing]; cbn [ReadRuleSetDirectory_entry]; intros H.
  2: { injection H as <- <-. apply ruleset_step_skip. now left. }
  destruct name as [|c rest]; [discriminate |]. cbn [byte0 mbind Exec_bind] in H.
  destruct (Ascii.eqb c "."%char) eqn:Hdot.
  { injection H as <- <-. apply ruleset_step_skip. now right. }
  destruct content as [r | err]; cbn [NewRuleSet] in H.
  2: { injection H as <- <-. apply ruleset_step_refuse.
       split; [discriminate |]. split; [exact Hdot | now left]. }
  destruct (RuleSetValidate.Validate r _) as [[err |] | msg] eqn:Hval;
    cbn [mbind Exec_bind] in H; [| | discriminate].
  - injection H as <- <-. apply ruleset_step_refuse.
    split; [discriminate |]. split; [exact Hdot | right; eauto].
  - injection H as <- <-. apply ruleset_step_accept.
    split; [discriminate |]. split; [exact Hdot | exact Hval].
Qed.

(** The entries of a listing that are files. *)
Definition files {D : Type} (entries : list (Entry D)) : list (Entry D) :=
  List.filter (fun e => negb (IsDir e)) entries.

Lemma size_insert_le {V : Type} (m : gmap string V) (k : string) (v : V) :
  size (<[k := v]> m) <= S (size m).
Proof. rewrite map_size_insert. destruct (m !! k); simpl; lia. Qed.

Lemma range_app {A S : Type} (body : A -> S -> Exec S) (l1 l2 : list A) (s : S) :
  range body (l1 ++ l2)%list s = (s1 ← range body l1 s; range body l2 s1).
Proof.
  revert s. induction l1 as [|x l1 IH]; intros s; simpl; [reflexivity |].
  destruct (body x s) as [s1 | msg]; simpl; [apply IH | reflexivity].
Qed.

(** What the loop of [ReadRuleSetDirectory] does over a listing. *)
Lemma rulesets_loop_spec dirname entries :
  forall rulesets errors rulesets' errors',
    range (ReadRuleSetDirectory_entry dirname) entries (rulesets, errors)
    = Ret (rulesets', errors') ->
    exists new_errors,
      errors' = (errors ++ new_errors)%list
      /\ length new_errors + size rulesets' <= size rulesets + length (files entries)
      /\ (forall k, is_Some (rulesets !! k) -> is_Some (rulesets' !! k))
      /\ (forall k r, rulesets' !! k = Some r ->
            rulesets !! k = Some r
            \/ exists name, In (File name (Ok r)) entries
                            /\ ruleset_file_accepted dirname name r
                            /\ RuleSetName_of r = k)
      /\ (forall err, In err new_errors ->
            exists name content, In (File name content) entries
                                 /\ ruleset_file_refused dirname name content err)
      /\ (forall name content err,
            In (File name content) entries ->
            ruleset_file_refused dirname name content err -> In err new_errors)
      /\ (forall name r,
            In (File name (Ok r)) entries -> ruleset_file_accepted dirname name r ->
            is_Some (rulesets' !! RuleSetName_of r)).
Proof.
  induction entries as [|x entries IH]; intros rulesets errors rulesets' errors' H.
  - simpl in H. injection H as <- <-. exists []. rewrite app_nil_r. simpl.
    split; [reflexivity |]. split; [lia |]. split; [auto |]. split; [auto |].
    split; [intros err [] |]. split; [intros name content err [] | intros name r []].
  - cbn [range] in H.
    destruct (ReadRuleSetDirectory_entry dirname x (rulesets, errors))
      as [[rulesets1 errors1] | msg] eqn:Hstep; [| discriminate].
    cbn [mbind Exec_bind] in H.
    destruct (IH _ _ _ _ H) as (new & -> & Hsize & Hdom & Hnew & Herr & Hall & Hacc).
    apply ReadRuleSetDirectory_entry_step in Hstep.
    inversion Hstep as [x0 m0 e0 Hskip | name content err m0 e0 Hrefused
                       | name r m0 e0 Haccepted]; subst.
    + exists new. split; [reflexivity |]. split.
      { unfold files in *. cbn [List.filter].
        destruct (negb (IsDir x)); simpl; lia. }
      split; [exact Hdom |]. split.
      { intros k r Hr. destruct (Hnew k r Hr) as [Hold | (name & Hin & Hrest)];
          [now left | right]. exists name. split; [now right | exact Hrest]. }
      split.
      { intros err Hin. destruct (Herr err Hin) as (name & content & Hin' & Hrest).
        exists name, content. split; [now right | exact Hrest]. }
      split.
      { intros name content err [-> | Hin] Hrefused; [| now apply (Hall name content)].
        destruct Hrefused as (_ & Hh & _). destruct Hskip as [Hd | Hd]; simpl in Hd;
          congruence. }
      { intros name r [-> | Hin] Haccepted; [| now apply (Hacc name)].
        destruct Haccepted as (_ & Hh & _). destruct Hskip as [Hd | Hd]; simpl in Hd;
          congruence. }
    + exists (err :: new). split; [now rewrite <- app_assoc |]. split.
      { unfold files in *. simpl. lia. }
      split; [exact Hdom |]. split.
      { intros k r Hr. destruct (Hnew k r Hr) as [Hold | (name' & Hin & Hrest)];
          [now left | right]. exists name'. split; [now right | exact Hrest]. }
      split.
      { intros err' [<- | Hin].
        - exists name, content. split; [now left | exact Hrefused].
        - destruct (Herr err' Hin) as (name' & content' & Hin' & Hrest).
          exists name', content'. split; [now right | exact Hrest]. }
      split.
      { intros name' content' err' [[= <- <-] | Hin] Hrefused';
          [| right; now apply (Hall name' content')].
        left. destruct Hrefused as (_ & _ & [Hc | (r & Hc & Hv)]),
                Hrefused' as (_ & _ & [Hc' | (r' & Hc' & Hv')]);
          rewrite Hc in Hc'; try discriminate; [congruence |].
        injection Hc' as <-. congruence. }
      { intros name' r [[= <- ->] | Hin] Haccepted; [| now apply (Hacc name')].
        destruct Hrefused as (_ & _ & [Hc | (r' & [= <-] & Hv)]); [discriminate |].
        destruct Haccepted as (_ & _ & Hv'). congruence. }
    + exists new. split; [reflexivity |]. split.
      { unfold files in *. simpl.
        pose proof (size_insert_le rulesets (RuleSetName_of r) r). lia. }
      split.
      { intros k Hk. apply Hdom. destruct (decide (RuleSetName_of r = k)) as [<- | Hne].
        - rewrite lookup_insert_eq. now eexists.
        - now rewrite lookup_insert_ne. }
      split.
      { intros k r' Hr. destruct (Hnew k r' Hr) as [Hold | (name' & Hin & Hrest)].
        - destruct (decide (RuleSetName_of r = k)) as [<- | Hne].
          + rewrite lookup_insert_eq in Hold. injection Hold as <-. right.
            exists name. split; [now left | auto].
          + rewrite lookup_insert_ne in Hold by exact Hne. now left.
        - right. exists name'. split; [now right | exact Hrest]. }
      split.
      { intros err Hin. destruct (Herr err Hin) as (name' & content' & Hin' & Hrest).
        exists name', content'. split; [now right | exact Hrest]. }
      split.
      { intros name' content' err [[= <- <-] | Hin] Hrefused;
          [| now apply (Hall name' content')].
        destruct Hrefused as (_ & _ & [Hc | (r' & [= <-] & Hv)]); [discriminate |].
        destruct Haccepted as (_ & _ & Hv'). congruence. }
      { intros name' r' [[= <- <-] | Hin] Haccepted'; [| now apply (Hacc name')].
        apply Hdom. rewrite lookup_insert_eq. now eexists. }
Qed.

(** The ways [ReadRuleSetDirectory] returns. *)
Lemma ReadRuleSetDirectory_run fs dirname rulesets errors warning :
  ReadRuleSetDirectory fs dirname = Ret (rulesets, errors, warning) ->
  warning = []
  /\ ((rulesets = ∅ /\ errors = [] /\ fs dirname = NotExist)
      \/ (rulesets = ∅
          /\ exists err, errors = [err]
                         /\ (fs dirname = StatFails err \/ fs dirname = Present (Err err)))
      \/ exists entries,
           fs dirname = Present (Ok entries)
           /\ range (ReadRuleSetDirectory_entry dirname) entries (∅, [])
              = Ret (rulesets, errors)).
Proof.
  unfold ReadRuleSetDirectory, utils.Exists, ReadDir.
  destruct (fs dirname) as [err | | [entries | err]]; intros H.
  - injection H as <- <- <-. split; [reflexivity |]. right. left. eauto.
  - injection H as <- <- <-. split; [reflexivity |]. left. auto.
  - destruct (range _ entries _) as [[rulesets1 errors1] | msg] eqn:Hrun; [| discriminate].
    cbn [mbind Exec_bind] in H. injection H as <- <- <-.
    split; [reflexivity |]. right. right. eauto.
  - injection H as <- <- <-. split; [reflexivity |]. right. left. eauto.
Qed.

(** X5. Every ruleset of the returned map was decoded from a file of the
    directory whose name does not start with a dot and passed [Validate] under
    that file's path; it sits in the map under its own name. The reader never
    returns a warning. *)
Theorem rulesets_come_from_accepted_files fs dirname rulesets errors warning :
  ReadRuleSetDirectory fs dirname = Ret (rulesets, errors, warning) ->
  warning = []
  /\ forall k r,
       rulesets !! k = Some r ->
       exists entries name,
         fs dirname = Present (Ok entries)
         /\ In (File name (Ok r)) entries
         /\ ruleset_file_accepted dirname name r
         /\ RuleSetName_of r = k.
Proof.
  intros H. apply ReadRuleSetDirectory_run in H.
  destruct H as (Hw & [(-> & _) | [(-> & _) | (entries & Hfs & Hrun)]]);
    (split; [exact Hw |]); intros k r Hr; try (now rewrite lookup_empty in Hr).
  destruct (rulesets_loop_spec _ _ _ _ _ _ Hrun) as (new & _ & _ & _ & Hnew & _).
  destruct (Hnew k r Hr) as [Hold | (name & Hin & Hacc & Hname)].
  - now rewrite lookup_empty in Hold.
  - exists entries, name. auto.
Qed.

(** X6. When the directory is listed, every file whose name does not start with a
    dot is accounted for: a file that fails to decode or to validate has its
    error in the returned errors, an accepted file has its name in the
    returned map; every returned error is the error of such a file, and the
    errors and the rulesets together are no more than the files. *)
Theorem ruleset_files_accounted_for fs dirname entries rulesets errors warning :
  ReadRuleSetDirectory fs dirname = Ret (rulesets, errors, warning) ->
  fs dirname = Present (Ok entries) ->
  (forall name content err,
      In (File name content) entries ->
      ruleset_file_refused dirname name content err -> In err errors)
  /\ (forall name r,
        In (File name (Ok r)) entries -> ruleset_file_accepted dirname name r ->
        is_Some (rulesets !! RuleSetName_of r))
  /\ (forall err, In err errors ->
        exists name content, In (File name content) entries
                             /\ ruleset_file_refused dirname name content err)
  /\ length errors + size rulesets <= length (files entries).
Proof.
  intros H Hfs. apply ReadRuleSetDirectory_run in H.
  destruct H as (_ & [(_ & _ & Hno) | [(_ & err & _ & [Hno | Hno]) | (entries' & Hfs' & Hrun)]]);
    try congruence.
  rewrite Hfs in Hfs'. injection Hfs' as <-.
  destruct (rulesets_loop_spec _ _ _ _ _ _ Hrun)
    as (new & -> & Hsize & _ & _ & Herr & Hall & Hacc).
  rewrite map_size_empty in Hsize. simpl. auto.
Qed.

Lemma ReadRuleSetDirectory_entry_accepts dirname name r rulesets errors :
  ruleset_file_accepted dirname name r ->
  ReadRuleSetDirectory_entry dirname (File name (Ok r)) (rulesets, errors)
  = Ret (<[RuleSetName_of r := r]> rulesets, errors).
Proof.
  intros (Hne & Hh & Hv). destruct name as [|c rest]; [congruence |].
  cbn [ReadRuleSetDirectory_entry byte0 mbind Exec_bind NewRuleSet].
  simpl in Hh. rewrite Hh, Hv. reflexivity.
Qed.

(** X7. Under a name the map holds the ruleset of the last accepted file that
    declares the name: a later accepted file silently replaces an earlier one,
    whatever the two files are called. *)
Theorem last_accepted_ruleset_wins fs dirname before name r after
  rulesets errors warning :
  ReadRuleSetDirectory fs dirname = Ret (rulesets, errors, warning) ->
  fs dirname = Present (Ok (before ++ File name (Ok r) :: after)%list) ->
  ruleset_file_accepted dirname name r ->
  (forall name' r',
      In (File name' (Ok r')) after -> ruleset_file_accepted dirname name' r' ->
      RuleSetName_of r' <> RuleSetName_of r) ->
  rulesets !! RuleSetName_of r = Some r.
Proof.
  intros H Hfs Hacc Hlater. apply ReadRuleSetDirectory_run in H.
  destruct H as (_ & [(_ & _ & Hno) | [(_ & err & _ & [Hno | Hno]) | (entries & Hfs' & Hrun)]]);
    try congruence.
  rewrite Hfs in Hfs'. injection Hfs' as <-.
  rewrite range_app in Hrun.
  destruct (range _ before _) as [[rulesets1 errors1] | msg]; [| discriminate].
  cbn [mbind Exec_bind range] in Hrun.
  rewrite (ReadRuleSetDirectory_entry_accepts _ _ _ _ _ Hacc) in Hrun.
  cbn [mbind Exec_bind] in Hrun.
  destruct (rulesets_loop_spec _ _ _ _ _ _ Hrun) as (new & _ & _ & Hdom & Hnew & _).
  destruct (Hdom (RuleSetName_of r)) as [r' Hr'].
  { rewrite lookup_insert_eq. now eexists. }
  destruct (Hnew _ _ Hr') as [Hold | (name' & Hin & Hacc' & Hname)].
  - rewrite lookup_insert_eq in Hold. congruence.
  - destruct (Hlater name' r' Hin Hacc' Hname).
Qed.

Lemma range_returns {A S : Type} (body : A -> S -> Exec S) (l : list A) :
  Forall (fun x => forall s, returns (body x s)) l ->
  forall s, returns (range body l s).
Proof.
  intros H. induction H as [|x l Hx _ IH]; intros s; simpl.
  - now exists s.
  - destruct (Hx s) as [s1 ->]. apply IH.
Qed.

(** A file of a ruleset listing that cannot make the reader panic: its name is
    not empty, and if it decodes, no include entry of its ruleset is empty. *)
Definition ruleset_entry_safe (x : Entry RuleSet) : Prop :=
  match x with
  | Directory _ _ => True
  | File name content =>
      name <> ""
      /\ forall r, content = Ok r -> Forall (fun on => on <> "") r.(Spec).(On).(Include)
  end.

(** X8. [ReadRuleSetDirectory] returns, whatever the directory holds, as long as
    no file of the listing has an empty name and no decoded ruleset has an
    empty include entry. *)
Theorem ReadRuleSetDirectory_returns fs dirname :
  (forall entries, fs dirname = Present (Ok entries) -> Forall ruleset_entry_safe entries) ->
  returns (ReadRuleSetDirectory fs dirname).
Proof.
  intros Hsafe. unfold ReadRuleSetDirectory, utils.Exists, ReadDir.
  destruct (fs dirname) as [err | | [entries | err]]; try (eexists; reflexivity).
  destruct (range_returns (ReadRuleSetDirectory_entry dirname) entries) with (s := (∅ : gmap string RuleSet, [] : list error))
    as [[rulesets errors] ->].
  - eapply Forall_impl; [exact (Hsafe entries eq_refl) |].
    intros [name content | name listing] Hx [rulesets errors];
      cbn [ReadRuleSetDirectory_entry]; [| eexists; reflexivity].
    destruct Hx as [Hne Hinc]. destruct name as [|c rest]; [congruence |].
    cbn [byte0 mbind Exec_bind]. destruct (Ascii.eqb c "."%char); [eexists; reflexivity |].
    destruct content as [r | err]; cbn [NewRuleSet]; [| eexists; reflexivity].
    destruct (Validate_returns r (filepath.Join dirname (String c rest)) (Hinc r eq_refl))
      as [[err |] ->]; eexists; reflexivity.
  - eexists; reflexivity.
Qed.

(** ** The repository reader, path by path *)

Section RepositoryReader.

Context {Team User : Type}.
Variable GithubAnsiString : string -> string.
Variable teams : gmap string Team.
Variable externalUsers : gmap string User.

(** What the archive phase hands over when the function goes on: nothing when
    the directory does not exist, the outcome of the loop when it is listed. *)
Lemma ReadRepositories_phase1_goes_on fs a st :
  ReadRepositories_phase1 GithubAnsiString teams externalUsers fs a = Ret (inr st) ->
  (fs a = NotExist /\ st = (∅, [], []))
  \/ exists aentries,
       fs a = Present (Ok aentries)
       /\ range (ReadRepositories_archived GithubAnsiString teams externalUsers a)
            aentries (∅, [], []) = Ret st.
Proof.
  unfold ReadRepositories_phase1, utils.Exists, ReadDir.
  destruct (fs a) as [err | | [aentries | err]]; intros H; try discriminate.
  - left. split; [reflexivity | congruence].
  - right. exists aentries. split; [reflexivity |].
    destruct (range _ aentries _) as [st1 | msg]; [| discriminate].
    cbn [mbind Exec_bind] in H. congruence.
Qed.

(** Every way [ReadRepositories] returns. *)
Lemma ReadRepositories_paths fs a t result_map errors warning :
  ReadRepositories GithubAnsiString teams externalUsers fs a t
  = Ret (result_map, errors, warning) ->
  (exists err,
      (fs a = StatFails err /\ result_map = Some ∅ \/
       fs a = Present (Err err) /\ result_map = None)
      /\ errors = [err] /\ warning = [])
  \/ exists repos1 errors1 warning1,
       ReadRepositories_phase1 GithubAnsiString teams externalUsers fs a
       = Ret (inr (repos1, errors1, warning1))
       /\ ((fs t = NotExist /\ result_map = Some repos1
            /\ errors = errors1 /\ warning = warning1)
           \/ (exists err,
                  (fs t = StatFails err /\ result_map = Some repos1 \/
                   fs t = Present (Err err) /\ result_map = None)
                  /\ errors = (errors1 ++ [err])%list /\ warning = warning1)
           \/ exists entries repos,
                fs t = Present (Ok entries)
                /\ range (ReadRepositories_team GithubAnsiString teams externalUsers a t)
                     entries (repos1, errors1, warning1)
                   = Ret (repos, errors, warning)
                /\ result_map = Some repos).
Proof.
  unfold ReadRepositories.
  destruct (ReadRepositories_phase1 _ _ _ fs a)
    as [[early | [[repos1 errors1] warning1]] | msg] eqn:Hp1;
    cbn [mbind Exec_bind]; intros H; [| | discriminate].
  - left. injection H as ->.
    unfold ReadRepositories_phase1, utils.Exists, ReadDir in Hp1.
    destruct (fs a) as [err | | [aentries | err]]; try discriminate.
    + injection Hp1 as <- <- <-. exists err.
      split; [left; split; reflexivity | split; reflexivity].
    + destruct (range _ aentries _); cbn [mbind Exec_bind] in Hp1; discriminate.
    + injection Hp1 as <- <- <-. exists err.
      split; [right; split; reflexivity | split; reflexivity].
  - right. exists repos1, errors1, warning1. split; [reflexivity |].
    unfold utils.Exists, ReadDir in H.
    destruct (fs t) as [err | | [entries | err]].
    + injection H as <- <- <-. right. left. exists err.
      split; [left; split; reflexivity | split; reflexivity].
    + injection H as <- <- <-. left. repeat split.
    + right. right.
      destruct (range _ entries _) as [[[repos2 errors2] warning2] | msg] eqn:Hrun;
        [| discriminate].
      cbn [mbind Exec_bind] in H. injection H as <- <- <-.
      exists entries, repos2. split; [reflexivity |]. split; [exact Hrun | reflexivity].
    + injection H as <- <- <-. right. left. exists err.
      split; [right; split; reflexivity | split; reflexivity].
Qed.

(** X10. A nil map never comes alone: the errors end with the error of the listing
    that failed, of the archive directory or of the teams directory. *)
Theorem nil_map_comes_with_the_listing_error fs a t errors warning :
  ReadRepositories GithubAnsiString teams externalUsers fs a t
  = Ret (None, errors, warning) ->
  exists earlier err,
    errors = (earlier ++ [err])%list
    /\ (fs a = Present (Err err) \/ fs t = Present (Err err)).
Proof.
  intros H. apply ReadRepositories_paths in H.
  destruct H as [(err & [[_ Hm] | [Hfs _]] & -> & _)
                | (repos1 & errors1 & warning1 & _
                   & [(_ & Hm & _) | [(err & [[_ Hm] | [Hfs _]] & -> & _)
                                     | (entries & repos & _ & _ & Hm)]])];
    try discriminate.
  - exists [], err. auto.
  - exists errors1, err. auto.
Qed.

(** X11. Every repository of the returned map sits under its own name, and is
    either archived and without owner, loaded from a valid file of the archive
    directory, or not archived and with an owner. A valid file of the archive
    directory has its name in the map, with an archived repository, whatever
    the teams tree holds. *)
Theorem archived_repositories_in_the_result fs a t repos errors warning :
  ReadRepositories GithubAnsiString teams externalUsers fs a t
  = Ret (Some repos, errors, warning) ->
  (forall k r,
      repos !! k = Some r ->
      RepoName r = k
      /\ ((r.(Archived) = true /\ r.(Owner) = None
           /\ exists aentries fname doc,
                fs a = Present (Ok aentries) /\ in_archive aentries fname doc
                /\ valid_document GithubAnsiString teams externalUsers a fname doc
                /\ r = loaded_archived doc a fname)
          \/ (r.(Archived) = false /\ exists d, r.(Owner) = Some d)))
  /\ (forall aentries fname doc,
        fs a = Present (Ok aentries) -> in_archive aentries fname doc ->
        valid_document GithubAnsiString teams externalUsers a fname doc ->
        exists r, repos !! doc_name doc = Some r
                  /\ r.(Archived) = true /\ r.(Owner) = None).
Proof.
  intros Hrun. apply ReadRepositories_run in Hrun.
  destruct Hrun as [[-> (err & Herr)] | (repos1 & errors1 & warning1 & Hp1 & Hteams)].
  { split.
    - intros k r Hr. now rewrite lookup_empty in Hr.
    - intros aentries fname doc Hfs. congruence. }
  apply ReadRepositories_phase1_spec in Hp1. destruct Hp1 as (Harch & Hall1).
  assert (Hfirst : forall k r, repos1 !! k = Some r ->
                     RepoName r = k /\ r.(Archived) = true /\ r.(Owner) = None
                     /\ exists aentries fname doc,
                          fs a = Present (Ok aentries) /\ in_archive aentries fname doc
                          /\ valid_document GithubAnsiString teams externalUsers a fname doc
                          /\ r = loaded_archived doc a fname).
  { intros k r Hr. destruct (Harch k r Hr) as (aentries & fname & doc & H1 & H2 & H3 & -> & ->).
    repeat split. eauto 8. }
  assert (Hkeep : forall k r, repos1 !! k = Some r -> repos !! k = Some r).
  { destruct Hteams as [[-> _] | (entries & _ & Hloop)]; [auto |].
    apply teams_loop_spec in Hloop. destruct Hloop as (? & ? & _ & _ & Hk & _). exact Hk. }
  split.
  - intros k r Hr.
    destruct Hteams as [[-> _] | (entries & _ & Hloop)].
    { destruct (Hfirst k r Hr) as (Hn & Hrest). split; [exact Hn | now left]. }
    apply teams_loop_spec in Hloop. destruct Hloop as (? & ? & _ & _ & _ & Hnew & _).
    destruct (Hnew k r Hr) as [Hold | (p & d & fname & doc & _ & _ & -> & ->)].
    + destruct (Hfirst k r Hold) as (Hn & Hrest). split; [exact Hn | now left].
    + split; [reflexivity |]. right. split; [reflexivity | now exists d].
  - intros aentries fname doc Hfs Hin Hvalid.
    destruct (Hall1 _ _ _ Hfs Hin Hvalid) as [r Hr]. exists r.
    split; [now apply Hkeep |]. destruct (Hfirst _ _ Hr) as (_ & Ha & Ho & _). auto.
Qed.

End RepositoryReader.

(** ** The walk of the teams tree, file by file *)

(** [reaches dirPath dirName sube p d fname content]: as [visits], for a file
    with any content, decoded or not. *)
Inductive reaches : string -> string -> Entry RepositoryDocument ->
                    string -> string -> string -> result RepositoryDocument -> Prop :=
| reaches_file dirPath dirName fname content :
    reaches dirPath dirName (File fname content) dirPath dirName fname content
| reaches_directory dirPath dirName name subentries sube p d fname content :
    name <> "" ->
    hidden name = false ->
    In sube subentries ->
    reaches (filepath.Join dirPath name) name sube p d fname content ->
    reaches dirPath dirName (Directory name (Ok subentries)) p d fname content.

(** [unlisted dirPath sube p err]: the iteration on [sube] enters the
    directory of path [p], whose listing fails with [err]. *)
Inductive unlisted : string -> Entry RepositoryDocument -> string -> error -> Prop :=
| unlisted_here dirPath name err :
    name <> "" ->
    hidden name = false ->
    unlisted dirPath (Directory name (Err err)) (filepath.Join dirPath name) err
| unlisted_below dirPath name subentries sube p err :
    name <> "" ->
    hidden name = false ->
    In sube subentries ->
    unlisted (filepath.Join dirPath name) sube p err ->
    unlisted dirPath (Directory name (Ok subentries)) p err.

Lemma visits_reaches dirPath dirName sube p d fname doc :
  visits dirPath dirName sube p d fname doc ->
  reaches dirPath dirName sube p d fname (Ok doc).
Proof.
  intros H. induction H; [constructor | econstructor; eauto].
Qed.

(** The file [fname], with any content, sits in the directory of path [p] and
    name [d] under the top-level team directory [T]. *)
Definition file_in_team_tree (teamDirname : string)
  (entries : list (Entry RepositoryDocument))
  (T p d fname : string) (content : result RepositoryDocument) : Prop :=
  exists tentries sube,
    In (Directory T (Ok tentries)) entries
    /\ In sube tentries
    /\ reaches (filepath.Join teamDirname T) T sube p d fname content.

(** The directory of path [p], a top-level team directory or one below, is
    entered by the walk and its listing fails with [err]. *)
Definition unlisted_in_team_tree (teamDirname : string)
  (entries : list (Entry RepositoryDocument)) (p : string) (err : error) : Prop :=
  (exists T, In (Directory T (Err err)) entries /\ p = filepath.Join teamDirname T)
  \/ exists T tentries sube,
       In (Directory T (Ok tentries)) entries
       /\ In sube tentries
       /\ unlisted (filepath.Join teamDirname T) sube p err.

(** A file name the walk takes for a repository definition. *)
Definition candidate (fname : string) : Prop :=
  filepath.Ext fname = ".yaml" /\ fname <> "team.yaml".

(** The second location the error of a name defined twice gives: the owner of
    the entry found joined with the name, or the archive directory joined with
    the name when the entry has no owner. *)
Definition existing_path (archivedDirPath : string) (found : Repository) (name : string)
  : string :=
  match found.(Owner) with
  | Some owner => filepath.Join owner name
  | None => filepath.Join archivedDirPath name
  end.

Section TeamsWalk.

Context {Team User : Type}.
Variable GithubAnsiString : string -> string.
Variable teams : gmap string Team.
Variable externalUsers : gmap string User.

(** The outcome of [Validate] on the document [doc] of the file [fname] of the
    directory [p], called as the walk calls it. *)
Definition validate_at (p fname : string) (doc : RepositoryDocument) : option error :=
  Validate GithubAnsiString teams externalUsers
    (set_DirectoryPath (Unmarshal doc) (filepath.Dir (filepath.Join p fname)))
    (filepath.Join p fname).

(** [err] is the error of the candidate file [fname] of the directory [p]: the
    file does not decode, or its repository is refused by [Validate], or it is
    valid and its name is held in [repos] by the entry [found] the message
    points to. *)
Definition explains (a : string) (repos : gmap string Repository)
  (p fname : string) (content : result RepositoryDocument) (err : error) : Prop :=
  candidate fname
  /\ (content = Err err
      \/ exists doc,
           content = Ok doc
           /\ (validate_at p fname doc = Some err
               \/ (validate_at p fname doc = None
                   /\ exists found,
                        repos !! doc_name doc = Some found
                        /\ err = defined_twice (doc_name doc) (filepath.Join p fname)
                                   (existing_path a found (doc_name doc))))).

(** The candidate file was loaded: it is valid and the map holds its
    repository under its name. *)
Definition was_loaded (repos : gmap string Repository)
  (p d fname : string) (content : result RepositoryDocument) : Prop :=
  exists doc,
    content = Ok doc /\ validate_at p fname doc = None
    /\ repos !! doc_name doc = Some (loaded doc p fname d).

(** What a stretch of the walk does, [V] telling the files it comes to and
    [U] the directories it fails to list: no warning is added, the entries of
    the map stay, every candidate file is loaded or has its error among the
    new ones, every listing error is among them, and every new error is one
    of these. *)
Definition walk_account (a : string)
  (V : string -> string -> string -> result RepositoryDocument -> Prop)
  (U : string -> error -> Prop)
  (st st' : ReposState) : Prop :=
  let '(repos, errors, warnings) := st in
  let '(repos', errors', warnings') := st' in
  exists new_errors,
    errors' = (errors ++ new_errors)%list
    /\ warnings' = warnings
    /\ (forall k r, repos !! k = Some r -> repos' !! k = Some r)
    /\ (forall p d fname content,
          V p d fname content -> candidate fname ->
          was_loaded repos' p d fname content
          \/ exists err, In err new_errors /\ explains a repos' p fname content err)
    /\ (forall p err, U p err -> In err new_errors)
    /\ (forall err, In err new_errors ->
          (exists p, U p err)
          \/ exists p d fname content,
               V p d fname content /\ explains a repos' p fname content err).

Lemma explains_kept a repos repos' p fname content err :
  (forall k r, repos !! k = Some r -> repos' !! k = Some r) ->
  explains a repos p fname content err -> explains a repos' p fname content err.
Proof.
  intros Hk (Hc & [H | (doc & Hd & [H | (Hv & found & Hf & He)])]);
    (split; [exact Hc |]); [now left | right; exists doc; auto |].
  right. exists doc. split; [exact Hd |]. right. split; [exact Hv |].
  exists found. split; [now apply Hk | exact He].
Qed.

Lemma was_loaded_kept repos repos' p d fname content :
  (forall k r, repos !! k = Some r -> repos' !! k = Some r) ->
  was_loaded repos p d fname content -> was_loaded repos' p d fname content.
Proof.
  intros Hk (doc & Hd & Hv & Hl). exists doc. auto.
Qed.

Lemma walk_account_same a
  (V : string -> string -> string -> result RepositoryDocument -> Prop)
  (U : string -> error -> Prop) st :
  (forall p d fname content, V p d fname content -> candidate fname -> False) ->
  (forall p err, U p err -> False) ->
  walk_account a V U st st.
Proof.
  intros HV HU. destruct st as [[m e] w]. exists [].
  split; [now rewrite app_nil_r |]. split; [reflexivity |]. split; [auto |].
  split; [intros p d fname content Hv Hc; destruct (HV _ _ _ _ Hv Hc) |].
  split; [intros p err Hu; destruct (HU _ _ Hu) | intros err []].
Qed.

Lemma walk_account_trans a V1 V2 U1 U2 st1 st2 st3 :
  walk_account a V1 U1 st1 st2 -> walk_account a V2 U2 st2 st3 ->
  walk_account a (fun p d fname content => V1 p d fname content \/ V2 p d fname content)
    (fun p err => U1 p err \/ U2 p err) st1 st3.
Proof.
  destruct st1 as [[m1 e1] w1], st2 as [[m2 e2] w2], st3 as [[m3 e3] w3].
  intros (n1 & -> & -> & Hk1 & Ha1 & Hu1 & Hc1) (n2 & -> & -> & Hk2 & Ha2 & Hu2 & Hc2).
  exists (n1 ++ n2)%list.
  split; [now rewrite app_assoc |]. split; [reflexivity |]. split; [auto |].
  split; [| split].
  - intros p d fname content [Hv | Hv] Hc.
    + destruct (Ha1 _ _ _ _ Hv Hc) as [Hl | (err & Hin & He)].
      * left. now apply (was_loaded_kept m2).
      * right. exists err. split; [apply in_or_app; now left |].
        now apply (explains_kept a m2).
    + destruct (Ha2 _ _ _ _ Hv Hc) as [Hl | (err & Hin & He)]; [now left |].
      right. exists err. split; [apply in_or_app; now right | exact He].
  - intros p err [Hu | Hu]; apply in_or_app; [left; eauto | right; eauto].
  - intros err Hin. apply in_app_or in Hin. destruct Hin as [Hin | Hin].
    + destruct (Hc1 err Hin) as [(p & Hu) | (p & d & fname & content & Hv & He)].
      * left. exists p. now left.
      * right. exists p, d, fname, content. split; [now left |].
        now apply (explains_kept a m2).
    + destruct (Hc2 err Hin) as [(p & Hu) | (p & d & fname & content & Hv & He)].
      * left. exists p. now right.
      * right. exists p, d, fname, content. split; [now right | exact He].
Qed.

Lemma walk_account_iff a V V' U U' st st' :
  (forall p d fname content, V p d fname content <-> V' p d fname content) ->
  (forall p err, U p err <-> U' p err) ->
  walk_account a V U st st' -> walk_account a V' U' st st'.
Proof.
  destruct st as [[m e] w], st' as [[m' e'] w'].
  intros HV HU (n & -> & -> & Hk & Ha & Hu & Hc). exists n.
  split; [reflexivity |]. split; [reflexivity |]. split; [exact Hk |].
  split; [| split].
  - intros p d fname content Hv. apply Ha. now apply HV.
  - intros p err H. apply (Hu p). now apply HU.
  - intros err Hin. destruct (Hc err Hin) as [(p & H) | (p & d & fname & content & Hv & He)].
    + left. exists p. now apply HU.
    + right. exists p, d, fname, content. split; [now apply HV | exact He].
Qed.

Lemma walk_account_frame a V U repos repos' suberrs subwarns errors warnings :
  walk_account a V U (repos, [], []) (repos', suberrs, subwarns) ->
  walk_account a V U (repos, errors, warnings)
    (repos', (errors ++ suberrs)%list, (warnings ++ subwarns)%list).
Proof.
  intros (n & -> & -> & Hrest). exists n.
  split; [reflexivity |]. split; [now rewrite app_nil_r | exact Hrest].
Qed.

Lemma range_walk_account {A : Type} a (body : A -> ReposState -> Exec ReposState)
  (VA : A -> string -> string -> string -> result RepositoryDocument -> Prop)
  (UA : A -> string -> error -> Prop) (l : list A) :
  Forall (fun x => forall st st', body x st = Ret st' ->
                                  walk_account a (VA x) (UA x) st st') l ->
  forall st st',
    range body l st = Ret st' ->
    walk_account a
      (fun p d fname content => exists x, In x l /\ VA x p d fname content)
      (fun p err => exists x, In x l /\ UA x p err) st st'.
Proof.
  intros H. induction H as [|x l Hx _ IH]; intros st st' Hrun.
  - simpl in Hrun. injection Hrun as <-. apply walk_account_same.
    + intros p d fname content (x & [] & _).
    + intros p err (x & [] & _).
  - cbn [range] in Hrun. destruct (body x st) as [st1 | msg] eqn:Hb; [| discriminate].
    cbn [mbind Exec_bind] in Hrun.
    eapply walk_account_iff;
      [| | exact (walk_account_trans _ _ _ _ _ _ _ _ (Hx _ _ Hb) (IH _ _ Hrun))].
    + intros p d fname content. simpl. split.
      * intros [Hv | (y & Hy & Hv)]; [exists x | exists y]; auto.
      * intros (y & [<- | Hy] & Hv); [left | right; exists y]; auto.
    + intros p err. simpl. split.
      * intros [Hv | (y & Hy & Hv)]; [exists x | exists y]; auto.
      * intros (y & [<- | Hy] & Hv); [left | right; exists y]; auto.
Qed.


Lemma walk_file_account a dirPath dirName name content st st' :
  recursiveReadRepositories_entry GithubAnsiString teams externalUsers
    a dirPath dirName (File name content) st = Ret st' ->
  walk_account a (reaches dirPath dirName (File name content))
    (unlisted dirPath (File name content)) st st'.
Proof.
  destruct st as [[repos errors] warnings].
  cbn [recursiveReadRepositories_entry]. intros H.
  assert (HU : forall p err, unlisted dirPath (File name content) p err -> False)
    by (intros p err Hu; inversion Hu).
  destruct ((filepath.Ext name =? ".yaml") && negb (name =? "team.yaml")) eqn:Hc.
  2: { injection H as <-. apply walk_account_same; [| exact HU].
       intros p d fname content' Hv (Hext & Hteam). inversion Hv; subst.
       apply String.eqb_eq in Hext. apply String.eqb_neq in Hteam.
       now rewrite Hext, Hteam in Hc. }
  apply andb_true_iff in Hc. destruct Hc as [Hext Hteam].
  apply String.eqb_eq in Hext. apply negb_true_iff, String.eqb_neq in Hteam.
  assert (Hcand : candidate name) by (split; assumption).
  destruct content as [doc | err]; cbn [NewRepository] in H.
  2: { injection H as <-. exists [err].
       split; [reflexivity |]. split; [reflexivity |]. split; [auto |].
       split; [| split].
       - intros p d fname content' Hv _. inversion Hv; subst. right. exists err.
         split; [now left |]. split; [exact Hcand | now left].
       - intros p err' Hu. destruct (HU _ _ Hu).
       - intros err' [-> | []]. right. exists dirPath, dirName, name, (Err err').
         split; [constructor |]. split; [exact Hcand | now left]. }
  change (Validate _ _ _ _ _) with (validate_at dirPath name doc) in H.
  destruct (validate_at dirPath name doc) as [err |] eqn:Hval.
  { injection H as <-. exists [err].
    split; [reflexivity |]. split; [reflexivity |]. split; [auto |].
    split; [| split].
    - intros p d fname content' Hv _. inversion Hv; subst. right. exists err.
      split; [now left |]. split; [exact Hcand |]. right. exists doc. auto.
    - intros p err' Hu. destruct (HU _ _ Hu).
    - intros err' [<- | []]. right. exists dirPath, dirName, name, (Ok doc).
      split; [constructor |]. split; [exact Hcand |]. right. exists doc. auto. }
  change (RepoName (set_DirectoryPath (Unmarshal doc) _)) with (doc_name doc) in H.
  destruct (repos !! doc_name doc) as [found |] eqn:Hlook.
  - injection H as <-.
    assert (He : explains a repos dirPath name (Ok doc)
                   (defined_twice (doc_name doc) (filepath.Join dirPath name)
                      (existing_path a found (doc_name doc)))).
    { split; [exact Hcand |]. right. exists doc. split; [reflexivity |]. right.
      split; [exact Hval |]. exists found. auto. }
    eexists [_]. split; [reflexivity |]. split; [reflexivity |]. split; [auto |].
    split; [| split].
    + intros p d fname content' Hv _. inversion Hv; subst. right.
      eexists. split; [now left | exact He].
    + intros p err' Hu. destruct (HU _ _ Hu).
    + intros err' [<- | []]. right. exists dirPath, dirName, name, (Ok doc).
      split; [constructor | exact He].
  - assert (st' = (<[doc_name doc := loaded doc dirPath name dirName]> repos,
                   errors, warnings)) as -> by (injection H as <-; reflexivity).
    exists []. split; [now rewrite app_nil_r |]. split; [reflexivity |].
    split; [| split; [| split]].
    + intros k r Hr. rewrite lookup_insert_ne; [exact Hr | congruence].
    + intros p d fname content' Hv _. inversion Hv; subst. left.
      exists doc. split; [reflexivity |]. split; [exact Hval |].
      apply lookup_insert_eq.
    + intros p err' Hu. destruct (HU _ _ Hu).
    + intros err' [].
Qed.

Lemma walk_entry_account a (sube : Entry RepositoryDocument) :
  forall dirPath dirName st st',
    recursiveReadRepositories_entry GithubAnsiString teams externalUsers
      a dirPath dirName sube st = Ret st' ->
    walk_account a (reaches dirPath dirName sube) (unlisted dirPath sube) st st'.
Proof.
  induction sube as [name content | name err | name entries IH] using Entry_induction;
    intros dirPath dirName st st' H.
  - now apply walk_file_account.
  - destruct st as [[repos errors] warnings].
    rewrite recursiveReadRepositories_entry_directory in H.
    destruct name as [|c rest]; [discriminate |]. cbn [byte0 mbind Exec_bind] in H.
    destruct (Ascii.eqb c "."%char) eqn:Hdot; cbn [negb] in H.
    + injection H as <-. apply walk_account_same.
      * intros p d fname content Hv _. inversion Hv.
      * intros p err' Hu. inversion Hu; subst. simpl in *. congruence.
    + cbn [recursiveReadRepositories mbind Exec_bind] in H. injection H as <-.
      exists [err]. split; [reflexivity |]. split; [now rewrite app_nil_r |].
      split; [auto |]. split; [| split].
      * intros p d fname content Hv _. inversion Hv.
      * intros p err' Hu. inversion Hu; subst. now left.
      * intros err' [<- | []]. left. exists (filepath.Join dirPath (String c rest)).
        constructor; [discriminate | exact Hdot].
  - destruct st as [[repos errors] warnings].
    rewrite recursiveReadRepositories_entry_directory in H.
    destruct name as [|c rest]; [discriminate |]. cbn [byte0 mbind Exec_bind] in H.
    destruct (Ascii.eqb c "."%char) eqn:Hdot; cbn [negb] in H.
    + injection H as <-. apply walk_account_same.
      * intros p d fname content Hv _. inversion Hv; subst. simpl in *. congruence.
      * intros p err' Hu. inversion Hu; subst. simpl in *. congruence.
    + cbn [recursiveReadRepositories] in H.
      destruct (range _ entries _) as [[[repos' suberrs] subwarns] | msg] eqn:Hrun;
        [| discriminate].
      cbn [mbind Exec_bind] in H. injection H as <-.
      apply walk_account_frame.
      eapply walk_account_iff;
        [| | eapply (range_walk_account a _ (reaches _ (String c rest))
                       (unlisted _) entries); [| exact Hrun]].
      * intros p d fname content. split.
        -- intros (x & Hx & Hv).
           apply (reaches_directory _ _ _ _ x);
             [discriminate | exact Hdot | exact Hx | exact Hv].
        -- intros Hv. inversion Hv; subst. eauto.
      * intros p err. split.
        -- intros (x & Hx & Hu).
           apply (unlisted_below _ _ _ x);
             [discriminate | exact Hdot | exact Hx | exact Hu].
        -- intros Hu. inversion Hu; subst. eauto.
      * eapply Forall_impl; [exact IH |]. intros x Hx st st'. apply Hx.
Qed.

Lemma teams_loop_account a t entries st st' :
  range (ReadRepositories_team GithubAnsiString teams externalUsers a t) entries st
  = Ret st' ->
  walk_account a
    (fun p d fname content => exists T, file_in_team_tree t entries T p d fname content)
    (unlisted_in_team_tree t entries) st st'.
Proof.
  intros H.
  pose (VA := fun (team : Entry RepositoryDocument) p d fname content =>
                match team with
                | Directory T (Ok tentries) =>
                    exists sube, In sube tentries
                                 /\ reaches (filepath.Join t T) T sube p d fname content
                | _ => False
                end).
  pose (UA := fun (team : Entry RepositoryDocument) p err =>
                match team with
                | Directory T (Ok tentries) =>
                    exists sube, In sube tentries /\ unlisted (filepath.Join t T) sube p err
                | Directory T (Err err') => err = err' /\ p = filepath.Join t T
                | File _ _ => False
                end).
  eapply walk_account_iff;
    [| | eapply (range_walk_account a _ VA UA entries); [| exact H]].
  - intros p d fname content. split.
    + intros (x & Hx & Hv). destruct x as [name c | T [tentries | err]];
        simpl in Hv; try contradiction.
      destruct Hv as (sube & Hs & Hv). exists T, tentries, sube. auto.
    + intros (T & tentries & sube & Hd & Hs & Hv).
      exists (Directory T (Ok tentries)). split; [exact Hd |]. simpl. eauto.
  - intros p err. split.
    + intros (x & Hx & Hu). destruct x as [name c | T [tentries | err']];
        simpl in Hu; try contradiction.
      * destruct Hu as (sube & Hs & Hu). right. exists T, tentries, sube. auto.
      * destruct Hu as [-> ->]. left. eauto.
    + intros [(T & Hd & ->) | (T & tentries & sube & Hd & Hs & Hu)].
      * exists (Directory T (Err err)). split; [exact Hd |]. simpl. auto.
      * exists (Directory T (Ok tentries)). split; [exact Hd |]. simpl. eauto.
  - apply Forall_forall. intros x _ [[repos errors] warnings] st2.
    destruct x as [name c | T listing]; cbn [ReadRepositories_team]; intros Hstep.
    + injection Hstep as <-. apply walk_account_same; intros; contradiction.
    + destruct (recursiveReadRepositories _ _ _ _ _ _ _ _)
        as [[[repos' suberrs] subwarns] | msg] eqn:Hrun; [| discriminate].
      cbn [mbind Exec_bind] in Hstep. injection Hstep as <-.
      apply walk_account_frame.
      destruct listing as [tentries | err]; cbn [recursiveReadRepositories] in Hrun.
      * eapply walk_account_iff;
          [| | eapply (range_walk_account a _ (reaches (filepath.Join t T) T)
                         (unlisted (filepath.Join t T)) tentries); [| exact Hrun]].
        -- intros p d fname content. reflexivity.
        -- intros p err. reflexivity.
        -- apply Forall_forall. intros x _ st1 st3. apply walk_entry_account.
      * injection Hrun as <- <- <-. exists [err].
        split; [reflexivity |]. split; [reflexivity |]. split; [auto |].
        split; [| split].
        -- intros p d fname content [].
        -- intros p err' [-> _]. now left.
        -- intros err' [<- | []]. left. exists (filepath.Join t T). simpl. auto.
Qed.


(** *** The archive loop, file by file *)

Definition archive_warning (fname : string) : Warning :=
  "file " ++ fname ++ " doesn't have a .yaml extension".

(** The archive loop warns about the file [fname]. *)
Definition archive_file_warned (fname : string) : Prop :=
  fname <> "" /\ hidden fname = false /\ strings.HasSuffix fname ".yaml" = false.

(** [err] is the error of the file [fname] of the archive directory [a]. *)
Definition archive_explains (a fname : string) (content : result RepositoryDocument)
  (err : error) : Prop :=
  fname <> "" /\ hidden fname = false /\ strings.HasSuffix fname ".yaml" = true
  /\ (content = Err err
      \/ exists doc, content = Ok doc /\ validate_at a fname doc = Some err).

Lemma ReadRepositories_archived_outcome a x repos errors warning repos' errors' warning' :
  ReadRepositories_archived GithubAnsiString teams externalUsers a x
    (repos, errors, warning) = Ret (repos', errors', warning') ->
  (errors' = errors /\ warning' = warning
   /\ (forall fname content, x = File fname content ->
         ~ archive_file_warned fname /\ forall err, ~ archive_explains a fname content err))
  \/ (exists fname content,
        x = File fname content /\ archive_file_warned fname
        /\ errors' = errors /\ warning' = (warning ++ [archive_warning fname])%list)
  \/ (exists fname content err,
        x = File fname content /\ archive_explains a fname content err
        /\ errors' = (errors ++ [err])%list /\ warning' = warning).
Proof.
  destruct x as [name content | name listing]; cbn [ReadRepositories_archived]; intros H.
  2: { left. injection H as _ <- <-. repeat split; discriminate. }
  destruct name as [|c rest]; [discriminate |]. cbn [byte0 mbind Exec_bind] in H.
  destruct (Ascii.eqb c "."%char) eqn:Hdot.
  { left. injection H as _ <- <-. split; [reflexivity |]. split; [reflexivity |].
    intros fname content' [= <- <-]. split.
    - intros (_ & Hh & _). simpl in Hh. congruence.
    - intros err (_ & Hh & _). simpl in Hh. congruence. }
  destruct (strings.HasSuffix (String c rest) ".yaml") eqn:Hsuf; cbn [negb] in H.
  2: { right. left. injection H as _ <- <-. exists (String c rest), content.
       split; [reflexivity |]. split; [| split; reflexivity].
       split; [discriminate |]. split; [exact Hdot | exact Hsuf]. }
  destruct content as [doc | err]; cbn [NewRepository] in H.
  2: { right. right. injection H as _ <- <-. exists (String c rest), (Err err), err.
       split; [reflexivity |]. split; [| split; reflexivity].
       split; [discriminate |]. split; [exact Hdot |]. split; [exact Hsuf | now left]. }
  change (Validate _ _ _ _ _) with (validate_at a (String c rest) doc) in H.
  destruct (validate_at a (String c rest) doc) as [err |] eqn:Hval.
  { right. right. injection H as _ <- <-. exists (String c rest), (Ok doc), err.
    split; [reflexivity |]. split; [| split; reflexivity].
    split; [discriminate |]. split; [exact Hdot |]. split; [exact Hsuf |].
    right. exists doc. auto. }
  left. injection H as _ <- <-. split; [reflexivity |]. split; [reflexivity |].
  intros fname content' [= <- <-]. split.
  - intros (_ & _ & Hs). congruence.
  - intros err (_ & _ & _ & [Hc | (doc' & [= <-] & Hv)]); [discriminate | congruence].
Qed.

Lemma archive_loop_account a entries :
  forall repos errors warning repos' errors' warning',
    range (ReadRepositories_archived GithubAnsiString teams externalUsers a) entries
      (repos, errors, warning) = Ret (repos', errors', warning') ->
    exists new_errors new_warnings,
      errors' = (errors ++ new_errors)%list
      /\ warning' = (warning ++ new_warnings)%list
      /\ (forall err, In err new_errors <->
            exists fname content, In (File fname content) entries
                                  /\ archive_explains a fname content err)
      /\ (forall w, In w new_warnings <->
            exists fname content, In (File fname content) entries
                                  /\ archive_file_warned fname
                                  /\ w = archive_warning fname).
Proof.
  induction entries as [|x entries IH];
    intros repos errors warning repos' errors' warning' H.
  - simpl in H. injection H as _ <- <-. exists [], [].
    rewrite !app_nil_r. split; [reflexivity |]. split; [reflexivity |].
    split; intros y; (split; [intros [] | intros (fname & content & [] & _)]).
  - cbn [range] in H.
    destruct (ReadRepositories_archived _ _ _ _ _ _) as [[[repos1 errors1] warning1] | msg]
      eqn:Hstep; [| discriminate].
    cbn [mbind Exec_bind] in H.
    destruct (IH _ _ _ _ _ _ H) as (ne & nw & -> & -> & Herr & Hwarn).
    apply ReadRepositories_archived_outcome in Hstep.
    destruct Hstep as [(-> & -> & Hnone)
                      | [(fname0 & content0 & -> & Hw0 & -> & ->)
                        | (fname0 & content0 & err0 & -> & He0 & -> & ->)]].
    + exists ne, nw. split; [reflexivity |]. split; [reflexivity |]. split.
      * intros err. rewrite Herr. split.
        -- intros (fname & content & Hin & He). exists fname, content. split; [now right | exact He].
        -- intros (fname & content & [-> | Hin] & He); [| eauto].
           destruct (Hnone fname content eq_refl) as [_ Hno]. destruct (Hno err He).
      * intros w. rewrite Hwarn. split.
        -- intros (fname & content & Hin & Hrest). exists fname, content.
           split; [now right | exact Hrest].
        -- intros (fname & content & [-> | Hin] & Hw & Hm); [| eauto].
           destruct (Hnone fname content eq_refl) as [Hno _]. destruct (Hno Hw).
    + exists ne, (archive_warning fname0 :: nw).
      split; [reflexivity |]. split; [now rewrite <- app_assoc |]. split.
      * intros err. rewrite Herr. split.
        -- intros (fname & content & Hin & He). exists fname, content. split; [now right | exact He].
        -- intros (fname & content & [[= <- <-] | Hin] & He); [| eauto].
           destruct Hw0 as (_ & _ & Hs), He as (_ & _ & Hs' & _). congruence.
      * intros w. simpl. rewrite Hwarn. split.
        -- intros [<- | (fname & content & Hin & Hrest)].
           ++ exists fname0, content0. auto.
           ++ exists fname, content. split; [now right | exact Hrest].
        -- intros (fname & content & [[= <- <-] | Hin] & Hw & ->); [now left | right; eauto].
    + exists (err0 :: ne), nw.
      split; [now rewrite <- app_assoc |]. split; [reflexivity |]. split.
      * intros err. simpl. rewrite Herr. split.
        -- intros [<- | (fname & content & Hin & He)].
           ++ exists fname0, content0. auto.
           ++ exists fname, content. split; [now right | exact He].
        -- intros (fname & content & [[= <- <-] | Hin] & He); [left | right; eauto].
           destruct He0 as (_ & _ & _ & [Hc | (doc & Hc & Hv)]),
                    He as (_ & _ & _ & [Hc' | (doc' & Hc' & Hv')]);
             rewrite Hc in Hc'; try discriminate; [congruence |].
           injection Hc' as <-. congruence.
      * intros w. rewrite Hwarn. split.
        -- intros (fname & content & Hin & Hrest). exists fname, content.
           split; [now right | exact Hrest].
        -- intros (fname & content & [[= <- <-] | Hin] & Hw & Hm); [| eauto].
           destruct He0 as (_ & _ & Hs & _), Hw as (_ & _ & Hs'). congruence.
Qed.


(** The archive loop warns about the entry [x]: a file whose name does not
    start with a dot and does not end in [.yaml]. *)
Definition warned (x : Entry RepositoryDocument) : bool :=
  match x with
  | File name _ => negb (hidden name) && negb (strings.HasSuffix name ".yaml")
  | Directory _ _ => false
  end.

(** The warnings of a listing of the archive directory: one for each entry
    warned about, in the order of the listing. *)
Definition archive_warnings (aentries : list (Entry RepositoryDocument)) : list Warning :=
  List.map (fun x => archive_warning (EntryName x)) (List.filter warned aentries).

Lemma ReadRepositories_archived_warning a x repos errors warning repos' errors' warning' :
  ReadRepositories_archived GithubAnsiString teams externalUsers a x
    (repos, errors, warning) = Ret (repos', errors', warning') ->
  warning' = (warning ++ archive_warnings [x])%list.
Proof.
  unfold archive_warnings.
  destruct x as [name content | name listing];
    cbn [ReadRepositories_archived List.filter warned List.map]; intros H.
  2: { injection H as _ _ <-. now rewrite app_nil_r. }
  destruct name as [|c rest]; [discriminate |].
  cbn [byte0 mbind Exec_bind] in H. cbn [hidden].
  destruct (Ascii.eqb c "."%char); cbn [negb andb List.map].
  { injection H as _ _ <-. now rewrite app_nil_r. }
  destruct (strings.HasSuffix (String c rest) ".yaml"); cbn [negb List.map EntryName] in *.
  2: { now injection H as _ _ <-. }
  destruct content as [doc | err]; cbn [NewRepository] in H.
  2: { injection H as _ _ <-. now rewrite app_nil_r. }
  destruct (Validate _ _ _ _ _); injection H as _ _ <-; now rewrite app_nil_r.
Qed.

Lemma archive_loop_warnings a entries :
  forall repos errors warning repos' errors' warning',
    range (ReadRepositories_archived GithubAnsiString teams externalUsers a) entries
      (repos, errors, warning) = Ret (repos', errors', warning') ->
    warning' = (warning ++ archive_warnings entries)%list.
Proof.
  induction entries as [|x entries IH];
    intros repos errors warning repos' errors' warning' H.
  - simpl in H. injection H as _ _ <-. now rewrite app_nil_r.
  - cbn [range] in H.
    destruct (ReadRepositories_archived _ _ _ _ _ _) as [[[repos1 errors1] warning1] | msg]
      eqn:Hstep; [| discriminate].
    cbn [mbind Exec_bind] in H.
    apply ReadRepositories_archived_warning in Hstep. apply IH in H.
    rewrite H, Hstep, <- app_assoc. f_equal.
    unfold archive_warnings. cbn [List.filter].
    destruct (warned x); reflexivity.
Qed.


(** *** The whole run *)

(** The warnings and the errors the archive phase hands over. *)
Lemma phase1_account fs a repos1 errors1 warning1 :
  ReadRepositories_phase1 GithubAnsiString teams externalUsers fs a
  = Ret (inr (repos1, errors1, warning1)) ->
  (forall w, In w warning1 <->
     exists aentries fname content,
       fs a = Present (Ok aentries) /\ In (File fname content) aentries
       /\ archive_file_warned fname /\ w = archive_warning fname)
  /\ (forall err, In err errors1 <->
        exists aentries fname content,
          fs a = Present (Ok aentries) /\ In (File fname content) aentries
          /\ archive_explains a fname content err).
Proof.
  intros H. apply ReadRepositories_phase1_goes_on in H.
  destruct H as [[Hfs [= -> -> ->]] | (aentries & Hfs & Hrun)].
  - split; intros y; (split; [intros [] | intros (? & ? & ? & Hfs' & _); congruence]).
  - apply archive_loop_account in Hrun.
    destruct Hrun as (ne & nw & -> & -> & Herr & Hwarn). simpl. split.
    + intros w. rewrite Hwarn. split.
      * intros (fname & content & Hrest). exists aentries, fname, content. auto.
      * intros (aentries' & fname & content & Hfs' & Hrest).
        rewrite Hfs in Hfs'. injection Hfs' as <-. eauto.
    + intros err. rewrite Herr. split.
      * intros (fname & content & Hrest). exists aentries, fname, content. auto.
      * intros (aentries' & fname & content & Hfs' & Hrest).
        rewrite Hfs in Hfs'. injection Hfs' as <-. eauto.
Qed.

(** X12. Whatever [ReadRepositories] returns, its warnings are, one for each
    file and in the order of the listing, the warnings of the files of the
    archive directory that are not hidden and do not end in [.yaml], and
    nothing else; there is none when the archive directory is not listed. The
    teams tree never gives a warning. *)
Theorem warnings_are_the_archive_files_without_yaml fs a t result_map errors warning :
  ReadRepositories GithubAnsiString teams externalUsers fs a t
  = Ret (result_map, errors, warning) ->
  warning = match fs a with
            | Present (Ok aentries) => archive_warnings aentries
            | _ => []
            end.
Proof.
  intros H. apply ReadRepositories_paths in H.
  destruct H as [(err & Hfs & _ & ->)
                | (repos1 & errors1 & warning1 & Hp1 & Hteams)].
  - destruct Hfs as [[-> _] | [-> _]]; reflexivity.
  - assert (warning = warning1) as ->.
    { destruct Hteams as [(_ & _ & _ & ->)
                         | [(err & _ & _ & ->) | (entries & repos & _ & Hrun & _)]];
        try reflexivity.
      apply teams_loop_account in Hrun. destruct Hrun as (n & _ & -> & _). reflexivity. }
    apply ReadRepositories_phase1_goes_on in Hp1.
    destruct Hp1 as [[-> [= _ _ ->]] | (aentries & -> & Hrun)]; [reflexivity |].
    now apply archive_loop_warnings in Hrun.
Qed.

(** X13. When a map is returned and the status check of the archive directory did
    not fail: every candidate file of the teams tree is loaded under its name
    or has its error in the returned errors, every directory of the tree whose
    listing fails has its error there, and so has every file of the archive
    directory that fails to decode or to validate. *)
Theorem every_file_is_loaded_or_reported fs a t repos errors warning :
  ReadRepositories GithubAnsiString teams externalUsers fs a t
  = Ret (Some repos, errors, warning) ->
  (forall err, fs a <> StatFails err) ->
  (forall entries T p d fname content,
      fs t = Present (Ok entries) ->
      file_in_team_tree t entries T p d fname content ->
      candidate fname ->
      was_loaded repos p d fname content
      \/ exists err, In err errors /\ explains a repos p fname content err)
  /\ (forall entries p err,
        fs t = Present (Ok entries) ->
        unlisted_in_team_tree t entries p err -> In err errors)
  /\ (forall aentries fname content err,
        fs a = Present (Ok aentries) ->
        In (File fname content) aentries ->
        archive_explains a fname content err -> In err errors).
Proof.
  intros H Hstat. apply ReadRepositories_paths in H.
  destruct H as [(err & [[Hfs _] | [_ Hm]] & _) | (repos1 & errors1 & warning1 & Hp1 & Hteams)];
    [destruct (Hstat err Hfs) | discriminate |].
  apply phase1_account in Hp1. destruct Hp1 as [_ He1].
  assert (Hprefix : exists new, errors = (errors1 ++ new)%list).
  { destruct Hteams as [(_ & _ & -> & _) | [(err & _ & -> & _) | (entries & repos2 & _ & Hrun & _)]].
    - exists []. now rewrite app_nil_r.
    - eauto.
    - apply teams_loop_account in Hrun. destruct Hrun as (n & -> & _). eauto. }
  split; [| split].
  - intros entries T p d fname content Hfs Htree Hc.
    destruct Hteams as [(Hno & _) | [(err & [[Hno _] | [Hno _]] & _)
                                    | (entries' & repos2 & Hfs' & Hrun & [= <-])]];
      try congruence.
    rewrite Hfs in Hfs'. injection Hfs' as <-.
    apply teams_loop_account in Hrun. destruct Hrun as (n & -> & _ & _ & Ha & _).
    assert (Hex : exists T, file_in_team_tree t entries T p d fname content)
      by (exists T; exact Htree).
    destruct (Ha p d fname content Hex Hc) as [Hl | (err & Hin & He)];
      [now left | right].
    exists err. split; [apply in_or_app; now right | exact He].
  - intros entries p err Hfs Hu.
    destruct Hteams as [(Hno & _) | [(err' & [[Hno _] | [Hno _]] & _)
                                    | (entries' & repos2 & Hfs' & Hrun & [= <-])]];
      try congruence.
    rewrite Hfs in Hfs'. injection Hfs' as <-.
    apply teams_loop_account in Hrun. destruct Hrun as (n & -> & _ & _ & _ & Hun & _).
    apply in_or_app. right. now apply (Hun p).
  - intros aentries fname content err Hfs Hin He.
    destruct Hprefix as [new ->]. apply in_or_app. left. apply He1.
    exists aentries, fname, content. auto.
Qed.

(** X14. When a map is returned, every returned error has its cause: a status
    check that fails, a file of the archive directory that fails to decode or
    to validate, a directory of the teams tree that fails to list, or a
    candidate file of the teams tree that fails to decode, fails to validate
    or defines a name the map already holds. *)
Theorem every_error_has_its_cause fs a t repos errors warning :
  ReadRepositories GithubAnsiString teams externalUsers fs a t
  = Ret (Some repos, errors, warning) ->
  forall err,
    In err errors ->
    fs a = StatFails err
    \/ fs t = StatFails err
    \/ (exists aentries fname content,
          fs a = Present (Ok aentries) /\ In (File fname content) aentries
          /\ archive_explains a fname content err)
    \/ exists entries,
         fs t = Present (Ok entries)
         /\ ((exists p, unlisted_in_team_tree t entries p err)
             \/ exists T p d fname content,
                  file_in_team_tree t entries T p d fname content
                  /\ explains a repos p fname content err).
Proof.
  intros H err Hin. apply ReadRepositories_paths in H.
  destruct H as [(err' & [[Hfs _] | [_ Hm]] & -> & _)
                | (repos1 & errors1 & warning1 & Hp1 & Hteams)]; [| discriminate |].
  { destruct Hin as [<- | []]. now left. }
  apply phase1_account in Hp1. destruct Hp1 as [_ He1].
  destruct Hteams as [(_ & _ & -> & _)
                     | [(err' & [[Hfs _] | [_ Hm]] & -> & _)
                       | (entries & repos2 & Hfs & Hrun & [= <-])]]; [| | discriminate |].
  - right. right. left. now apply He1.
  - apply in_app_or in Hin. destruct Hin as [Hin | [<- | []]].
    + right. right. left. now apply He1.
    + right. now left.
  - apply teams_loop_account in Hrun. destruct Hrun as (n & -> & _ & _ & _ & _ & Hc).
    apply in_app_or in Hin. destruct Hin as [Hin | Hin].
    + right. right. left. now apply He1.
    + right. right. right. exists entries. split; [exact Hfs |].
      destruct (Hc err Hin) as [Hu | (p & d & fname & content & (T & Htree) & He)];
        [now left | right]. eauto 8.
Qed.

End TeamsWalk.

(** ** What the readers never look at, and when they return *)

Lemma range_filter {A S : Type} (body : A -> S -> Exec S) (keep : A -> bool) (l : list A) :
  (forall x s, keep x = false -> body x s = Ret s) ->
  forall s, range body (List.filter keep l) s = range body l s.
Proof.
  intros Hskip. induction l as [|x l IH]; intros s; [reflexivity |].
  cbn [List.filter range]. destruct (keep x) eqn:Hk.
  - cbn [range]. destruct (body x s) as [s1 | msg]; cbn [mbind Exec_bind]; [apply IH | reflexivity].
  - rewrite (Hskip x s Hk). cbn [mbind Exec_bind]. apply IH.
Qed.

(** A listing with only the entries [keep] selects; a path that is not a
    listed directory is left as it is. *)
Definition keeping {D : Type} (keep : Entry D -> bool) (s : Stat D) : Stat D :=
  match s with
  | Present (Ok entries) => Present (Ok (List.filter keep entries))
  | _ => s
  end.

(** The entries the two flat loops look into: the files whose name does not
    start with a dot. *)
Definition plain_file {D : Type} (x : Entry D) : bool :=
  negb (IsDir x) && negb (hidden (EntryName x)).

(** The entries the walk of the teams tree looks into: the directories that
    are not hidden, and the files named [*.yaml] other than [team.yaml]. *)
Definition walked {D : Type} (x : Entry D) : bool :=
  match x with
  | File name _ => (filepath.Ext name =? ".yaml") && negb (name =? "team.yaml")
  | Directory name _ => negb (hidden name)
  end.

(** A directory of the teams tree with only the entries the walk looks into,
    at every depth. *)
Fixpoint prune {D : Type} (x : Entry D) {struct x} : Entry D :=
  match x with
  | File name content => File name content
  | Directory name (Err err) => Directory name (Err err)
  | Directory name (Ok entries) =>
      Directory name
        (Ok ((fix prune_listing (l : list (Entry D)) : list (Entry D) :=
                match l with
                | [] => []
                | y :: l' =>
                    if walked y then prune y :: prune_listing l' else prune_listing l'
                end) entries))
  end.

Definition prune_listing {D : Type} (entries : list (Entry D)) : list (Entry D) :=
  List.map prune (List.filter walked entries).

Lemma prune_directory {D : Type} (name : string) (entries : list (Entry D)) :
  prune (Directory name (Ok entries)) = Directory name (Ok (prune_listing entries)).
Proof.
  cbn [prune]. f_equal. f_equal. unfold prune_listing.
  induction entries as [|y l IH]; [reflexivity |].
  cbn [List.filter]. destruct (walked y); cbn [List.map]; now rewrite IH.
Qed.

(** The teams directory with the top-level directories only, each pruned. *)
Definition pruned_teams {D : Type} (s : Stat D) : Stat D :=
  match s with
  | Present (Ok entries) => Present (Ok (List.map prune (List.filter IsDir entries)))
  | _ => s
  end.

(** Every name of the entry and of the entries below it is non-empty. *)
Fixpoint all_named {D : Type} (x : Entry D) {struct x} : Prop :=
  EntryName x <> ""
  /\ match x with
     | Directory _ (Ok entries) =>
         (fix all (l : list (Entry D)) : Prop :=
            match l with
            | [] => True
            | y :: l' => all_named y /\ all l'
            end) entries
     | _ => True
     end.

Lemma all_named_directory {D : Type} (name : string) (entries : list (Entry D)) :
  all_named (Directory name (Ok entries)) <-> name <> "" /\ Forall all_named entries.
Proof.
  cbn [all_named EntryName]. apply and_iff_compat_l.
  induction entries as [|y l IH].
  - split; [constructor | auto].
  - rewrite Forall_cons, IH. reflexivity.
Qed.

(** X9. The ruleset reader reads the files of the directory whose name does not
    start with a dot and nothing else: subdirectories and hidden files have no
    influence on what it returns. *)
Theorem ReadRuleSetDirectory_reads_plain_files_only (fs fs' : Filesystem RuleSet)
  (dirname : string) :
  fs' dirname = keeping plain_file (fs dirname) ->
  ReadRuleSetDirectory fs' dirname = ReadRuleSetDirectory fs dirname.
Proof.
  intros H. unfold ReadRuleSetDirectory, utils.Exists, ReadDir. rewrite H.
  destruct (fs dirname) as [err | | [entries | err]]; cbn [keeping]; try reflexivity.
  rewrite range_filter; [reflexivity |].
  intros [name content | name listing] [rulesets errors]; unfold plain_file;
    cbn [IsDir EntryName negb andb ReadRuleSetDirectory_entry]; [| reflexivity].
  destruct name as [|c rest]; [discriminate |]. cbn [hidden byte0 mbind Exec_bind].
  intros Hh. apply negb_false_iff in Hh. now rewrite Hh.
Qed.

Section Untouched.

Context {Team User : Type}.
Variable GithubAnsiString : string -> string.
Variable teams : gmap string Team.
Variable externalUsers : gmap string User.

Lemma walk_unwalked a dirPath dirName (x : Entry RepositoryDocument) st :
  walked x = false ->
  recursiveReadRepositories_entry GithubAnsiString teams externalUsers
    a dirPath dirName x st = Ret st.
Proof.
  destruct st as [[repos errors] warnings].
  destruct x as [name content | name listing]; cbn [walked]; intros H.
  - cbn [recursiveReadRepositories_entry]. now rewrite H.
  - rewrite recursiveReadRepositories_entry_directory.
    destruct name as [|c rest]; [discriminate |].
    cbn [hidden] in H. cbn [byte0 mbind Exec_bind]. now rewrite H.
Qed.

Lemma walk_prune a (x : Entry RepositoryDocument) :
  forall dirPath dirName st,
    recursiveReadRepositories_entry GithubAnsiString teams externalUsers
      a dirPath dirName (prune x) st
    = recursiveReadRepositories_entry GithubAnsiString teams externalUsers
        a dirPath dirName x st.
Proof.
  induction x as [name content | name err | name entries IH] using Entry_induction;
    intros dirPath dirName [[repos errors] warnings]; try reflexivity.
  rewrite prune_directory, !recursiveReadRepositories_entry_directory.
  destruct (byte0 name) as [c | msg]; cbn [mbind Exec_bind]; [| reflexivity].
  destruct (negb (Ascii.eqb c "."%char)); [| reflexivity].
  cbn [recursiveReadRepositories].
  assert (Hrange : forall st,
             range (recursiveReadRepositories_entry GithubAnsiString teams externalUsers
                      a (filepath.Join dirPath name) name) (prune_listing entries) st
             = range (recursiveReadRepositories_entry GithubAnsiString teams externalUsers
                        a (filepath.Join dirPath name) name) entries st).
  { unfold prune_listing. induction IH as [|y l Hy _ IHl]; intros st; [reflexivity |].
    cbn [List.filter]. destruct (walked y) eqn:Hw; cbn [List.map range].
    - rewrite Hy. destruct (recursiveReadRepositories_entry _ _ _ _ _ _ y st);
        cbn [mbind Exec_bind]; [apply IHl | reflexivity].
    - rewrite (walk_unwalked _ _ _ _ _ Hw). cbn [mbind Exec_bind]. apply IHl. }
  now rewrite Hrange.
Qed.

Lemma ReadRepositories_team_prune a t (x : Entry RepositoryDocument) st :
  ReadRepositories_team GithubAnsiString teams externalUsers a t (prune x) st
  = ReadRepositories_team GithubAnsiString teams externalUsers a t x st.
Proof.
  destruct st as [[repos errors] warnings].
  destruct x as [name content | T [tentries | err]]; try reflexivity.
  rewrite prune_directory. cbn [ReadRepositories_team recursiveReadRepositories].
  assert (Hrange : forall st,
             range (recursiveReadRepositories_entry GithubAnsiString teams externalUsers
                      a (filepath.Join t T) T) (prune_listing tentries) st
             = range (recursiveReadRepositories_entry GithubAnsiString teams externalUsers
                        a (filepath.Join t T) T) tentries st).
  { unfold prune_listing. induction tentries as [|y l IHl]; intros st; [reflexivity |].
    cbn [List.filter]. destruct (walked y) eqn:Hw; cbn [List.map range].
    - rewrite walk_prune. destruct (recursiveReadRepositories_entry _ _ _ _ _ _ y st);
        cbn [mbind Exec_bind]; [apply IHl | reflexivity].
    - rewrite (walk_unwalked _ _ _ _ _ Hw). cbn [mbind Exec_bind]. apply IHl. }
  now rewrite Hrange.
Qed.

Lemma range_map_prune a t (l : list (Entry RepositoryDocument)) st :
  range (ReadRepositories_team GithubAnsiString teams externalUsers a t)
    (List.map prune l) st
  = range (ReadRepositories_team GithubAnsiString teams externalUsers a t) l st.
Proof.
  revert st. induction l as [|x l IH]; intros st; [reflexivity |].
  cbn [List.map range]. rewrite ReadRepositories_team_prune.
  destruct (ReadRepositories_team _ _ _ _ _ x st); cbn [mbind Exec_bind];
    [apply IH | reflexivity].
Qed.

(** X15. [ReadRepositories] looks into the files of the archive directory whose
    name does not start with a dot, and, below the top-level directories of
    the teams directory, into the directories that are not hidden and the
    files named [*.yaml] other than [team.yaml]; nothing else has any
    influence on what it returns: not the subdirectories of the archive
    directory, not the files placed directly in the teams directory, not a
    [team.yaml], not what a hidden directory below a top-level directory
    holds. The top-level directories of the teams directory are all kept,
    hidden or not: the loop over the teams directory has no test on the
    name. *)
Theorem ReadRepositories_reads_walked_entries_only (fs fs' : Filesystem RepositoryDocument)
  (a t : string) :
  fs' a = keeping plain_file (fs a) ->
  fs' t = pruned_teams (fs t) ->
  ReadRepositories GithubAnsiString teams externalUsers fs' a t
  = ReadRepositories GithubAnsiString teams externalUsers fs a t.
Proof.
  intros Ha Ht.
  assert (Hp1 : ReadRepositories_phase1 GithubAnsiString teams externalUsers fs' a
                = ReadRepositories_phase1 GithubAnsiString teams externalUsers fs a).
  { unfold ReadRepositories_phase1, utils.Exists, ReadDir. rewrite Ha.
    destruct (fs a) as [err | | [entries | err]]; cbn [keeping]; try reflexivity.
    rewrite range_filter; [reflexivity |].
    intros [name content | name listing] [[repos errors] warning]; unfold plain_file;
      cbn [IsDir EntryName negb andb ReadRepositories_archived]; [| reflexivity].
    destruct name as [|c rest]; [discriminate |]. cbn [hidden byte0 mbind Exec_bind].
    intros Hh. apply negb_false_iff in Hh. now rewrite Hh. }
  unfold ReadRepositories. rewrite Hp1.
  destruct (ReadRepositories_phase1 _ _ _ fs a) as [[early | [[repos errors] warning]] | msg];
    cbn [mbind Exec_bind]; try reflexivity.
  unfold utils.Exists, ReadDir. rewrite Ht.
  destruct (fs t) as [err | | [entries | err]]; cbn [pruned_teams]; try reflexivity.
  rewrite range_map_prune, range_filter; [reflexivity |].
  intros [name content | name listing] [[repos' errors'] warning']; cbn [IsDir];
    [reflexivity | discriminate].
Qed.

(** X16. [ReadRepositories] returns, whatever the two directories hold, as long as
    no listed entry has an empty name: no entry of the archive directory, and
    no entry of the teams tree at any depth. *)
Theorem ReadRepositories_returns (fs : Filesystem RepositoryDocument) (a t : string) :
  (forall aentries, fs a = Present (Ok aentries) ->
                    Forall (fun x => EntryName x <> "") aentries) ->
  (forall entries, fs t = Present (Ok entries) -> Forall all_named entries) ->
  returns (ReadRepositories GithubAnsiString teams externalUsers fs a t).
Proof.
  intros Ha Ht.
  assert (Hwalk : forall x : Entry RepositoryDocument,
             all_named x ->
             forall dirPath dirName st,
               returns (recursiveReadRepositories_entry GithubAnsiString teams
                          externalUsers a dirPath dirName x st)).
  { induction x as [name content | name err | name entries IH] using Entry_induction;
      intros Hn dirPath dirName [[repos errors] warnings].
    - cbn [recursiveReadRepositories_entry].
      destruct (_ && _); [| eexists; reflexivity].
      destruct (NewRepository _ _) as [repo | err]; [| eexists; reflexivity].
      destruct (Validate _ _ _ _ _); [eexists; reflexivity |].
      destruct (repos !! _); eexists; reflexivity.
    - rewrite recursiveReadRepositories_entry_directory.
      destruct Hn as [Hne _]. destruct name as [|c rest]; [now destruct Hne |].
      cbn [byte0 mbind Exec_bind]. destruct (negb _); eexists; reflexivity.
    - rewrite recursiveReadRepositories_entry_directory.
      apply all_named_directory in Hn. destruct Hn as [Hne Hall].
      destruct name as [|c rest]; [now destruct Hne |].
      cbn [byte0 mbind Exec_bind]. destruct (negb _); [| eexists; reflexivity].
      cbn [recursiveReadRepositories].
      destruct (range_returns
                  (recursiveReadRepositories_entry GithubAnsiString teams externalUsers a
                     (filepath.Join dirPath (String c rest)) (String c rest)) entries)
        with (s := (repos, [] : list error, [] : list Warning))
        as [[[repos' suberrs] subwarns] ->]; [| eexists; reflexivity].
      rewrite Forall_forall in IH, Hall. apply Forall_forall. intros x Hx st.
      apply IH; [exact Hx | now apply Hall]. }
  assert (Hteams : forall entries, fs t = Present (Ok entries) ->
             forall st, returns (range (ReadRepositories_team GithubAnsiString teams
                                          externalUsers a t) entries st)).
  { intros entries Hfs. apply range_returns.
    eapply Forall_impl; [exact (Ht entries Hfs) |].
    intros [name content | T [tentries | err]] Hn [[repos errors] warning];
      cbn [ReadRepositories_team recursiveReadRepositories mbind Exec_bind];
      try (eexists; reflexivity).
    apply all_named_directory in Hn. destruct Hn as [_ Hall].
    destruct (range_returns
                (recursiveReadRepositories_entry GithubAnsiString teams externalUsers a
                   (filepath.Join t T) T) tentries)
      with (s := (repos, [] : list error, [] : list Warning))
      as [[[repos' suberrs] subwarns] ->]; [| eexists; reflexivity].
    eapply Forall_impl; [exact Hall |]. intros x Hx st. now apply Hwalk. }
  assert (Harchive : forall aentries, fs a = Present (Ok aentries) ->
             forall st, returns (range (ReadRepositories_archived GithubAnsiString teams
                                          externalUsers a) aentries st)).
  { intros aentries Hfs. apply range_returns.
    eapply Forall_impl; [exact (Ha aentries Hfs) |].
    intros [name content | name listing] Hn [[repos errors] warning];
      cbn [ReadRepositories_archived]; [| eexists; reflexivity].
    cbn [EntryName] in Hn. destruct name as [|c rest]; [now destruct Hn |].
    cbn [byte0 mbind Exec_bind]. destruct (Ascii.eqb c "."%char); [eexists; reflexivity |].
    destruct (negb _); [eexists; reflexivity |].
    destruct (NewRepository _ _) as [repo | err]; [| eexists; reflexivity].
    destruct (Validate _ _ _ _ _); eexists; reflexivity. }
  unfold ReadRepositories, ReadRepositories_phase1, utils.Exists, ReadDir.
  destruct (fs a) as [err | | [aentries | err]] eqn:Hfa;
    destruct (fs t) as [err' | | [entries | err']] eqn:Hft;
    cbn [mbind Exec_bind]; try (eexists; reflexivity);
    repeat match goal with
           | |- context [range (ReadRepositories_archived _ _ _ _) aentries ?s] =>
               destruct (Harchive aentries eq_refl s) as [[[? ?] ?] ->];
               cbn [mbind Exec_bind]
           | |- context [range (ReadRepositories_team _ _ _ _ _) entries ?s] =>
               destruct (Hteams entries eq_refl s) as [[[? ?] ?] ->];
               cbn [mbind Exec_bind]
           end;
    eexists; reflexivity.
Qed.

End Untouched.

(** ** The further properties on concrete inputs *)

(** [rulesets/]: a subdirectory, a hidden file, [default.yaml], a file that
    does not decode, and [default.txt], which declares the name [default]
    again. *)
Definition mixed_rulesets : Filesystem RuleSet :=
  fun path =>
    if path =? "rulesets" then
      Present (Ok [Directory "old" (Ok []);
                   File ".hidden.yaml" (Err "yaml: hidden");
                   File "default.yaml" (Ok (ruleset_with_enforcement "active"));
                   File "broken.yaml" (Err "yaml: line 3");
                   File "default.txt" (Ok (ruleset_with_enforcement "evaluate"))])
    else NotExist.

(** [archived/]: a subdirectory, [notes.txt], [old.yaml] and a file that does
    not decode; [teams/]: a file, and the team [core] with its [team.yaml],
    [api.yaml], a second [old.yaml], a hidden directory and a directory that
    cannot be listed. *)
Definition busy_tree : Filesystem RepositoryDocument :=
  two_directories
    (Present (Ok [Directory "attic" (Ok [File "lost.yaml" (Ok (repository_document "lost"))]);
                  File "notes.txt" (Err "not yaml");
                  File "old.yaml" (Ok (repository_document "old"));
                  File "bad.yaml" (Err "yaml: broken")]))
    (Present (Ok [File "README.md" (Err "not yaml");
                  Directory "core"
                    (Ok [File "team.yaml" (Err "a team, not a repository");
                         File "api.yaml" (Ok (repository_document "api"));
                         File "old.yaml" (Ok (repository_document "old"));
                         Directory ".git"
                           (Ok [File "x.yaml" (Ok (repository_document "x"))]);
                         Directory "sub" (Err "open teams/core/sub: permission denied")])])).

Definition mixed_rulesets_map : gmap string RuleSet :=
  {[ "default" := ruleset_with_enforcement "evaluate" ]}.

Definition core_api : Repository :=
  loaded (repository_document "api") "teams/core" "api.yaml" "core".

Definition busy_map : gmap string Repository :=
  {[ "old" := archived_old; "api" := core_api ]}.

Definition busy_errors : list error :=
  ["yaml: broken";
   "Repository old defined in 2 places (check teams/core/old.yaml and archived/old)";
   "open teams/core/sub: permission denied"].

Definition busy_warnings : list Warning :=
  ["file notes.txt doesn't have a .yaml extension"].

Lemma mixed_rulesets_run :
  ReadRuleSetDirectory mixed_rulesets "rulesets"
  = Ret (mixed_rulesets_map, ["yaml: line 3"], []).
Proof. vm_compute. reflexivity. Qed.

Lemma busy_tree_run :
  ReadRepositories unchanged no_teams no_users busy_tree "archived" "teams"
  = Ret (Some busy_map, busy_errors, busy_warnings).
Proof. vm_compute. reflexivity. Qed.

(** The ruleset of the map of [rulesets/] comes from a file of the listing. *)
Lemma rulesets_come_from_accepted_files_witness :
  exists entries name,
    mixed_rulesets "rulesets" = Present (Ok entries)
    /\ In (File name (Ok (ruleset_with_enforcement "evaluate"))) entries
    /\ ruleset_file_accepted "rulesets" name (ruleset_with_enforcement "evaluate")
    /\ RuleSetName_of (ruleset_with_enforcement "evaluate") = "default".
Proof.
  apply (proj2 (rulesets_come_from_accepted_files _ _ _ _ _ mixed_rulesets_run)).
  vm_compute. reflexivity.
Defined.

(** The error of [rulesets/broken.yaml] is reported. *)
Lemma ruleset_files_accounted_for_witness : In "yaml: line 3" ["yaml: line 3"].
Proof.
  apply (proj1 (ruleset_files_accounted_for _ _ _ _ _ _ mixed_rulesets_run eq_refl)
           "broken.yaml" (Err "yaml: line 3")).
  - simpl. auto 6.
  - split; [discriminate |]. split; [reflexivity | now left].
Defined.

(** [default.txt] comes after [default.yaml] and replaces it. *)
Lemma last_accepted_ruleset_wins_witness :
  mixed_rulesets_map !! "default" = Some (ruleset_with_enforcement "evaluate").
Proof.
  apply (last_accepted_ruleset_wins mixed_rulesets "rulesets"
           [Directory "old" (Ok []);
            File ".hidden.yaml" (Err "yaml: hidden");
            File "default.yaml" (Ok (ruleset_with_enforcement "active"));
            File "broken.yaml" (Err "yaml: line 3")]
           "default.txt" (ruleset_with_enforcement "evaluate") []
           mixed_rulesets_map ["yaml: line 3"] []).
  - exact mixed_rulesets_run.
  - reflexivity.
  - split; [discriminate |]. split; [reflexivity | vm_compute; reflexivity].
  - intros name' r' [].
Defined.

(** No name of [rulesets/] is empty, and no include entry. *)
Lemma ReadRuleSetDirectory_returns_witness :
  returns (ReadRuleSetDirectory mixed_rulesets "rulesets").
Proof.
  apply ReadRuleSetDirectory_returns. intros entries [= <-].
  repeat (apply Forall_cons; split);
    try apply Forall_nil; try exact I;
    (split; [discriminate |]); intros r [= <-]; repeat constructor; discriminate.
Defined.

(** [rulesets/] without its subdirectory and its hidden file. *)
Lemma ReadRuleSetDirectory_reads_plain_files_only_witness :
  ReadRuleSetDirectory (fun path => keeping plain_file (mixed_rulesets path)) "rulesets"
  = ReadRuleSetDirectory mixed_rulesets "rulesets".
Proof.
  apply ReadRuleSetDirectory_reads_plain_files_only. reflexivity.
Defined.

(** The teams directory that cannot be listed. *)
Lemma nil_map_comes_with_the_listing_error_witness :
  exists earlier err,
    ["open teams: permission denied"] = (earlier ++ [err])%list
    /\ (unlistable_teams_tree "archived" = Present (Err err)
        \/ unlistable_teams_tree "teams" = Present (Err err)).
Proof.
  apply (nil_map_comes_with_the_listing_error unchanged no_teams no_users
           unlistable_teams_tree "archived" "teams" _ []).
  vm_compute. reflexivity.
Defined.

(** [archived/old.yaml] stays in the map, archived, with [teams/core/old.yaml]
    in the tree. *)
Lemma archived_repositories_in_the_result_witness :
  exists r, busy_map !! "old" = Some r /\ r.(Archived) = true /\ r.(Owner) = None.
Proof.
  apply (proj2 (archived_repositories_in_the_result _ _ _ _ _ _ _ _ _ busy_tree_run)
           _ "old.yaml" (repository_document "old") eq_refl).
  - split; [simpl; auto |]. split; [discriminate |]. split; reflexivity.
  - vm_compute. reflexivity.
Defined.

(** The one warning of the busy tree is that of [archived/notes.txt]. *)
Lemma warnings_are_the_archive_files_without_yaml_witness :
  busy_warnings
  = match busy_tree "archived" with
    | Present (Ok aentries) => archive_warnings aentries
    | _ => []
    end.
Proof.
  apply (warnings_are_the_archive_files_without_yaml _ _ _ _ _ _ _ _ _ busy_tree_run).
Defined.

Lemma busy_archive_status (err : error) : busy_tree "archived" <> StatFails err.
Proof. discriminate. Qed.

(** [teams/core/api.yaml] is loaded. *)
Lemma every_file_is_loaded_or_reported_witness :
  was_loaded unchanged no_teams no_users busy_map "teams/core" "core" "api.yaml"
    (Ok (repository_document "api"))
  \/ exists err,
       In err busy_errors
       /\ explains unchanged no_teams no_users "archived" busy_map "teams/core" "api.yaml"
            (Ok (repository_document "api")) err.
Proof.
  apply (proj1 (every_file_is_loaded_or_reported _ _ _ _ _ _ _ _ _ busy_tree_run
                  busy_archive_status) _ "core" _ _ _ _ eq_refl).
  - eexists _, (File "api.yaml" (Ok (repository_document "api"))).
    split; [simpl; right; left; reflexivity |].
    split; [simpl; auto | apply reaches_file].
  - split; [reflexivity | discriminate].
Defined.

(** The third error of the busy tree is that of [teams/core/sub]. *)
Lemma every_error_has_its_cause_witness :
  busy_tree "archived" = StatFails "open teams/core/sub: permission denied"
  \/ busy_tree "teams" = StatFails "open teams/core/sub: permission denied"
  \/ (exists aentries fname content,
        busy_tree "archived" = Present (Ok aentries) /\ In (File fname content) aentries
        /\ archive_explains unchanged no_teams no_users "archived" fname content
             "open teams/core/sub: permission denied")
  \/ exists entries,
       busy_tree "teams" = Present (Ok entries)
       /\ ((exists p, unlisted_in_team_tree "teams" entries p
                        "open teams/core/sub: permission denied")
           \/ exists T p d fname content,
                file_in_team_tree "teams" entries T p d fname content
                /\ explains unchanged no_teams no_users "archived" busy_map p fname content
                     "open teams/core/sub: permission denied").
Proof.
  apply (every_error_has_its_cause _ _ _ _ _ _ _ _ _ busy_tree_run).
  simpl. auto.
Defined.

(** The busy tree and the busy tree pruned give the same result. *)
Lemma ReadRepositories_reads_walked_entries_only_witness :
  ReadRepositories unchanged no_teams no_users
    (two_directories (keeping plain_file (busy_tree "archived"))
       (pruned_teams (busy_tree "teams"))) "archived" "teams"
  = ReadRepositories unchanged no_teams no_users busy_tree "archived" "teams".
Proof.
  apply ReadRepositories_reads_walked_entries_only; reflexivity.
Defined.

(** No name of the busy tree is empty. *)
Lemma ReadRepositories_returns_witness :
  returns (ReadRepositories unchanged no_teams no_users busy_tree "archived" "teams").
Proof.
  apply ReadRepositories_returns.
  - intros aentries [= <-]. repeat constructor; discriminate.
  - intros entries [= <-]. repeat constructor; simpl; repeat split; discriminate.
Defined.

(** * The owner of a repository, and a name defined twice *)

(** [listing_without p fname doc dirPath l l']: the walk of the listing [l] of
    the directory [dirPath] comes to the file [fname], holding [doc], in the
    directory [p], and [l'] is [l] with that one file taken out. *)
Inductive listing_without (p fname : string) (doc : RepositoryDocument) :
  string -> list (Entry RepositoryDocument) -> list (Entry RepositoryDocument) -> Prop :=
| without_here l1 l2 :
    listing_without p fname doc p (l1 ++ File fname (Ok doc) :: l2) (l1 ++ l2)
| without_below dirPath l1 name sub sub' l2 :
    name <> "" ->
    hidden name = false ->
    listing_without p fname doc (filepath.Join dirPath name) sub sub' ->
    listing_without p fname doc dirPath
      (l1 ++ Directory name (Ok sub) :: l2) (l1 ++ Directory name (Ok sub') :: l2).

(** The same for the listing of the teams directory: the file is under one of
    its top-level directories. *)
Definition teams_without (teamDirname p fname : string) (doc : RepositoryDocument)
  (entries entries' : list (Entry RepositoryDocument)) : Prop :=
  exists l1 T sub sub' l2,
    entries = (l1 ++ Directory T (Ok sub) :: l2)%list
    /\ entries' = (l1 ++ Directory T (Ok sub') :: l2)%list
    /\ listing_without p fname doc (filepath.Join teamDirname T) sub sub'.

(** Every file the walk comes to can be taken out. *)
Lemma visits_without dirPath dirName sube p d fname doc :
  visits dirPath dirName sube p d fname doc ->
  forall l, In sube l -> exists l', listing_without p fname doc dirPath l l'.
Proof.
  intros H. induction H as [dirPath dirName fname doc
                           | dirPath dirName name subentries sube p d fname doc
                               Hname Hhidden Hsub _ IH];
    intros l Hin; apply in_split in Hin; destruct Hin as (l1 & l2 & ->).
  - exists (l1 ++ l2)%list. constructor.
  - destruct (IH subentries Hsub) as [sub' Hsub'].
    exists (l1 ++ Directory name (Ok sub') :: l2)%list. now constructor.
Qed.

Lemma in_team_tree_without t entries T p d fname doc :
  in_team_tree t entries T p d fname doc ->
  exists entries', teams_without t p fname doc entries entries'.
Proof.
  intros (tentries & sube & Hd & Hs & Hv).
  destruct (visits_without _ _ _ _ _ _ _ Hv tentries Hs) as [sub' Hsub'].
  apply in_split in Hd. destruct Hd as (l1 & l2 & ->).
  exists (l1 ++ Directory T (Ok sub') :: l2)%list, l1, T, tentries, sub', l2. auto.
Qed.

Section OwnerAndCollision.

Context {Team User : Type}.
Variable GithubAnsiString : string -> string.
Variable teams : gmap string Team.
Variable externalUsers : gmap string User.









(** C1, as the code has it. Every repository of the returned map is either the
    archived repository of a valid file of the archive directory, or the
    repository loaded from a valid file [X.yaml] of the teams tree: its name
    is [X], it is not archived, and its owner is the name of the directory
    that directly holds the file, which is the top-level team directory only
    for a file placed directly in it. And when the status check of the archive
    directory does not fail, every valid file [X.yaml] the walk comes to has
    an entry under [X] in the map: the repository loaded from it, with these
    name, owner and archived flag, or else an entry the error of a name
    defined twice points to, reported for the file. *)
Theorem owner_is_the_containing_directory fs a t repos errors warning :
  ReadRepositories GithubAnsiString teams externalUsers fs a t
  = Ret (Some repos, errors, warning) ->
  (forall k r,
      repos !! k = Some r ->
      (exists aentries fname doc,
          fs a = Present (Ok aentries)
          /\ in_archive aentries fname doc
          /\ valid_document GithubAnsiString teams externalUsers a fname doc
          /\ r = loaded_archived doc a fname)
      \/ exists entries T p d fname doc,
           fs t = Present (Ok entries)
           /\ in_team_tree t entries T p d fname doc
           /\ repository_file GithubAnsiString teams externalUsers p fname doc
           /\ r = loaded doc p fname d
           /\ RepoName r = k
           /\ r.(Owner) = Some d
           /\ r.(Archived) = false
           /\ (Forall (fun c => filepath.is_sep c = false) (list_ascii_of_string fname) ->
               fname = k ++ ".yaml"))
  /\ (forall entries T p d fname doc,
        (forall err, fs a <> StatFails err) ->
        fs t = Present (Ok entries) ->
        in_team_tree t entries T p d fname doc ->
        repository_file GithubAnsiString teams externalUsers p fname doc ->
        (Forall (fun c => filepath.is_sep c = false) (list_ascii_of_string fname) ->
         fname = doc_name doc ++ ".yaml")
        /\ exists r,
             repos !! doc_name doc = Some r
             /\ ((r = loaded doc p fname d
                  /\ RepoName r = doc_name doc
                  /\ r.(Owner) = Some d
                  /\ r.(Archived) = false)
                 \/ In (defined_twice (doc_name doc) (filepath.Join p fname)
                          (existing_path a r (doc_name doc))) errors)).
Proof.
  intros Hrun. apply ReadRepositories_run in Hrun.
  destruct Hrun as [[-> (err & Herr)] | (repos1 & errors1 & warning1 & Hp1 & Hteams)].
  { split.
    - intros k r Hr. now rewrite lookup_empty in Hr.
    - intros entries T p d fname doc Hfs. destruct (Hfs err Herr). }
  apply ReadRepositories_phase1_spec in Hp1. destruct Hp1 as (Harch & _).
  destruct Hteams as [[-> Hnone] | (entries & Hfs & Hloop)].
  { split.
    - intros k r Hr. left.
      destruct (Harch k r Hr) as (aentries & fname & doc & H1 & H2 & H3 & _ & H4).
      exists aentries, fname, doc. auto.
    - intros entries T p d fname doc _ Hfs. destruct (Hnone entries Hfs). }
  split.
  - apply teams_loop_spec in Hloop.
    destruct Hloop as (new_errors & new_warnings & _ & _ & _ & Hnew & _).
    intros k r Hr.
    destruct (Hnew k r Hr) as [Hold | (p & d & fname & doc & (T & Htree) & Hfile & -> & ->)].
    + left. destruct (Harch k r Hold) as (aentries & fname & doc & H1 & H2 & H3 & _ & H4).
      exists aentries, fname, doc. auto.
    + right. exists entries, T, p, d, fname, doc.
      repeat (split; [first [assumption | reflexivity] |]).
      now apply (repository_file_name GithubAnsiString teams externalUsers p).
  - intros entries' T p d fname doc _ Hfs' Htree Hfile.
    rewrite Hfs in Hfs'. injection Hfs' as <-.
    split; [now apply (repository_file_name GithubAnsiString teams externalUsers p) |].
    apply teams_loop_account in Hloop.
    destruct Hloop as (new_errors & -> & _ & _ & Hall & _).
    assert (Hreach : exists T, file_in_team_tree t entries T p d fname (Ok doc)).
    { destruct Htree as (tentries & sube & Hd & Hs & Hv).
      exists T, tentries, sube. split; [exact Hd |]. split; [exact Hs |].
      now apply visits_reaches. }
    destruct Hfile as (Hext & Hteam & Hvalid).
    destruct (Hall p d fname (Ok doc) Hreach (conj Hext Hteam))
      as [(doc' & [= <-] & _ & Hl)
         | (err & Hin & _ & [Hc | (doc' & [= <-] & [Hv | (_ & found & Hf & ->)])])].
    + exists (loaded doc p fname d). split; [exact Hl |]. left. repeat split.
    + discriminate.
    + unfold valid_document in Hvalid. unfold validate_at in Hv. congruence.
    + exists found. split; [exact Hf |]. right. apply in_or_app. now right.
Qed.


End OwnerAndCollision.

(** The theorem on the owner, used on [teams/T/sub/repo.yaml]. *)
Lemma owner_is_the_containing_directory_witness :
  (Forall (fun c => filepath.is_sep c = false) (list_ascii_of_string "repo.yaml") ->
   "repo.yaml" = doc_name (repository_document "repo") ++ ".yaml")
  /\ exists r,
       nested_map !! doc_name (repository_document "repo") = Some r
       /\ ((r = loaded (repository_document "repo") "teams/T/sub" "repo.yaml" "sub"
            /\ RepoName r = doc_name (repository_document "repo")
            /\ r.(Owner) = Some "sub"
            /\ r.(Archived) = false)
           \/ In (defined_twice (doc_name (repository_document "repo"))
                    (filepath.Join "teams/T/sub" "repo.yaml")
                    (existing_path "archived" r (doc_name (repository_document "repo"))))
                 []).
Proof.
  apply (proj2 (owner_is_the_containing_directory unchanged no_teams no_users
                  nested_tree "archived" "teams" nested_map [] []
                  ltac:(vm_compute; reflexivity))
           [Directory "T"
              (Ok [Directory "sub"
                     (Ok [File "repo.yaml" (Ok (repository_document "repo"))])])]
           "T" "teams/T/sub" "sub" "repo.yaml" (repository_document "repo")).
  - discriminate.
  - reflexivity.
  - eexists _, (Directory "sub" (Ok [File "repo.yaml" (Ok (repository_document "repo"))])).
    split; [now left |]. split; [now left |].
    apply (visits_directory "teams/T" "T" "sub" _
             (File "repo.yaml" (Ok (repository_document "repo"))));
      [discriminate | reflexivity | now left |].
    apply (visits_file "teams/T/sub" "sub").
  - split; [reflexivity |]. split; [discriminate |]. vm_compute. reflexivity.
Defined.

